(** * check-malicious.js: a shallow embedding and its properties

    The scanner walks the working directory for [package.json] files, finds
    or generates a lock file for each, turns the lock file into a map from
    package name to version, asks the OSV batch endpoint about every entry and
    reports the advisories it classifies as malicious.

    The disk, the package managers and the OSV endpoint are modelled
    explicitly: the disk is a tree, every effect of a run is appended to a
    trace, and what the outside world answers is supplied by a class of
    externals. *)

From Stdlib Require Import List String Ascii Bool Arith ZArith Lia.
Import ListNotations.

Local Open Scope string_scope.
Local Open Scope list_scope.
Local Open Scope nat_scope.

Set Implicit Arguments.
Set Warnings "-register-all".

(* ================================================================== *)
(** * JavaScript strings *)
(* ================================================================== *)

(** Strings are sequences of one-byte characters.  The only case folding
    that can produce one of the letters of the word "malicious" is the one
    of the letters A to Z, so [toLowerCase] folds exactly those. *)

Module JsString.

(** [s.startsWith(p)] *)
Fixpoint startsWith (s p : string) {struct p} : bool :=
  match p with
  | EmptyString => true
  | String c p' =>
      match s with
      | EmptyString => false
      | String d s' => Ascii.eqb d c && startsWith s' p'
      end
  end.

(** [s.includes(sub)] *)
Fixpoint includes (s sub : string) : bool :=
  startsWith s sub ||
  match s with
  | EmptyString => false
  | String _ s' => includes s' sub
  end.

(** [s.endsWith(suffix)] *)
Fixpoint endsWith (s suffix : string) : bool :=
  String.eqb s suffix ||
  match s with
  | EmptyString => false
  | String _ s' => endsWith s' suffix
  end.

Definition lowerChar (c : ascii) : ascii :=
  let n := nat_of_ascii c in
  if ((65 <=? n)%nat && (n <=? 90)%nat)%bool then ascii_of_nat (n + 32) else c.

(** [s.toLowerCase()] *)
Fixpoint toLowerCase (s : string) : string :=
  match s with
  | EmptyString => EmptyString
  | String c s' => String (lowerChar c) (toLowerCase s')
  end.

(** Truthiness of a string: only the empty string is falsy. *)
Definition truthy (s : string) : bool :=
  match s with
  | EmptyString => false
  | String _ _ => true
  end.

(** [x || dflt] for a possibly missing string [x] *)
Definition orElse (x : option string) (dflt : string) : string :=
  match x with
  | Some s => if truthy s then s else dflt
  | None => dflt
  end.

Fixpoint dropChars (n : nat) (s : string) : string :=
  match n with
  | 0 => s
  | S n' =>
      match s with
      | EmptyString => EmptyString
      | String _ s' => dropChars n' s'
      end
  end.

(** [s.replace(/^node_modules\//, '')] *)
Definition stripNodeModules (s : string) : string :=
  if startsWith s "node_modules/" then dropChars 13 s else s.

(** [s.replace(/\.(json|lock)$/, '.json')]: the pattern is anchored at the
    end of the string, so it can only match the last five characters. *)
Fixpoint replaceLockExt (s : string) : string :=
  if String.eqb s ".json" then ".json"
  else if String.eqb s ".lock" then ".json"
  else
    match s with
    | EmptyString => EmptyString
    | String c s' => String c (replaceLockExt s')
    end.

(** [s.split('\n')] *)
Fixpoint splitLines (s : string) : list string :=
  match s with
  | EmptyString => [EmptyString]
  | String c s' =>
      if Ascii.eqb c "010"%char then EmptyString :: splitLines s'
      else
        match splitLines s' with
        | [] => [String c EmptyString]
        | l :: ls => String c l :: ls
        end
  end.

End JsString.
Import JsString.

(* ================================================================== *)
(** * The [Map] built by the lock-file parsers *)
(* ================================================================== *)

(** A JavaScript [Map] iterates in insertion order, and setting a key that
    is already present keeps its position: an association list with unique
    keys. *)

Module JsMap.

Definition t : Type := list (string * string).

Definition empty : t := [].

(** [m.set(k, v)] *)
Fixpoint set (k v : string) (m : t) : t :=
  match m with
  | [] => [(k, v)]
  | (k', v') :: m' =>
      if String.eqb k' k then (k, v) :: m' else (k', v') :: set k v m'
  end.

(** [m.get(k)] *)
Fixpoint get (k : string) (m : t) : option string :=
  match m with
  | [] => None
  | (k', v') :: m' => if String.eqb k' k then Some v' else get k m'
  end.

(** [Array.from(m.keys())] *)
Definition keys (m : t) : list string := map fst m.

(** [m.size] *)
Definition size (m : t) : nat := List.length m.

End JsMap.

(* ================================================================== *)
(** * Data exchanged with the vulnerability database *)
(* ================================================================== *)

(** Decoded bodies are taken in the shape the OSV batch endpoint gives
    them: an object with an optional [results] array, each result an object
    with an optional [vulns] array, each advisory an object whose [id],
    [details] and [summary] are strings when present. *)

(** One element of the [queries] array of a request body. *)
Record query := mkQuery {
  q_name : string;
  q_ecosystem : string;
  q_version : string
}.

(** One element of a [vulns] array.  Every field may be missing. *)
Record advisory := mkAdvisory {
  vuln_id : option string;
  vuln_details : option string;
  vuln_summary : option string
}.

(** One element of the [results] array of a response. *)
Record osvResult := mkResult {
  vulns : option (list advisory)
}.

(** A decoded response body. *)
Record osvResponse := mkResponse {
  results : option (list osvResult)
}.

(** What the transport hands back for one POST: the request emits [error],
    or the response ends with some body. *)
Inductive reply :=
| NetworkError
| Body (responseData : string).

(** [x && x.toLowerCase().includes('malicious')], as a truth value *)
Definition mentionsMalicious (x : option string) : bool :=
  match x with
  | Some s => truthy s && includes (toLowerCase s) "malicious"
  | None => false
  end.

(** The expression bound to [isMalicious] in [main], as a truth value.
    [vuln.id.startsWith] is evaluated first and unconditionally: with no
    [id] the expression throws a TypeError, here [None]. *)
Definition isMalicious (vuln : advisory) : option bool :=
  match vuln_id vuln with
  | None => None
  | Some i =>
      Some (startsWith i "MAL-"
            || mentionsMalicious (vuln_details vuln)
            || mentionsMalicious (vuln_summary vuln))
  end.

(* ================================================================== *)
(** * The disk *)
(* ================================================================== *)

(** A path is the list of its components below [process.cwd()];
    [path.join(dir, name)] appends a component, [path.dirname] drops the
    last one and [path.relative(process.cwd(), p)] is [p] itself. *)
Definition path : Type := list string.

Definition pathJoin (dir : path) (name : string) : path := dir ++ [name].

Definition dirname (p : path) : path := removelast p.

Definition basename (p : path) : string := last p "".

(** [p.endsWith(suffix)] for a suffix without separator: only the last
    component can match. *)
Definition pathEndsWith (p : path) (suffix : string) : bool :=
  match p with
  | [] => false
  | _ :: _ => endsWith (basename p) suffix
  end.

(** [p.replace(/\.(json|lock)$/, '.json')] *)
Definition pathReplaceLockExt (p : path) : path :=
  match p with
  | [] => []
  | _ :: _ => pathJoin (dirname p) (replaceLockExt (basename p))
  end.

(** What sits at a path: a file with its content, a directory with its
    entries in the order [readdirSync] lists them, or a directory that
    [readdirSync] fails to read.  Entries of other kinds (symbolic links,
    sockets) are not represented. *)
Inductive node :=
| File (content : string)
| Dir (entries : list (string * node))
| Unreadable.

(** [entry.isDirectory()] *)
Definition isDirectory (n : node) : bool :=
  match n with
  | File _ => false
  | Dir _ | Unreadable => true
  end.

Fixpoint lookupEntry (name : string) (es : list (string * node)) : option node :=
  match es with
  | [] => None
  | (k, n) :: es' => if String.eqb k name then Some n else lookupEntry name es'
  end.

Fixpoint lookup (p : path) (n : node) : option node :=
  match p with
  | [] => Some n
  | name :: p' =>
      match n with
      | Dir es =>
          match lookupEntry name es with
          | Some c => lookup p' c
          | None => None
          end
      | _ => None
      end
  end.

(** [fs.existsSync(p)] *)
Definition exists_on (d : node) (p : path) : bool :=
  match lookup p d with
  | Some _ => true
  | None => false
  end.

Fixpoint removeEntry (name : string) (es : list (string * node)) : list (string * node) :=
  match es with
  | [] => []
  | (k, n) :: es' =>
      if String.eqb k name then es' else (k, n) :: removeEntry name es'
  end.

(** The disk once the entry at [p] is gone. *)
Fixpoint remove (p : path) (n : node) : node :=
  match p with
  | [] => n
  | [name] =>
      match n with
      | Dir es => Dir (removeEntry name es)
      | _ => n
      end
  | name :: p' =>
      match n with
      | Dir es =>
          Dir (map (fun kn => if String.eqb (fst kn) name
                              then (fst kn, remove p' (snd kn)) else kn) es)
      | _ => n
      end
  end.

(* ================================================================== *)
(** * findPackageJsonFiles *)
(* ================================================================== *)

(** The test that makes the walk [continue] past an entry. *)
Definition skipped (name : string) : bool :=
  String.eqb name "node_modules" || startsWith name ".".

(** [findPackageJsonFiles(dir, files)], with [n] what the disk holds at
    [dir].  [files] is the array the recursive calls share; [None] is the
    exception of a failing [readdirSync]. *)
Fixpoint findPackageJsonFiles (dir : path) (n : node) (files : list path)
  {struct n} : option (list path) :=
  match n with
  | Dir entries =>
      (fix loop (es : list (string * node)) (files : list path)
         {struct es} : option (list path) :=
         match es with
         | [] => Some files
         | (name, entry) :: es' =>
             let fullPath := pathJoin dir name in
             if skipped name then loop es' files
             else if isDirectory entry then
               match findPackageJsonFiles fullPath entry files with
               | Some files' => loop es' files'
               | None => None
               end
             else if String.eqb name "package.json" then
               loop es' (files ++ [fullPath])
             else loop es' files
         end) entries files
  | File _ | Unreadable => None
  end.

(** The walk as the specification words it: the files named
    [package.json] below a directory, depth first in directory-entry
    order, leaving out every subtree rooted at a directory named
    [node_modules] or whose name begins with a dot. *)
Fixpoint manifestsUnder (dir : path) (n : node) {struct n} : list path :=
  match n with
  | Dir entries =>
      flat_map
        (fun kn =>
           match kn with
           | (name, entry) =>
               if isDirectory entry then
                 if String.eqb name "node_modules" || startsWith name "."
                 then [] else manifestsUnder (pathJoin dir name) entry
               else if String.eqb name "package.json"
                    then [pathJoin dir name] else []
           end) entries
  | File _ | Unreadable => []
  end.

(** Every directory the walk enters can be read. *)
Fixpoint readable (n : node) : bool :=
  match n with
  | File _ => true
  | Unreadable => false
  | Dir entries =>
      forallb (fun kn => skipped (fst kn) || readable (snd kn)) entries
  end.

(* ================================================================== *)
(** * Lock files *)
(* ================================================================== *)

(** A decoded package-lock.json is taken in the shape npm writes it:
    the values of [dependencies] and [packages] are objects, and a
    [version] is a string when present. *)

(** A node of the [dependencies] tree of a package-lock.json (lockfile
    versions 1 and 2): an optional [version] and optional nested
    [dependencies], listed as [Object.entries] lists them. *)
Inductive depInfo :=
| DepInfo (version : option string)
          (dependencies : option (list (string * depInfo))).

Definition dep_version (info : depInfo) : option string :=
  match info with DepInfo v _ => v end.

Definition dep_dependencies (info : depInfo) : option (list (string * depInfo)) :=
  match info with DepInfo _ d => d end.

(** A value of the [packages] object (lockfile version 3). *)
Record pkgInfo := mkPkgInfo {
  pkg_version : option string
}.

(** A decoded package-lock.json. *)
Record lockData := mkLockData {
  lock_dependencies : option (list (string * depInfo));
  lock_packages : option (list (string * pkgInfo))
}.

(** [if (info.dependencies) extractDeps(info.dependencies)], with the
    loop of [extractDeps] as the inner fixpoint. *)
Fixpoint extractNested (info : depInfo) (deps : JsMap.t) {struct info} : JsMap.t :=
  match info with
  | DepInfo _ None => deps
  | DepInfo _ (Some dependencies) =>
      (fix loop (l : list (string * depInfo)) (deps : JsMap.t)
         {struct l} : JsMap.t :=
         match l with
         | [] => deps
         | (name, info') :: rest =>
             loop rest
               (extractNested info'
                  (JsMap.set name (orElse (dep_version info') "unknown") deps))
         end) dependencies deps
  end.

(** [extractDeps(dependencies)], acting on the map [deps] of the enclosing
    [parsePackageLock]. *)
Definition extractDeps (dependencies : list (string * depInfo)) (deps : JsMap.t)
  : JsMap.t :=
  extractNested (DepInfo None (Some dependencies)) deps.

(** The body of the loop over [Object.entries(lockData.packages)]. *)
Definition recordPackage (deps : JsMap.t) (entry : string * pkgInfo) : JsMap.t :=
  let (key, info) := entry in
  if truthy key then
    let name := stripNodeModules key in
    if truthy name && negb (includes name "node_modules") then
      JsMap.set name (orElse (pkg_version info) "unknown") deps
    else deps
  else deps.

(** What [parsePackageLock] does with the decoded lock file. *)
Definition collectDeps (data : lockData) : JsMap.t :=
  let deps := JsMap.empty in
  let deps :=
    match lock_dependencies data with
    | Some dependencies => extractDeps dependencies deps
    | None => deps
    end in
  match lock_packages data with
  | Some packages => fold_left recordPackage packages deps
  | None => deps
  end.

(* ================================================================== *)
(** * The world of a run *)
(* ================================================================== *)

(** What the scan pushes on [vulnerabilities]: [package] and [version] are
    [undefined] when the result slot has no package at its index. *)
Record vulnerability := mkVulnerability {
  v_package : option string;
  v_version : option string;
  v_id : option string;
  v_summary : string
}.

(** What the scan pushes on [allFindings]. *)
Record finding := mkFinding {
  f_file : path;
  f_vuln : vulnerability
}.

(** The two commands handed to [execSync]:
    [npm install --package-lock-only --ignore-scripts] and
    [yarn install --mode skip-build]. *)
Inductive command := NpmInstall | YarnInstall.

(** What a run does to its surroundings, in order of occurrence. *)
Inductive event :=
| Exec (c : command) (cwd : path) (ok : bool)
| Post (batch : list query) (r : reply)
| Unlinked (p : path)
| Reported (f : finding)
| FatalError.

Record world := mkWorld {
  disk : node;
  trace : list event
}.

(** What is not the scanner's own code: the package managers, the
    transport, and the built-in JSON and regular-expression engines.
    - [spawn c cwd d]: whether the command exits with status zero, and the
      disk it leaves behind;
    - [transport t batch]: the reply to a POST of [batch] after the events
      [t];
    - [JSON_parse_lock], [JSON_parse_response]: [JSON.parse], [None] being
      a SyntaxError;
    - [packageMatch line]: group 1 of [line.match(/^"?(@?[^@\s]+)@[^"]*"?:$/)];
    - [versionMatch line]: group 1 of [line.match(/version\s+"([^"]+)"/)]. *)
Class Externals := {
  spawn : command -> path -> node -> bool * node;
  transport : list event -> list query -> reply;
  JSON_parse_lock : string -> option lockData;
  JSON_parse_response : string -> option osvResponse;
  packageMatch : string -> option string;
  versionMatch : string -> option string
}.

Inductive exn :=
| FsError
| ExecError
| SyntaxError
| TypeError
| RequestError.

(** How a piece of the program ends: with a value, with an exception, or
    in [process.exit]. *)
Inductive outcome (A : Type) :=
| Ret (a : A)
| Throw (e : exn)
| Exit (code : Z).

Arguments Ret {A} a.
Arguments Throw {A} e.
Arguments Exit {A} code.

Definition M (A : Type) : Type := world -> outcome A * world.

Definition ret {A} (a : A) : M A := fun w => (Ret a, w).

Definition bind {A B} (m : M A) (f : A -> M B) : M B :=
  fun w =>
    match m w with
    | (Ret a, w') => f a w'
    | (Throw e, w') => (Throw e, w')
    | (Exit c, w') => (Exit c, w')
    end.

Definition throw {A} (e : exn) : M A := fun w => (Throw e, w).

Definition exit {A} (code : Z) : M A := fun w => (Exit code, w).

(** [try { m } catch (e) { h e }] *)
Definition tryCatch {A} (m : M A) (h : exn -> M A) : M A :=
  fun w =>
    match m w with
    | (Throw e, w') => h e w'
    | other => other
    end.

Definition emit (e : event) : M unit :=
  fun w => (Ret tt, mkWorld (disk w) (trace w ++ [e])).

Declare Scope js_scope.
Delimit Scope js_scope with js.
Notation "x <- m ;; k" := (bind m (fun x => k))
  (at level 61, m at next level, right associativity) : js_scope.
Notation "m ;; k" := (bind m (fun _ => k))
  (at level 61, right associativity) : js_scope.
Local Open Scope js_scope.

(** [fs.existsSync(p)] *)
Definition existsSync (p : path) : M bool :=
  fun w => (Ret (exists_on (disk w) p), w).

(** [fs.readFileSync(p, 'utf8')] *)
Definition readFileSync (p : path) : M string :=
  fun w =>
    match lookup p (disk w) with
    | Some (File content) => (Ret content, w)
    | _ => (Throw FsError, w)
    end.

(** [fs.unlinkSync(p)] *)
Definition unlinkSync (p : path) : M unit :=
  fun w =>
    match lookup p (disk w) with
    | Some (File _) =>
        (Ret tt, mkWorld (remove p (disk w)) (trace w ++ [Unlinked p]))
    | _ => (Throw FsError, w)
    end.

Section Program.

Context {X : Externals}.

(** [execSync(c, { cwd, stdio: 'pipe' })] *)
Definition execSync (c : command) (cwd : path) : M unit :=
  fun w =>
    let (ok, d) := spawn c cwd (disk w) in
    let w' := mkWorld d (trace w ++ [Exec c cwd ok]) in
    if ok then (Ret tt, w') else (Throw ExecError, w').

(** The promise awaited in [queryOSV]: one POST of [{ queries: batch }],
    rejected on a request error or when the body does not decode. *)
Definition post (batch : list query) : M osvResponse :=
  fun w =>
    let r := transport (trace w) batch in
    let w' := mkWorld (disk w) (trace w ++ [Post batch r]) in
    match r with
    | NetworkError => (Throw RequestError, w')
    | Body responseData =>
        match JSON_parse_response responseData with
        | Some parsed => (Ret parsed, w')
        | None => (Throw SyntaxError, w')
        end
    end.

(* ---------------------------------------------------------------- *)
(** ** generateLockFile *)

(** A [try] block of [generateLockFile] yields [Some p] when it returns
    [p] and [None] when control falls out of it, towards the final
    [return null]. *)
Definition generateLockFile (packageJsonPath : path) : M (option path) :=
  let dir := dirname packageJsonPath in
  let packageLockPath := pathJoin dir "package-lock.json" in
  let yarnLockPath := pathJoin dir "yarn.lock" in
  hasPackageLock <- existsSync packageLockPath ;;
  hasYarnLock <- existsSync yarnLockPath ;;
  if hasPackageLock || hasYarnLock then
    again <- existsSync packageLockPath ;;
    ret (Some (if again then packageLockPath else yarnLockPath))
  else
    tryCatch
      (execSync NpmInstall dir ;;
       made <- existsSync packageLockPath ;;
       if made then ret (Some packageLockPath) else ret None)
      (fun _ =>
         tryCatch
           (execSync YarnInstall dir ;;
            made <- existsSync yarnLockPath ;;
            if made then ret (Some yarnLockPath) else ret None)
           (fun _ => ret None)).

(* ---------------------------------------------------------------- *)
(** ** parsePackageLock and parseYarnLock *)

Definition parsePackageLock (lockPath : path) : M JsMap.t :=
  content <- readFileSync lockPath ;;
  match JSON_parse_lock content with
  | Some data => ret (collectDeps data)
  | None => throw SyntaxError
  end.

(** The loop over the lines of a yarn.lock. *)
Fixpoint scanYarnLines (lines : list string) (currentPackage : option string)
  (deps : JsMap.t) : JsMap.t :=
  match lines with
  | [] => deps
  | line :: rest =>
      match packageMatch line with
      | Some name => scanYarnLines rest (Some name) deps
      | None =>
          match currentPackage with
          | Some current =>
              if truthy current && includes line "version" then
                match versionMatch line with
                | Some v => scanYarnLines rest None (JsMap.set current v deps)
                | None => scanYarnLines rest currentPackage deps
                end
              else scanYarnLines rest currentPackage deps
          | None => scanYarnLines rest currentPackage deps
          end
      end
  end.

Definition parseYarnLock (lockPath : path) : M JsMap.t :=
  content <- readFileSync lockPath ;;
  ret (scanYarnLines (splitLines content) None JsMap.empty).

(* ---------------------------------------------------------------- *)
(** ** queryOSV *)

Definition batchSize : nat := 1000.

(** [a.slice(i, j)] for [i <= j] *)
Definition slice {A} (i j : nat) (a : list A) : list A :=
  firstn (j - i) (skipn i a).

Definition toQuery (entry : string * string) : query :=
  mkQuery (fst entry) "npm" (snd entry).

(** [result.results || []] *)
Definition resultsOf (result : osvResponse) : list osvResult :=
  match results result with
  | Some rs => rs
  | None => []
  end.

(** The loop [for (let i = 0; i < queries.length; i += batchSize)].  Each
    turn moves [i] forward by [batchSize], so [fuel] turns are enough when
    [queries] has at most [fuel * batchSize] entries left. *)
Fixpoint queryLoop (fuel : nat) (queries : list query) (i : nat)
  (acc : list osvResult) : M (list osvResult) :=
  if i <? List.length queries then
    match fuel with
    | 0 => ret acc
    | S fuel' =>
        let batch := slice i (i + batchSize) queries in
        result <- post batch ;;
        queryLoop fuel' queries (i + batchSize) (acc ++ resultsOf result)
    end
  else ret acc.

Definition queryOSV (packages : JsMap.t) : M (list osvResult) :=
  let queries := map toQuery packages in
  queryLoop (List.length queries) queries 0 [].

(* ---------------------------------------------------------------- *)
(** ** main *)

(** The variables [main] declares before its loop. *)
Record locals := mkLocals {
  hasVulnerabilities : bool;
  allFindings : list finding;
  tempLockFiles : list path
}.

(** "Find or generate lock file": the lock file to use, [None] for
    [null], and [tempLockFiles] after the block. *)
Definition findOrGenerateLock (packageJsonPath : path) (temp : list path)
  : M (option path * list path) :=
  let dir := dirname packageJsonPath in
  let lockFile := pathJoin dir "package-lock.json" in
  found <- existsSync lockFile ;;
  if found then ret (Some lockFile, temp)
  else
    let lockFile := pathJoin dir "yarn.lock" in
    found <- existsSync lockFile ;;
    if found then ret (Some lockFile, temp)
    else
      lockFile <- generateLockFile packageJsonPath ;;
      match lockFile with
      | Some p =>
          twin <- existsSync (pathReplaceLockExt p) ;;
          if negb twin then ret (Some p, temp ++ [p])
          else ret (Some p, temp)
      | None => ret (None, temp)
      end.

(** "Parse dependencies": [None] when the [catch] makes the loop
    [continue]. *)
Definition parseDependencies (lockFile : path) : M (option JsMap.t) :=
  tryCatch
    (dependencies <-
       (if pathEndsWith lockFile "package-lock.json"
        then parsePackageLock lockFile
        else parseYarnLock lockFile) ;;
     ret (Some dependencies))
    (fun _ => ret None).

(** [dependencies.get(packageName)] *)
Definition versionOf (dependencies : JsMap.t) (packageName : option string)
  : option string :=
  match packageName with
  | Some name => JsMap.get name dependencies
  | None => None
  end.

(** The loop [for (const vuln of results[i].vulns)].  The state is
    [vulnerabilities] and [hasVulnerabilities]; [None] is the TypeError of
    [isMalicious]. *)
Fixpoint scanVulns (packageName : option string) (dependencies : JsMap.t)
  (vs : list advisory) (st : list vulnerability * bool)
  : option (list vulnerability * bool) :=
  match vs with
  | [] => Some st
  | vuln :: rest =>
      match isMalicious vuln with
      | None => None
      | Some true =>
          scanVulns packageName dependencies rest
            (fst st ++
               [mkVulnerability packageName
                  (versionOf dependencies packageName)
                  (vuln_id vuln)
                  (orElse (vuln_summary vuln) "Malicious package detected")],
             true)
      | Some false => scanVulns packageName dependencies rest st
      end
  end.

(** The loop [for (let i = 0; i < results.length; i++)], with [rs] the
    slots from index [i] on. *)
Fixpoint scanResults (packagesArray : list string) (dependencies : JsMap.t)
  (i : nat) (rs : list osvResult) (st : list vulnerability * bool)
  : option (list vulnerability * bool) :=
  match rs with
  | [] => Some st
  | r :: rest =>
      match vulns r with
      | Some vs =>
          if 0 <? List.length vs then
            match scanVulns (nth_error packagesArray i) dependencies vs st with
            | Some st' => scanResults packagesArray dependencies (S i) rest st'
            | None => None
            end
          else scanResults packagesArray dependencies (S i) rest st
      | None => scanResults packagesArray dependencies (S i) rest st
      end
  end.

(** One turn of the loop over [packageJsonFiles]. *)
Definition processManifest (packageJsonPath : path) (st : locals) : M locals :=
  let relativePath := packageJsonPath in
  found <- findOrGenerateLock packageJsonPath (tempLockFiles st) ;;
  let st := mkLocals (hasVulnerabilities st) (allFindings st) (snd found) in
  match fst found with
  | None => ret st
  | Some lockFile =>
      parsed <- parseDependencies lockFile ;;
      match parsed with
      | None => ret st
      | Some dependencies =>
          if JsMap.size dependencies =? 0 then ret st
          else
            results <- queryOSV dependencies ;;
            match scanResults (JsMap.keys dependencies) dependencies 0 results
                    ([], hasVulnerabilities st) with
            | None => throw TypeError
            | Some (vulnerabilities, has) =>
                ret (mkLocals has
                       (allFindings st ++
                          map (mkFinding relativePath) vulnerabilities)
                       (tempLockFiles st))
            end
      end
  end.

Fixpoint forEachManifest (packageJsonFiles : list path) (st : locals) : M locals :=
  match packageJsonFiles with
  | [] => ret st
  | packageJsonPath :: rest =>
      st' <- processManifest packageJsonPath st ;;
      forEachManifest rest st'
  end.

(** "Cleanup temporary lock files" *)
Fixpoint cleanup (temp : list path) : M unit :=
  match temp with
  | [] => ret tt
  | lockFile :: rest =>
      tryCatch (unlinkSync lockFile) (fun _ => ret tt) ;;
      cleanup rest
  end.

(** The findings printed by the final report. *)
Fixpoint report (findings : list finding) : M unit :=
  match findings with
  | [] => ret tt
  | f :: rest => emit (Reported f) ;; report rest
  end.

(** [findPackageJsonFiles(process.cwd())] *)
Definition discover : M (list path) :=
  fun w =>
    match findPackageJsonFiles [] (disk w) [] with
    | Some files => (Ret files, w)
    | None => (Throw FsError, w)
    end.

Definition initialLocals : locals := mkLocals false [] [].

(** The body of [main]. *)
Definition mainBody : M unit :=
  packageJsonFiles <- discover ;;
  if List.length packageJsonFiles =? 0 then exit 0%Z
  else
    st <- forEachManifest packageJsonFiles initialLocals ;;
    cleanup (tempLockFiles st) ;;
    if hasVulnerabilities st then
      report (allFindings st) ;;
      exit 1%Z
    else exit 0%Z.

(** [main().catch(err => { console.error(...); process.exit(1) })]: the
    exit code of the process and the world it leaves. *)
Definition main (w : world) : Z * world :=
  match mainBody w with
  | (Exit code, w') => (code, w')
  | (Throw _, w') => (1%Z, mkWorld (disk w') (trace w' ++ [FatalError]))
  | (Ret _, w') => (0%Z, w')
  end.

End Program.

(* ================================================================== *)
(** * Properties of the string operations *)
(* ================================================================== *)

Section StringFacts.

Local Notation "a +++ b" := (String.append a b)
  (at level 60, right associativity).

Lemma startsWith_spec (s p : string) :
  startsWith s p = true <-> exists rest, s = p +++ rest.
Proof.
  revert s; induction p as [|c p IH]; intros s; simpl.
  - split; [intros _; exists s; reflexivity | intros _; reflexivity].
  - destruct s as [|d s].
    + split; [discriminate | intros [rest H]; discriminate].
    + rewrite andb_true_iff, Ascii.eqb_eq, IH. split.
      * intros [-> [rest ->]]. exists rest. reflexivity.
      * intros [rest H]. injection H as -> ->. split; [reflexivity | eauto].
Qed.

Lemma includes_spec (s sub : string) :
  includes s sub = true <-> exists pre post, s = pre +++ sub +++ post.
Proof.
  induction s as [|c s IH]; simpl.
  - rewrite orb_false_r, startsWith_spec. split.
    + intros [rest H]. exists EmptyString, rest. exact H.
    + intros [pre [post H]]. destruct pre; [|discriminate].
      exists post. exact H.
  - rewrite orb_true_iff, startsWith_spec, IH. split.
    + intros [[rest H] | [pre [post H]]].
      * exists EmptyString, rest. exact H.
      * exists (String c pre), post. simpl. rewrite H. reflexivity.
    + intros [pre [post H]]. destruct pre as [|d pre]; simpl in H.
      * left. exists post. exact H.
      * right. injection H as _ H. exists pre, post. exact H.
Qed.

Lemma toLowerCase_append (a b : string) :
  toLowerCase (a +++ b) = toLowerCase a +++ toLowerCase b.
Proof.
  induction a as [|c a IH]; simpl; [reflexivity | rewrite IH; reflexivity].
Qed.

Lemma toLowerCase_split (s a b : string) :
  toLowerCase s = a +++ b ->
  exists a' b', s = a' +++ b' /\ toLowerCase a' = a /\ toLowerCase b' = b.
Proof.
  revert s; induction a as [|c a IH]; intros s H; simpl in H.
  - exists EmptyString, s. repeat split. exact H.
  - destruct s as [|d s]; simpl in H; [discriminate|].
    injection H as Hc H. destruct (IH _ H) as [a' [b' [-> [Ha Hb]]]].
    exists (String d a'), b'. simpl. rewrite Hc, Ha. repeat split. exact Hb.
Qed.

Lemma includes_nonempty (s sub : string) :
  includes s sub = true -> truthy sub = true -> truthy s = true.
Proof.
  destruct s; simpl; [|reflexivity].
  destruct sub; simpl; [intros _ H; exact H | discriminate].
Qed.

End StringFacts.

(* ================================================================== *)
(** * Classification of advisories *)
(* ================================================================== *)

(** [s] begins with [p]. *)
Definition hasPrefix (s p : string) : Prop :=
  exists rest, s = String.append p rest.

(** Some substring of [s] is [word] up to the case of its letters. *)
Definition containsIgnoringCase (s word : string) : Prop :=
  exists pre mid post,
    s = String.append pre (String.append mid post) /\
    toLowerCase mid = toLowerCase word.

(** A field that is present and contains [word] up to case. *)
Definition fieldContains (x : option string) (word : string) : Prop :=
  exists s, x = Some s /\ containsIgnoringCase s word.

Lemma includes_lower_spec (s word : string) :
  includes (toLowerCase s) (toLowerCase word) = true <->
  containsIgnoringCase s word.
Proof.
  rewrite includes_spec. split.
  - intros [pre [post H]].
    destruct (toLowerCase_split _ _ _ H) as [pre' [r [-> [_ Hr]]]].
    destruct (toLowerCase_split _ _ _ Hr) as [mid [post' [-> [Hm _]]]].
    exists pre', mid, post'. split; [reflexivity | exact Hm].
  - intros [pre [mid [post [-> Hm]]]].
    exists (toLowerCase pre), (toLowerCase post).
    rewrite !toLowerCase_append, Hm. reflexivity.
Qed.

Lemma mentionsMalicious_spec (x : option string) :
  mentionsMalicious x = true <-> fieldContains x "malicious".
Proof.
  unfold mentionsMalicious, fieldContains. destruct x as [s|].
  - change "malicious" with (toLowerCase "malicious") at 1.
    split.
    + intros H. apply andb_true_iff in H. destruct H as [_ H].
      exists s. split; [reflexivity | now apply includes_lower_spec].
    + intros [s' [E H]]. injection E as <-.
      apply includes_lower_spec in H. rewrite H, andb_true_r.
      pose proof (includes_nonempty _ _ H eq_refl) as T.
      destruct s; [discriminate T | reflexivity].
  - split; [discriminate | intros [s [E _]]; discriminate].
Qed.

(** C3. An advisory whose id is the string [i] is classified malicious
    exactly when [i] starts with "MAL-", or its details are present and
    contain "malicious" up to case, or its summary is present and
    contains "malicious" up to case.  The three advisories of the
    specification are classified malicious, malicious and not
    malicious. *)
Theorem isMalicious_iff :
  (forall (i : string) (details summary : option string),
      isMalicious (mkAdvisory (Some i) details summary) = Some true <->
      hasPrefix i "MAL-" \/
      fieldContains details "malicious" \/
      fieldContains summary "malicious") /\
  isMalicious (mkAdvisory (Some "MAL-2024-1234") None None) = Some true /\
  isMalicious (mkAdvisory (Some "MAL-2024-1234") (Some "") (Some ""))
    = Some true /\
  isMalicious (mkAdvisory (Some "GHSA-xxxx") None
                 (Some "Contains Malicious code")) = Some true /\
  isMalicious (mkAdvisory (Some "GHSA-yyyy") None
                 (Some "Denial of service")) = Some false.
Proof.
  split; [|repeat split; reflexivity].
  intros i details summary. unfold isMalicious; simpl vuln_id.
  cbv beta iota. unfold vuln_details, vuln_summary.
  rewrite <- !mentionsMalicious_spec.
  unfold hasPrefix. rewrite <- startsWith_spec.
  split.
  - intros H. injection H as H.
    apply orb_true_iff in H. destruct H as [H|H]; [|right; right; exact H].
    apply orb_true_iff in H. destruct H as [H|H]; [left | right; left]; exact H.
  - intros [H | [H | H]]; rewrite H; rewrite ?orb_true_r; reflexivity.
Qed.

(** C10. Classification reads the id of the advisory first and
    unconditionally: it yields a verdict for every advisory whose id is a
    string, whatever its other fields, and it fails exactly on the
    advisories that have no id. *)
Theorem isMalicious_needs_id :
  (forall (i : string) (details summary : option string),
      exists verdict,
        isMalicious (mkAdvisory (Some i) details summary) = Some verdict) /\
  (forall vuln : advisory, isMalicious vuln = None <-> vuln_id vuln = None).
Proof.
  split.
  - intros i details summary. unfold isMalicious. simpl. eauto.
  - intros [[i|] d s]; unfold isMalicious; simpl; split;
      intros H; try discriminate; reflexivity.
Qed.

(* ================================================================== *)
(** * The walk over the project tree *)
(* ================================================================== *)

Section NodeInduction.

Variable P : node -> Prop.
Hypothesis P_file : forall content, P (File content).
Hypothesis P_unreadable : P Unreadable.
Hypothesis P_dir :
  forall entries, Forall (fun kn => P (snd kn)) entries -> P (Dir entries).

Fixpoint node_induction (n : node) : P n :=
  match n with
  | File content => P_file content
  | Unreadable => P_unreadable
  | Dir entries =>
      P_dir
        ((fix all (es : list (string * node))
            : Forall (fun kn => P (snd kn)) es :=
            match es with
            | [] => Forall_nil _
            | kn :: es' => Forall_cons kn (node_induction (snd kn)) (all es')
            end) entries)
  end.

End NodeInduction.

(** [p] leads from the directory [n] to a file, through directories
    only. *)
Inductive fileAt : node -> path -> Prop :=
| fileAt_here entries name content :
    In (name, File content) entries ->
    fileAt (Dir entries) [name]
| fileAt_below entries name sub p :
    In (name, sub) entries ->
    isDirectory sub = true ->
    fileAt sub p ->
    fileAt (Dir entries) (name :: p).

#[local] Arguments startsWith : simpl never.

Lemma findPackageJsonFiles_manifestsUnder (n : node) :
  forall dir files,
    isDirectory n = true ->
    readable n = true ->
    findPackageJsonFiles dir n files = Some (files ++ manifestsUnder dir n).
Proof.
  induction n as [content| |entries IH] using node_induction;
    intros dir files Hd Hr; try discriminate.
  simpl in Hr. simpl. clear Hd.
  revert files. induction entries as [|[name entry] es IHes]; intros files.
  - simpl. rewrite app_nil_r. reflexivity.
  - simpl in Hr. apply andb_true_iff in Hr. destruct Hr as [Hr1 Hr].
    inversion IH as [|? ? IHentry IHrest]; subst. simpl in IHentry.
    specialize (IHes IHrest Hr).
    cbn [flat_map]. fold (skipped name).
    destruct (skipped name) eqn:Hs.
    all: cbn [app].
    + rewrite IHes.
      destruct (isDirectory entry); [reflexivity|].
      destruct (String.eqb name "package.json") eqn:Hn; [|reflexivity].
      apply String.eqb_eq in Hn. subst name. discriminate Hs.
    + simpl in Hr1. destruct (isDirectory entry) eqn:He.
      * rewrite (IHentry _ _ eq_refl Hr1). rewrite IHes.
        rewrite app_assoc. reflexivity.
      * destruct (String.eqb name "package.json").
        -- rewrite IHes. rewrite <- app_assoc. reflexivity.
        -- rewrite IHes. reflexivity.
Qed.

Lemma manifestsUnder_member (n : node) :
  forall dir q,
    In q (manifestsUnder dir n) <->
    exists p,
      q = dir ++ p /\ fileAt n p /\ basename p = "package.json" /\
      Forall (fun name => skipped name = false) (dirname p).
Proof.
  induction n as [content| |entries IH] using node_induction; intros dir q.
  - simpl. split; [tauto | intros [p [_ [H _]]]; inversion H].
  - simpl. split; [tauto | intros [p [_ [H _]]]; inversion H].
  - simpl manifestsUnder. rewrite in_flat_map. split.
    + intros [[name entry] [Hin Hq]].
      rewrite Forall_forall in IH. specialize (IH _ Hin). simpl in IH.
      destruct (isDirectory entry) eqn:He.
      * fold (skipped name) in Hq. destruct (skipped name) eqn:Hs; [destruct Hq|].
        apply IH in Hq. destruct Hq as [p [-> [Hf [Hb Hall]]]].
        exists (name :: p). unfold pathJoin. rewrite <- app_assoc.
        split; [reflexivity|]. split; [eapply fileAt_below; eauto|].
        assert (p <> []) by (intros ->; inversion Hf).
        destruct p as [|x p]; [congruence|]. split.
        -- exact Hb.
        -- unfold dirname in *. simpl. simpl in Hall. constructor; assumption.
      * destruct (String.eqb name "package.json") eqn:Hn; [|destruct Hq].
        destruct Hq as [<-|[]]. apply String.eqb_eq in Hn. subst name.
        exists ["package.json"]. split; [reflexivity|].
        destruct entry; try discriminate.
        split; [eapply fileAt_here; eauto|]. split; [reflexivity|].
        constructor.
    + intros [p [-> [Hf [Hb Hall]]]].
      inversion Hf as [es name content Hin|es name sub p' Hin Hd Hf']; subst.
      * exists (name, File content). split; [exact Hin|].
        unfold basename in Hb. simpl in Hb. subst name.
        simpl. left. reflexivity.
      * exists (name, sub). split; [exact Hin|].
        rewrite Hd. fold (skipped name).
        assert (p' <> []) by (intros ->; inversion Hf').
        destruct p' as [|x p']; [congruence|].
        unfold dirname in Hall. simpl in Hall. inversion Hall; subst.
        match goal with H : skipped name = false |- _ => rewrite H end.
        rewrite Forall_forall in IH. specialize (IH _ Hin). simpl in IH.
        apply IH. exists (x :: p'). unfold pathJoin. rewrite <- app_assoc.
        split; [reflexivity|]. split; [exact Hf'|]. split; [exact Hb|].
        assumption.
Qed.

(** C8. When every directory the walk enters can be read, the walk of a
    project tree returns the files named package.json below the root,
    depth first in directory-entry order, without the subtrees rooted at a
    directory named node_modules or at a directory whose name begins with a
    dot.  A path is returned exactly when it leads to a file named
    package.json through directories none of which is so named, at any
    depth. *)
Theorem findPackageJsonFiles_spec (entries : list (string * node)) :
  readable (Dir entries) = true ->
  findPackageJsonFiles [] (Dir entries) [] =
    Some (manifestsUnder [] (Dir entries)) /\
  (forall p,
      In p (manifestsUnder [] (Dir entries)) <->
      fileAt (Dir entries) p /\ basename p = "package.json" /\
      Forall (fun name => skipped name = false) (dirname p)).
Proof.
  intros Hr. split.
  - apply (findPackageJsonFiles_manifestsUnder (Dir entries) [] [] eq_refl Hr).
  - intros p. rewrite manifestsUnder_member. split.
    + intros [p' [-> H]]. exact H.
    + intros H. exists p. split; [reflexivity | exact H].
Qed.

(* ================================================================== *)
(** * The dependency map of a package-lock.json *)
(* ================================================================== *)

Section DepInfoInduction.

Variable P : depInfo -> Prop.
Hypothesis P_leaf : forall version, P (DepInfo version None).
Hypothesis P_nested :
  forall version dependencies,
    Forall (fun kn => P (snd kn)) dependencies ->
    P (DepInfo version (Some dependencies)).

Fixpoint depInfo_induction (info : depInfo) : P info :=
  match info with
  | DepInfo version None => P_leaf version
  | DepInfo version (Some dependencies) =>
      P_nested version
        ((fix all (l : list (string * depInfo))
            : Forall (fun kn => P (snd kn)) l :=
            match l with
            | [] => Forall_nil _
            | kn :: l' => Forall_cons kn (depInfo_induction (snd kn)) (all l')
            end) dependencies)
  end.

End DepInfoInduction.

(** The nodes below [info], each with its name and its [version] field,
    in the order [extractDeps] meets them. *)
Fixpoint nestedVisits (info : depInfo) : list (string * option string) :=
  match info with
  | DepInfo _ None => []
  | DepInfo _ (Some dependencies) =>
      flat_map
        (fun kn =>
           match kn with
           | (name, info') => (name, dep_version info') :: nestedVisits info'
           end) dependencies
  end.

Definition treeVisits (dependencies : list (string * depInfo))
  : list (string * option string) :=
  nestedVisits (DepInfo None (Some dependencies)).

(** The test under which the loop over [lockData.packages] keeps an
    entry: a non-empty key whose name, once a leading [node_modules/] is
    removed, is non-empty and free of [node_modules]. *)
Definition retained (key : string) : bool :=
  truthy key &&
  (truthy (stripNodeModules key) &&
   negb (includes (stripNodeModules key) "node_modules")).

Definition packageVisits (packages : list (string * pkgInfo))
  : list (string * option string) :=
  flat_map
    (fun entry =>
       if retained (fst entry)
       then [(stripNodeModules (fst entry), pkg_version (snd entry))]
       else []) packages.

(** Every node [parsePackageLock] records, in the order it records them:
    the nodes of the [dependencies] tree at every depth, then the retained
    entries of [packages]. *)
Definition visitOrder (data : lockData) : list (string * option string) :=
  match lock_dependencies data with
  | Some dependencies => treeVisits dependencies
  | None => []
  end ++
  match lock_packages data with
  | Some packages => packageVisits packages
  | None => []
  end.

(** [deps.set(name, info.version || 'unknown')] *)
Definition record (deps : JsMap.t) (visit : string * option string) : JsMap.t :=
  JsMap.set (fst visit) (orElse (snd visit) "unknown") deps.

Lemma get_set (k k' v : string) (m : JsMap.t) :
  JsMap.get k (JsMap.set k' v m) =
  if String.eqb k' k then Some v else JsMap.get k m.
Proof.
  induction m as [|[a b] m IH]; simpl.
  - reflexivity.
  - destruct (String.eqb a k') eqn:Hak; simpl.
    + apply String.eqb_eq in Hak. subst a.
      destruct (String.eqb k' k); reflexivity.
    + rewrite IH. destruct (String.eqb a k) eqn:Ha; [|reflexivity].
      apply String.eqb_eq in Ha. subst a.
      rewrite String.eqb_sym in Hak. rewrite Hak. reflexivity.
Qed.

Lemma keys_get (k : string) (m : JsMap.t) :
  In k (JsMap.keys m) <-> JsMap.get k m <> None.
Proof.
  induction m as [|[a b] m IH]; simpl.
  - split; [tauto | congruence].
  - destruct (String.eqb a k) eqn:Ha.
    + apply String.eqb_eq in Ha. split; [congruence | auto].
    + apply String.eqb_neq in Ha. rewrite <- IH. tauto.
Qed.

Lemma extractDeps_cons name info rest deps :
  extractDeps ((name, info) :: rest) deps =
  extractDeps rest
    (extractNested info
       (JsMap.set name (orElse (dep_version info) "unknown") deps)).
Proof. reflexivity. Qed.

Lemma extractNested_unfold info deps :
  extractNested info deps =
  match dep_dependencies info with
  | Some dependencies => extractDeps dependencies deps
  | None => deps
  end.
Proof. destruct info as [v [l|]]; reflexivity. Qed.

Lemma extractNested_visits (info : depInfo) :
  forall deps, extractNested info deps = fold_left record (nestedVisits info) deps.
Proof.
  induction info as [v|v l IH] using depInfo_induction; intros deps.
  - reflexivity.
  - change (extractNested (DepInfo v (Some l)) deps) with (extractDeps l deps).
    simpl nestedVisits. revert deps.
    induction l as [|[name info] rest IHl]; intros deps.
    + reflexivity.
    + inversion IH as [|? ? Hinfo Hrest]; subst. simpl in Hinfo.
      rewrite extractDeps_cons, (IHl Hrest), Hinfo.
      cbn [flat_map]. rewrite fold_left_app. reflexivity.
Qed.

Lemma recordPackage_visits packages :
  forall deps,
    fold_left recordPackage packages deps =
    fold_left record (packageVisits packages) deps.
Proof.
  induction packages as [|[key info] rest IH]; intros deps.
  - reflexivity.
  - unfold packageVisits. cbn [flat_map fold_left]. rewrite fold_left_app.
    fold (packageVisits rest). rewrite IH. f_equal.
    unfold recordPackage, retained. cbn [fst snd].
    destruct (truthy key); [|reflexivity].
    cbn [andb].
    destruct (truthy (stripNodeModules key)
              && negb (includes (stripNodeModules key) "node_modules"));
      reflexivity.
Qed.

Lemma collectDeps_visits (data : lockData) :
  collectDeps data = fold_left record (visitOrder data) JsMap.empty.
Proof.
  unfold collectDeps, visitOrder. rewrite fold_left_app.
  destruct (lock_dependencies data) as [l|];
    destruct (lock_packages data) as [p|]; cbn [fold_left];
    rewrite ?recordPackage_visits; unfold extractDeps, treeVisits;
    rewrite ?extractNested_visits; reflexivity.
Qed.

Lemma get_record_other k visits :
  forall deps,
    ~ In k (map fst visits) ->
    JsMap.get k (fold_left record visits deps) = JsMap.get k deps.
Proof.
  induction visits as [|[n v] rest IH]; intros deps Hk; [reflexivity|].
  cbn [fold_left]. rewrite IH by (intros H; apply Hk; right; exact H).
  unfold record. cbn [fst snd]. rewrite get_set.
  destruct (String.eqb n k) eqn:E; [|reflexivity].
  apply String.eqb_eq in E. exfalso. apply Hk. left. exact E.
Qed.

Lemma get_record_kept k visits :
  forall deps,
    JsMap.get k deps <> None ->
    JsMap.get k (fold_left record visits deps) <> None.
Proof.
  induction visits as [|[n v] rest IH]; intros deps Hk; [exact Hk|].
  cbn [fold_left]. apply IH. unfold record. cbn [fst snd]. rewrite get_set.
  destruct (String.eqb n k); [discriminate | exact Hk].
Qed.

(** A node of the [dependencies] tree, at any depth. *)
Inductive nodeIn : list (string * depInfo) -> string -> depInfo -> Prop :=
| nodeIn_top l name info :
    In (name, info) l -> nodeIn l name info
| nodeIn_below l parent parentInfo sub name info :
    In (parent, parentInfo) l ->
    dep_dependencies parentInfo = Some sub ->
    nodeIn sub name info ->
    nodeIn l name info.

(** [visitOrder] leaves no node out: every node of the tree and every
    retained entry of [packages] is in it, under its name and with its
    version field. *)
Lemma visitOrder_complete (data : lockData) :
  (forall l name info,
      lock_dependencies data = Some l -> nodeIn l name info ->
      In (name, dep_version info) (visitOrder data)) /\
  (forall packages key info,
      lock_packages data = Some packages -> In (key, info) packages ->
      retained key = true ->
      In (stripNodeModules key, pkg_version info) (visitOrder data)).
Proof.
  unfold visitOrder. split.
  - intros l name info -> H. apply in_or_app. left.
    unfold treeVisits. induction H as [l name info Hin|l parent pinfo sub name info Hin Hsub _ IH];
      cbn [nestedVisits]; apply in_flat_map.
    + exists (name, info). split; [exact Hin | left; reflexivity].
    + exists (parent, pinfo). split; [exact Hin|]. right.
      destruct pinfo as [v [d|]]; cbn [dep_dependencies] in Hsub;
        [|discriminate]. injection Hsub as ->. exact IH.
  - intros packages key info -> Hin Hr. apply in_or_app. right.
    unfold packageVisits. apply in_flat_map. exists (key, info).
    split; [exact Hin|]. cbn [fst snd]. rewrite Hr. left. reflexivity.
Qed.

Lemma get_record_last (name : string) (visits : list (string * option string)) :
  forall m v,
    JsMap.get name (fold_left record visits m) = Some v ->
    (~ In name (map fst visits) /\ JsMap.get name m = Some v) \/
    exists before ver after,
      visits = before ++ (name, ver) :: after /\
      ~ In name (map fst after) /\ v = orElse ver "unknown".
Proof.
  induction visits as [|[n ver] rest IH]; intros m v H.
  - left. split; [intros [] | exact H].
  - cbn [fold_left] in H. apply IH in H.
    destruct H as [[Hnot Hget] | [before [ver' [after [-> [Hnot ->]]]]]].
    + unfold record in Hget. cbn [fst snd] in Hget. rewrite get_set in Hget.
      destruct (String.eqb n name) eqn:E.
      * apply String.eqb_eq in E. subst n. injection Hget as <-.
        right. exists [], ver, rest. repeat split. exact Hnot.
      * apply String.eqb_neq in E. left. split; [|exact Hget].
        intros [H1|H1]; [exact (E H1) | exact (Hnot H1)].
    + right. exists ((n, ver) :: before), ver', after. repeat split. exact Hnot.
Qed.

Lemma nestedVisits_sound (info : depInfo) :
  forall name ver,
    In (name, ver) (nestedVisits info) ->
    exists sub node,
      dep_dependencies info = Some sub /\ nodeIn sub name node /\
      ver = dep_version node.
Proof.
  induction info as [v|v l IH] using depInfo_induction; intros name ver H.
  - destruct H.
  - cbn [nestedVisits] in H. apply in_flat_map in H.
    destruct H as [[n i] [Hin H]]. exists l. cbn [dep_dependencies].
    destruct H as [E|H].
    + injection E as <- <-. exists i. repeat split.
      apply nodeIn_top. exact Hin.
    + rewrite Forall_forall in IH. specialize (IH _ Hin name ver H).
      cbn [snd] in IH. destruct IH as [sub [node [Hsub [Hnode ->]]]].
      exists node. repeat split.
      eapply nodeIn_below; eauto.
Qed.

Lemma stripNodeModules_cases (key : string) :
  key = stripNodeModules key \/
  key = String.append "node_modules/" (stripNodeModules key).
Proof.
  unfold stripNodeModules.
  destruct (startsWith key "node_modules/") eqn:E; [|left; reflexivity].
  right. apply startsWith_spec in E. destruct E as [rest ->]. reflexivity.
Qed.





Section Parser.

Context {X : Externals}.



End Parser.

(* ================================================================== *)
(** * The lock resolver *)
(* ================================================================== *)

Definition packageLockOf (packageJsonPath : path) : path :=
  pathJoin (dirname packageJsonPath) "package-lock.json".

Definition yarnLockOf (packageJsonPath : path) : path :=
  pathJoin (dirname packageJsonPath) "yarn.lock".

(** A lock file lies beside the manifest. *)
Definition hasLockFile (d : node) (packageJsonPath : path) : bool :=
  exists_on d (packageLockOf packageJsonPath) ||
  exists_on d (yarnLockOf packageJsonPath).

(** The lock file beside the manifest that a run uses: package-lock.json
    when it exists, yarn.lock otherwise. *)
Definition existingLock (d : node) (packageJsonPath : path) : path :=
  if exists_on d (packageLockOf packageJsonPath)
  then packageLockOf packageJsonPath
  else yarnLockOf packageJsonPath.

(** [n] calls of a resolver in a row: what each call returns, and the
    world after the last one. *)
Fixpoint times {A} (n : nat) (resolver : M A) (w : world)
  : list (outcome A) * world :=
  match n with
  | 0 => ([], w)
  | S n' =>
      let (o, w') := resolver w in
      let (os, w'') := times n' resolver w' in
      (o :: os, w'')
  end.

Section Resolver.

Context {X : Externals}.

Lemma generateLockFile_existing packageJsonPath w :
  hasLockFile (disk w) packageJsonPath = true ->
  generateLockFile packageJsonPath w =
    (Ret (Some (existingLock (disk w) packageJsonPath)), w).
Proof.
  unfold hasLockFile, existingLock, packageLockOf, yarnLockOf.
  intros H. unfold generateLockFile, bind, existsSync, ret.
  rewrite H. reflexivity.
Qed.

Lemma findOrGenerateLock_existing packageJsonPath temp w :
  hasLockFile (disk w) packageJsonPath = true ->
  findOrGenerateLock packageJsonPath temp w =
    (Ret (Some (existingLock (disk w) packageJsonPath), temp), w).
Proof.
  unfold hasLockFile, existingLock, packageLockOf, yarnLockOf.
  intros H. unfold findOrGenerateLock, bind, existsSync, ret.
  destruct (exists_on (disk w) (pathJoin (dirname packageJsonPath)
                                  "package-lock.json")); [reflexivity|].
  simpl in H. rewrite H. reflexivity.
Qed.

Lemma times_fixed {A} (resolver : M A) (a : A) (w : world) (n : nat) :
  resolver w = (Ret a, w) ->
  times n resolver w = (repeat (Ret a) n, w).
Proof.
  intros H. induction n as [|n IH]; simpl; [reflexivity|].
  rewrite H, IH. reflexivity.
Qed.

(** C6. When a lock file lies beside a manifest, any number of calls of
    the resolver, be it [generateLockFile] or the block of [main] that
    finds or generates the lock file, return the same path each time, the
    one of the existing lock file, and leave the world as it was: the disk,
    hence the content of the lock file, is unchanged and no command has
    been run. *)
Theorem resolver_idempotent
  (packageJsonPath : path) (temp : list path) (w : world) (n : nat) :
  hasLockFile (disk w) packageJsonPath = true ->
  times n (generateLockFile packageJsonPath) w =
    (repeat (Ret (Some (existingLock (disk w) packageJsonPath))) n, w) /\
  times n (findOrGenerateLock packageJsonPath temp) w =
    (repeat (Ret (Some (existingLock (disk w) packageJsonPath), temp)) n, w) /\
  exists_on (disk w) (existingLock (disk w) packageJsonPath) = true.
Proof.
  intros H. split; [|split].
  - apply times_fixed, generateLockFile_existing, H.
  - apply times_fixed, findOrGenerateLock_existing, H.
  - unfold existingLock. unfold hasLockFile in H.
    destruct (exists_on (disk w) (packageLockOf packageJsonPath)) eqn:E;
      [exact E | exact H].
Qed.

(** What [generateLockFile] does when no lock file lies beside the
    manifest, by the exit status of the two commands. *)
Lemma generateLockFile_missing packageJsonPath w :
  hasLockFile (disk w) packageJsonPath = false ->
  let dir := dirname packageJsonPath in
  let npm := spawn NpmInstall dir (disk w) in
  let yarn := spawn YarnInstall dir (snd npm) in
  generateLockFile packageJsonPath w =
    if fst npm then
      (Ret (if exists_on (snd npm) (packageLockOf packageJsonPath)
            then Some (packageLockOf packageJsonPath) else None),
       mkWorld (snd npm) (trace w ++ [Exec NpmInstall dir true]))
    else
      (Ret (if fst yarn && exists_on (snd yarn) (yarnLockOf packageJsonPath)
            then Some (yarnLockOf packageJsonPath) else None),
       mkWorld (snd yarn)
         (trace w ++ [Exec NpmInstall dir false; Exec YarnInstall dir (fst yarn)])).
Proof.
  unfold hasLockFile, packageLockOf, yarnLockOf. intros H. cbv zeta.
  unfold generateLockFile, bind, existsSync, ret, tryCatch, execSync.
  rewrite H. cbn [disk trace].
  destruct (spawn NpmInstall (dirname packageJsonPath) (disk w))
    as [ok1 d1] eqn:E1.
  cbn [fst snd disk trace].
  destruct ok1; cbn [disk trace].
  - destruct (exists_on d1 _); reflexivity.
  - destruct (spawn YarnInstall (dirname packageJsonPath) d1)
      as [ok2 d2] eqn:E2.
    cbn [fst snd]. rewrite <- app_assoc. cbn [app].
    destruct ok2; cbn [disk trace andb].
    + destruct (exists_on d2 _); reflexivity.
    + reflexivity.
Qed.


End Resolver.

(* ================================================================== *)
(** * The vulnerability matcher *)
(* ================================================================== *)

(** The batches the loop of [queryOSV] cuts from index [i] on, with the
    recursion of [queryLoop]. *)
Fixpoint batchesFrom {A} (fuel : nat) (queries : list A) (i : nat)
  : list (list A) :=
  if i <? List.length queries then
    match fuel with
    | 0 => []
    | S fuel' =>
        slice i (i + batchSize) queries
          :: batchesFrom fuel' queries (i + batchSize)
    end
  else [].

(** The number of batches for [n] queries: [n / batchSize], rounded up. *)
Definition batchCount (n : nat) : nat := (n + (batchSize - 1)) / batchSize.

Lemma batchCount_step n :
  0 < n -> batchCount n = S (batchCount (n - batchSize)).
Proof.
  unfold batchCount, batchSize. intros Hn.
  pose proof (Nat.div_mod_eq (n + (1000 - 1)) 1000).
  pose proof (Nat.div_mod_eq (n - 1000 + (1000 - 1)) 1000).
  pose proof (Nat.mod_upper_bound (n + (1000 - 1)) 1000).
  pose proof (Nat.mod_upper_bound (n - 1000 + (1000 - 1)) 1000).
  lia.
Qed.

Section Batches.

Variable A : Type.
Variable queries : list A.

Lemma slice_batch i :
  slice i (i + batchSize) queries = firstn batchSize (skipn i queries).
Proof. unfold slice. f_equal. lia. Qed.

Lemma batchesFrom_concat fuel :
  forall i,
    List.length queries <= i + fuel * batchSize ->
    List.concat (batchesFrom fuel queries i) = skipn i queries.
Proof.
  induction fuel as [|fuel IH]; intros i Hlen; simpl.
  - destruct (i <? List.length queries) eqn:E.
    + apply Nat.ltb_lt in E. lia.
    + apply Nat.ltb_ge in E. rewrite skipn_all2 by exact E. reflexivity.
  - destruct (i <? List.length queries) eqn:E.
    + simpl. rewrite IH by lia. rewrite slice_batch.
      rewrite Nat.add_comm, <- skipn_skipn. apply firstn_skipn.
    + apply Nat.ltb_ge in E. rewrite skipn_all2 by exact E. reflexivity.
Qed.

Lemma batchesFrom_length fuel :
  forall i,
    List.length queries <= i + fuel * batchSize ->
    List.length (batchesFrom fuel queries i) =
      batchCount (List.length queries - i).
Proof.
  induction fuel as [|fuel IH]; intros i Hlen; cbn [batchesFrom].
  - destruct (i <? List.length queries) eqn:E.
    + apply Nat.ltb_lt in E. lia.
    + apply Nat.ltb_ge in E.
      replace (List.length queries - i) with 0 by lia. reflexivity.
  - destruct (i <? List.length queries) eqn:E.
    + apply Nat.ltb_lt in E. cbn [List.length].
      rewrite IH by (unfold batchSize in *; lia).
      rewrite (@batchCount_step (List.length queries - i)) by lia.
      f_equal. f_equal. lia.
    + apply Nat.ltb_ge in E.
      replace (List.length queries - i) with 0 by lia. reflexivity.
Qed.

Lemma batchesFrom_nth fuel :
  forall i j b,
    nth_error (batchesFrom fuel queries i) j = Some b ->
    b = slice (i + j * batchSize) (i + j * batchSize + batchSize) queries /\
    i + j * batchSize < List.length queries /\
    (nth_error (batchesFrom fuel queries i) (S j) <> None ->
     List.length b = batchSize).
Proof.
  induction fuel as [|fuel IH]; intros i j b; cbn [batchesFrom].
  - destruct (i <? List.length queries); destruct j; discriminate.
  - destruct (i <? List.length queries) eqn:E; [|destruct j; discriminate].
    apply Nat.ltb_lt in E. destruct j as [|j]; cbn [nth_error].
    + intros H. injection H as <-. rewrite Nat.mul_0_l, Nat.add_0_r.
      split; [reflexivity|]. split; [exact E|].
      intros Hnext. rewrite slice_batch, length_firstn, length_skipn.
      destruct fuel as [|fuel']; cbn [batchesFrom] in Hnext.
      * destruct (i + batchSize <? List.length queries); congruence.
      * destruct (i + batchSize <? List.length queries) eqn:E2;
          [|congruence]. apply Nat.ltb_lt in E2. lia.
    + intros H. destruct (IH _ _ _ H) as [Hb [Hlt Hfull]].
      rewrite Nat.mul_succ_l.
      replace (i + (j * batchSize + batchSize))
        with (i + batchSize + j * batchSize) by lia.
      repeat split; assumption.
Qed.

End Batches.

Lemma concat_aligned {A B} (n : nat) (xs : list (list A)) (ys : list (list B)) :
  Forall2 (fun x y => List.length x = List.length y) xs ys ->
  (forall j x, nth_error xs j = Some x -> nth_error xs (S j) <> None ->
               List.length x = n) ->
  forall i a,
    nth_error (List.concat xs) i = Some a ->
    exists j k x y,
      i = j * n + k /\ k < List.length x /\
      nth_error xs j = Some x /\ nth_error ys j = Some y /\
      nth_error x k = Some a /\
      nth_error (List.concat ys) i = nth_error y k.
Proof.
  induction 1 as [|x y xs ys Hxy Hrest IH]; intros Hfull i a Hi.
  - destruct i; discriminate.
  - cbn [List.concat] in *.
    destruct (Nat.lt_ge_cases i (List.length x)) as [Hlt|Hge].
    + exists 0, i, x, y. rewrite nth_error_app1 in Hi by exact Hlt.
      rewrite nth_error_app1 by (rewrite <- Hxy; exact Hlt).
      repeat split; try assumption; reflexivity.
    + rewrite nth_error_app2 in Hi by exact Hge.
      destruct (IH (fun j x' H1 H2 => Hfull (S j) x' H1 H2) _ _ Hi)
        as [j [k [x' [y' [Hjk [Hk [Hx [Hy [Ha Hc]]]]]]]]].
      assert (Hn : List.length x = n).
      { apply (Hfull 0 x eq_refl). cbn [nth_error].
        destruct xs; [destruct j; discriminate | discriminate]. }
      exists (S j), k, x', y'. cbn [nth_error].
      rewrite nth_error_app2 by (rewrite <- Hxy; exact Hge).
      rewrite <- Hxy. repeat split; try assumption.
      rewrite Nat.mul_succ_l. lia.
Qed.

(** The vulnerabilities one result slot contributes when it is attributed
    to [packageName]. *)
Definition slotFindings (packageName : option string) (dependencies : JsMap.t)
  (r : osvResult) : list vulnerability :=
  match vulns r with
  | Some vs =>
      flat_map
        (fun vuln =>
           match isMalicious vuln with
           | Some true =>
               [mkVulnerability packageName
                  (versionOf dependencies packageName)
                  (vuln_id vuln)
                  (orElse (vuln_summary vuln) "Malicious package detected")]
           | _ => []
           end) vs
  | None => []
  end.

(** Some advisory of the slot is classified malicious. *)
Definition slotMalicious (r : osvResult) : Prop :=
  exists vs vuln,
    vulns r = Some vs /\ In vuln vs /\ isMalicious vuln = Some true.

Lemma scanVulns_findings packageName dependencies vs :
  forall st st',
    scanVulns packageName dependencies vs st = Some st' ->
    fst st' = fst st ++ slotFindings packageName dependencies (mkResult (Some vs)) /\
    (snd st' = true <->
     snd st = true \/ exists vuln, In vuln vs /\ isMalicious vuln = Some true) /\
    (slotFindings packageName dependencies (mkResult (Some vs)) <> [] <->
     exists vuln, In vuln vs /\ isMalicious vuln = Some true).
Proof.
  unfold slotFindings. cbn [vulns].
  induction vs as [|vuln rest IH]; intros st st' H; cbn [scanVulns] in H.
  - injection H as <-. cbn [flat_map]. rewrite app_nil_r.
    split; [reflexivity|]. split.
    + split; [auto | intros [H|[v [[] _]]]; exact H].
    + split; [congruence | intros [v [[] _]]].
  - cbn [flat_map]. destruct (isMalicious vuln) as [[|]|] eqn:E;
      [| |discriminate].
    + destruct (IH _ _ H) as [Hf [Hs Hne]]. cbn [fst snd] in *.
      split; [rewrite Hf, <- app_assoc; reflexivity|]. split.
      * split; [intros _; right; exists vuln; split; [left; reflexivity|exact E]|].
        intros _. apply Hs. left. reflexivity.
      * split; [intros _; exists vuln; split; [left; reflexivity|exact E]|].
        discriminate.
    + destruct (IH _ _ H) as [Hf [Hs Hne]].
      split; [exact Hf|]. cbn [app]. split.
      * rewrite Hs. split.
        -- intros [H1|[v [Hin Hv]]]; [left; exact H1|].
           right. exists v. split; [right; exact Hin | exact Hv].
        -- intros [H1|[v [[<-|Hin] Hv]]]; [left; exact H1 | congruence |].
           right. exists v. split; assumption.
      * rewrite Hne. split.
        -- intros [v [Hin Hv]]. exists v. split; [right; exact Hin | exact Hv].
        -- intros [v [[<-|Hin] Hv]]; [congruence|].
           exists v. split; assumption.
Qed.

Lemma slotFindings_malicious packageName dependencies r :
  slotFindings packageName dependencies r <> [] <-> slotMalicious r.
Proof.
  unfold slotMalicious. destruct r as [[vs|]].
  - unfold slotFindings. cbn [vulns].
    induction vs as [|vuln rest IH]; cbn [flat_map].
    + split; [congruence | intros [vs [v [E [Hin _]]]]].
      injection E as <-. destruct Hin.
    + destruct (isMalicious vuln) as [[|]|] eqn:E; cbn [app].
      * split; [|discriminate]. intros _. exists (vuln :: rest), vuln.
        split; [reflexivity|]. split; [left; reflexivity | exact E].
      * rewrite IH. split.
        -- intros [vs [v [Hvs [Hin Hv]]]]. injection Hvs as <-.
           exists (vuln :: rest), v. split; [reflexivity|].
           split; [right; exact Hin | exact Hv].
        -- intros [vs [v [Hvs [Hin Hv]]]]. injection Hvs as <-.
           destruct Hin as [<-|Hin]; [congruence|].
           exists rest, v. split; [reflexivity|]. split; assumption.
      * rewrite IH. split.
        -- intros [vs [v [Hvs [Hin Hv]]]]. injection Hvs as <-.
           exists (vuln :: rest), v. split; [reflexivity|].
           split; [right; exact Hin | exact Hv].
        -- intros [vs [v [Hvs [Hin Hv]]]]. injection Hvs as <-.
           destruct Hin as [<-|Hin]; [congruence|].
           exists rest, v. split; [reflexivity|]. split; assumption.
  - cbn. split; [congruence | intros [vs [v [E _]]]; discriminate].
Qed.

Lemma scanResults_findings packagesArray dependencies rs :
  forall i st st',
    scanResults packagesArray dependencies i rs st = Some st' ->
    fst st' =
      fst st ++
      flat_map
        (fun ir => slotFindings (nth_error packagesArray (fst ir))
                     dependencies (snd ir))
        (combine (seq i (List.length rs)) rs) /\
    (snd st' = true <->
     snd st = true \/ exists r, In r rs /\ slotMalicious r).
Proof.
  induction rs as [|r rest IH]; intros i st st' H; cbn [scanResults] in H.
  - injection H as <-. cbn. rewrite app_nil_r. split; [reflexivity|].
    split; [auto | intros [H|[r [[] _]]]; exact H].
  - cbn [List.length seq combine flat_map fst snd].
    assert (Hskip :
      slotFindings (nth_error packagesArray i) dependencies r = [] ->
      scanResults packagesArray dependencies (S i) rest st = Some st' ->
      fst st' =
        fst st ++
        slotFindings (nth_error packagesArray i) dependencies r ++
        flat_map
          (fun ir => slotFindings (nth_error packagesArray (fst ir))
                       dependencies (snd ir))
          (combine (seq (S i) (List.length rest)) rest) /\
      (snd st' = true <->
       snd st = true \/ exists r0, In r0 (r :: rest) /\ slotMalicious r0)).
    { intros Hnone Hrest. destruct (IH _ _ _ Hrest) as [Hf Hs].
      rewrite Hnone. split; [exact Hf|]. rewrite Hs. split.
      - intros [H1|[r0 [Hin Hm]]]; [left; exact H1|].
        right. exists r0. split; [right; exact Hin | exact Hm].
      - intros [H1|[r0 [[<-|Hin] Hm]]]; [left; exact H1 | |].
        + apply slotFindings_malicious
            with (packageName := nth_error packagesArray i)
                 (dependencies := dependencies) in Hm.
          contradiction.
        + right. exists r0. split; assumption. }
    destruct r as [[vs|]]; cbn [vulns] in H.
    + destruct (0 <? List.length vs) eqn:E.
      * destruct (scanVulns (nth_error packagesArray i) dependencies vs st)
          as [st1|] eqn:E1; [|discriminate].
        destruct (scanVulns_findings _ _ _ _ E1) as [Hf1 [Hs1 _]].
        destruct (IH _ _ _ H) as [Hf Hs].
        split; [rewrite Hf, Hf1, <- app_assoc; reflexivity|].
        rewrite Hs, Hs1. unfold slotMalicious. split.
        -- intros [[H1|[v [Hin Hv]]]|[r0 [Hin Hm]]].
           ++ left. exact H1.
           ++ right. exists (mkResult (Some vs)). split; [left; reflexivity|].
              exists vs, v. repeat split; assumption.
           ++ right. exists r0. split; [right; exact Hin | exact Hm].
        -- intros [H1|[r0 [[<-|Hin] Hm]]].
           ++ left. left. exact H1.
           ++ left. right. destruct Hm as [vs' [v [Hvs [Hin Hv]]]].
              cbn [vulns] in Hvs. injection Hvs as <-. exists v. split; assumption.
           ++ right. exists r0. split; assumption.
      * apply Hskip; [|exact H]. destruct vs; [reflexivity | discriminate].
    + apply Hskip; [reflexivity | exact H].
Qed.

Definition isExec (e : event) : bool :=
  match e with Exec _ _ _ => true | _ => false end.

Definition isPost (e : event) : bool :=
  match e with Post _ _ => true | _ => false end.

Definition isUnlinked (e : event) : bool :=
  match e with Unlinked _ => true | _ => false end.

Definition isReported (e : event) : bool :=
  match e with Reported _ => true | _ => false end.

Section Matcher.

Context {X : Externals}.

(** The decoded body of a reply, if there is one. *)
Definition decode (r : reply) : option osvResponse :=
  match r with
  | NetworkError => None
  | Body responseData => JSON_parse_response responseData
  end.

(** The result slots a reply contributes to the array [queryOSV] returns. *)
Definition slotsOf (r : reply) : list osvResult :=
  match decode r with
  | Some parsed => resultsOf parsed
  | None => []
  end.

(** The events of posting [batches] and receiving [replies]. *)
Definition posts (batches : list (list query)) (replies : list reply)
  : list event :=
  map (fun e => Post (fst e) (snd e)) (combine batches replies).

(** The database answers every request with a body that decodes and holds
    one result per query. *)
Definition positional : Prop :=
  forall t batch,
    exists parsed,
      decode (transport t batch) = Some parsed /\
      List.length (resultsOf parsed) = List.length batch.

Lemma post_run batch w :
  let r := transport (trace w) batch in
  exists o,
    post batch w = (o, mkWorld (disk w) (trace w ++ [Post batch r])) /\
    match decode r with
    | Some parsed => o = Ret parsed
    | None => exists e, o = Throw e
    end.
Proof.
  cbv zeta. unfold post, decode.
  destruct (transport (trace w) batch) as [|s].
  - eexists. split; [reflexivity | eauto].
  - destruct (JSON_parse_response s); eexists; split; eauto.
Qed.

Lemma queryLoop_positional (queries : list query) :
  positional ->
  forall fuel i acc w,
    exists replies,
      queryLoop fuel queries i acc w =
        (Ret (acc ++ List.concat (map slotsOf replies)),
         mkWorld (disk w)
           (trace w ++ posts (batchesFrom fuel queries i) replies)) /\
      Forall2 (fun b r => List.length b = List.length (slotsOf r))
        (batchesFrom fuel queries i) replies.
Proof.
  intros Hpos. induction fuel as [|fuel IH]; intros i acc w;
    cbn [queryLoop batchesFrom].
  - exists []. destruct (i <? List.length queries); cbn;
      rewrite !app_nil_r; destruct w; split; (reflexivity || constructor).
  - destruct (i <? List.length queries).
    + destruct (post_run (slice i (i + batchSize) queries) w) as [o [Hp Ho]].
      cbv zeta in Hp, Ho.
      destruct (Hpos (trace w) (slice i (i + batchSize) queries))
        as [parsed [Hd Hl]].
      rewrite Hd in Ho. subst o.
      destruct (IH (i + batchSize) (acc ++ resultsOf parsed)
                  (mkWorld (disk w)
                     (trace w ++
                        [Post (slice i (i + batchSize) queries)
                           (transport (trace w)
                              (slice i (i + batchSize) queries))])))
        as [replies [Hq Hf]].
      exists (transport (trace w) (slice i (i + batchSize) queries) :: replies).
      split.
      * unfold bind. rewrite Hp, Hq. cbn [disk trace map List.concat].
        unfold posts. cbn [combine map fst snd].
        unfold slotsOf at 2. rewrite Hd.
        rewrite <- !app_assoc. reflexivity.
      * constructor; [|exact Hf]. unfold slotsOf. rewrite Hd. symmetry. exact Hl.
    + exists []. cbn. rewrite !app_nil_r. destruct w.
      split; [reflexivity | constructor].
Qed.

(** The result slots received so far, in order of arrival. *)
Definition slotsIn (t : list event) : list osvResult :=
  flat_map (fun e => match e with Post _ r => slotsOf r | _ => [] end) t.

(** A request whose reply is a network error or does not decode. *)
Definition failedPost (e : event) : bool :=
  match e with
  | Post _ r => match decode r with Some _ => false | None => true end
  | _ => false
  end.

(** Some advisory received so far is classified malicious. *)
Definition maliciousIn (t : list event) : Prop :=
  exists slot, In slot (slotsIn t) /\ slotMalicious slot.

Lemma slotsIn_app t1 t2 : slotsIn (t1 ++ t2) = slotsIn t1 ++ slotsIn t2.
Proof. apply flat_map_app. Qed.

Lemma maliciousIn_app t1 t2 :
  maliciousIn (t1 ++ t2) <-> maliciousIn t1 \/ maliciousIn t2.
Proof.
  unfold maliciousIn. rewrite slotsIn_app. split.
  - intros [slot [Hin Hm]]. apply in_app_or in Hin.
    destruct Hin; [left | right]; exists slot; split; assumption.
  - intros [[slot [Hin Hm]] | [slot [Hin Hm]]]; exists slot;
      (split; [apply in_or_app; auto | exact Hm]).
Qed.

(** Whatever the database answers, the loop of [queryOSV] only appends
    requests to the trace; it returns the replies put end to end when all
    of them decode, and throws right after the first that does not. *)
Lemma queryLoop_events (queries : list query) :
  forall fuel i acc w o w',
    queryLoop fuel queries i acc w = (o, w') ->
    exists new,
      w' = mkWorld (disk w) (trace w ++ new) /\
      forallb isPost new = true /\
      match o with
      | Ret rs => rs = acc ++ slotsIn new /\ existsb failedPost new = false
      | Throw _ =>
          exists pre batch r,
            new = pre ++ [Post batch r] /\ decode r = None /\
            existsb failedPost pre = false
      | Exit _ => False
      end.
Proof.
  induction fuel as [|fuel IH]; intros i acc w o w' H;
    cbn [queryLoop] in H.
  - exists []. assert (H' : (o, w') = (Ret acc, w))
      by (destruct (i <? List.length queries); symmetry; exact H).
    injection H' as -> ->. cbn. rewrite !app_nil_r. destruct w. auto.
  - destruct (i <? List.length queries).
    + destruct (post_run (slice i (i + batchSize) queries) w) as [o1 [Hp Ho]].
      cbv zeta in Hp, Ho. unfold bind in H. rewrite Hp in H.
      set (batch := slice i (i + batchSize) queries) in *.
      set (r := transport (trace w) batch) in *.
      destruct (decode r) as [parsed|] eqn:Hd.
      * subst o1. apply IH in H.
        destruct H as [new [-> [Hposts Hout]]]. cbn [disk trace] in *.
        exists (Post batch r :: new). split.
        -- rewrite <- app_assoc. reflexivity.
        -- split; [exact Hposts|]. destruct o as [rs|e|c].
           ++ destruct Hout as [-> Hok]. split.
              ** cbn [slotsIn flat_map]. unfold slotsOf at 1. rewrite Hd.
                 rewrite <- app_assoc. reflexivity.
              ** cbn [existsb failedPost]. rewrite Hd. exact Hok.
           ++ destruct Hout as [pre [b [r' [-> [Hr Hok]]]]].
              exists (Post batch r :: pre), b, r'. repeat split; try assumption.
              cbn [existsb failedPost]. rewrite Hd. exact Hok.
           ++ exact Hout.
      * destruct Ho as [e ->]. injection H as <- <-.
        exists [Post batch r]. split; [reflexivity|]. split; [reflexivity|].
        exists [], batch, r. repeat split. exact Hd.
    + injection H as <- <-. exists []. cbn. rewrite !app_nil_r.
      destruct w. auto.
Qed.

(** The loop of [queryOSV] never runs out of fuel: with the fuel
    [queryOSV] gives it, more fuel changes nothing. *)
Lemma queryLoop_fuel (queries : list query) :
  forall fuel i acc w,
    List.length queries <= i + fuel * batchSize ->
    queryLoop (S fuel) queries i acc w = queryLoop fuel queries i acc w.
Proof.
  induction fuel as [|fuel IH]; intros i acc w Hlen.
  - cbn [queryLoop].
    destruct (i <? List.length queries) eqn:E; [|reflexivity].
    apply Nat.ltb_lt in E. cbn in Hlen. lia.
  - change (queryLoop (S (S fuel)) queries i acc w)
      with ((if i <? List.length queries
             then result <- post (slice i (i + batchSize) queries) ;;
                  queryLoop (S fuel) queries (i + batchSize)
                    (acc ++ resultsOf result)
             else ret acc) w).
    change (queryLoop (S fuel) queries i acc w)
      with ((if i <? List.length queries
             then result <- post (slice i (i + batchSize) queries) ;;
                  queryLoop fuel queries (i + batchSize)
                    (acc ++ resultsOf result)
             else ret acc) w).
    destruct (i <? List.length queries); [|reflexivity].
    unfold bind.
    destruct (post (slice i (i + batchSize) queries) w) as [[result|e|c] w1];
      try reflexivity.
    apply IH. rewrite Nat.mul_succ_l in Hlen. lia.
Qed.

Lemma queryOSV_fuel (packages : JsMap.t) (extra : nat) (w : world) :
  queryLoop (List.length (map toQuery packages) + extra)
    (map toQuery packages) 0 [] w = queryOSV packages w.
Proof.
  unfold queryOSV. induction extra as [|extra IH].
  - rewrite Nat.add_0_r. reflexivity.
  - rewrite Nat.add_succ_r, queryLoop_fuel; [exact IH|].
    unfold batchSize. lia.
Qed.

End Matcher.

Lemma concat_same_length {A B} (xs : list (list A)) (ys : list (list B)) :
  Forall2 (fun x y => List.length x = List.length y) xs ys ->
  List.length (List.concat xs) = List.length (List.concat ys).
Proof.
  induction 1 as [|x y xs ys Hxy _ IH]; [reflexivity|].
  cbn [List.concat]. rewrite !length_app, Hxy, IH. reflexivity.
Qed.

Lemma Forall2_map_right {A B C} (R : A -> C -> Prop) (f : B -> C) xs ys :
  Forall2 (fun x y => R x (f y)) xs ys -> Forall2 R xs (map f ys).
Proof. induction 1; constructor; assumption. Qed.

Section Positional.

Context {X : Externals}.

(** C2. When the database answers every request with one result per
    query, [queryOSV] on a dependency map of [N] entries issues
    [N / 1000] requests, rounded up, and nothing else; the batches, put end
    to end in request order, are the queries of the packages in the order
    of the map; the array it returns is the replies put end to end and has
    [N] slots; slot [i] of that array is the result that the reply to batch
    [j] holds at position [k], where the query of package [i] is at
    position [k] of batch [j] and [i = 1000 * j + k].  The scan of [main]
    attributes slot [i] to the package at index [i] of the map's keys. *)
Theorem queryOSV_positional (dependencies : JsMap.t) (w : world) :
  positional ->
  exists batches replies,
    let aggregated := List.concat (map slotsOf replies) in
    queryOSV dependencies w =
      (Ret aggregated, mkWorld (disk w) (trace w ++ posts batches replies)) /\
    List.length batches = batchCount (JsMap.size dependencies) /\
    List.length replies = List.length batches /\
    List.concat batches = map toQuery dependencies /\
    List.length aggregated = JsMap.size dependencies /\
    (forall i name version,
        nth_error dependencies i = Some (name, version) ->
        nth_error (JsMap.keys dependencies) i = Some name /\
        exists j k batch r,
          i = j * batchSize + k /\ k < batchSize /\
          nth_error batches j = Some batch /\
          nth_error replies j = Some r /\
          nth_error batch k = Some (toQuery (name, version)) /\
          nth_error aggregated i = nth_error (slotsOf r) k) /\
    (forall st st',
        scanResults (JsMap.keys dependencies) dependencies 0 aggregated st
          = Some st' ->
        fst st' =
          fst st ++
          flat_map
            (fun ir => slotFindings (nth_error (JsMap.keys dependencies) (fst ir))
                         dependencies (snd ir))
            (combine (seq 0 (List.length aggregated)) aggregated)).
Proof.
  intros Hpos. unfold queryOSV, JsMap.size.
  set (queries := map toQuery dependencies).
  assert (Hlen : List.length queries = List.length dependencies)
    by apply length_map.
  destruct (queryLoop_positional queries Hpos (List.length queries) 0 [] w)
    as [replies [Hrun Hall]].
  set (batches := batchesFrom (List.length queries) queries 0) in *.
  assert (Hbound : List.length queries <= 0 + List.length queries * batchSize)
    by (unfold batchSize; lia).
  assert (Hcat : List.concat batches = queries)
    by (apply (batchesFrom_concat queries _ 0 Hbound)).
  assert (Hall' : Forall2 (fun x y => List.length x = List.length y)
                    batches (map slotsOf replies))
    by (apply Forall2_map_right; exact Hall).
  exists batches, replies. cbv zeta.
  split; [exact Hrun|]. split.
  { unfold batches. rewrite batchesFrom_length by exact Hbound.
    rewrite Nat.sub_0_r, Hlen. reflexivity. }
  split; [symmetry; exact (Forall2_length Hall)|].
  split; [exact Hcat|]. split.
  { rewrite <- (concat_same_length Hall'), Hcat. exact Hlen. }
  split.
  - intros i name version Hi. split.
    { unfold JsMap.keys. apply (map_nth_error fst) in Hi. exact Hi. }
    assert (Hq : nth_error (List.concat batches) i
                 = Some (toQuery (name, version))).
    { rewrite Hcat. unfold queries. apply map_nth_error. exact Hi. }
    destruct (concat_aligned (n := batchSize) Hall'
                (fun j x H1 H2 =>
                   proj2 (proj2 (batchesFrom_nth queries _ 0 j H1)) H2)
                _ Hq)
      as [j [k [x [y [Hjk [Hk [Hx [Hy [Ha Hc]]]]]]]]].
    rewrite nth_error_map in Hy.
    destruct (nth_error replies j) as [r|] eqn:Hr; [|discriminate].
    injection Hy as <-.
    exists j, k, x, r. repeat split; try assumption.
    destruct (batchesFrom_nth queries _ 0 j Hx) as [Hslice _].
    rewrite Hslice, slice_batch, length_firstn in Hk. lia.
  - intros st st' Hs. apply (scanResults_findings _ _ _ _ _ Hs).
Qed.

End Positional.

(* ================================================================== *)
(** * A whole run *)
(* ================================================================== *)

Section Run.

Context {X : Externals}.

Definition isScanEvent (e : event) : bool := isExec e || isPost e.

Lemma exec_only l :
  forallb isExec l = true ->
  existsb failedPost l = false /\ slotsIn l = [] /\
  forallb isScanEvent l = true.
Proof.
  induction l as [|e l IH]; intros H; [auto|].
  cbn in H. apply andb_true_iff in H. destruct H as [He Hl].
  destruct (IH Hl) as [H1 [H2 H3]].
  destruct e; try discriminate. cbn. auto.
Qed.

Lemma post_only l :
  forallb isPost l = true -> forallb isScanEvent l = true.
Proof.
  induction l as [|e l IH]; intros H; [reflexivity|].
  cbn in H. apply andb_true_iff in H. destruct H as [He Hl].
  cbn. unfold isScanEvent at 1. rewrite He, orb_true_r. apply IH, Hl.
Qed.

Lemma world_eta w : w = mkWorld (disk w) (trace w ++ []).
Proof. destruct w. cbn. rewrite app_nil_r. reflexivity. Qed.

Lemma generateLockFile_events packageJsonPath w :
  exists result new d,
    generateLockFile packageJsonPath w =
      (Ret result, mkWorld d (trace w ++ new)) /\
    forallb isExec new = true.
Proof.
  destruct (hasLockFile (disk w) packageJsonPath) eqn:H.
  - rewrite (generateLockFile_existing _ _ H).
    exists (Some (existingLock (disk w) packageJsonPath)), [], (disk w).
    split; [f_equal; apply world_eta | reflexivity].
  - rewrite (generateLockFile_missing _ _ H). cbv zeta.
    destruct (fst (spawn NpmInstall (dirname packageJsonPath) (disk w))).
    + do 3 eexists. split; reflexivity.
    + do 3 eexists. split; reflexivity.
Qed.

Lemma findOrGenerateLock_events packageJsonPath temp w :
  exists found new d,
    findOrGenerateLock packageJsonPath temp w =
      (Ret found, mkWorld d (trace w ++ new)) /\
    forallb isExec new = true.
Proof.
  unfold findOrGenerateLock, bind, existsSync, ret.
  destruct (exists_on (disk w) _).
  { do 3 eexists. split; [f_equal; apply world_eta | reflexivity]. }
  destruct (exists_on (disk w) _).
  { do 3 eexists. split; [f_equal; apply world_eta | reflexivity]. }
  destruct (generateLockFile_events packageJsonPath w)
    as [result [new [d [-> Hnew]]]].
  destruct result as [p|]; cbn [disk].
  - destruct (negb (exists_on d (pathReplaceLockExt p)));
      do 3 eexists; split; try reflexivity; exact Hnew.
  - do 3 eexists; split; try reflexivity; exact Hnew.
Qed.

Lemma parseDependencies_pure lockFile w :
  exists parsed, parseDependencies lockFile w = (Ret parsed, w).
Proof.
  unfold parseDependencies, parsePackageLock, parseYarnLock.
  unfold tryCatch, bind, readFileSync, ret, throw.
  destruct (pathEndsWith lockFile "package-lock.json");
    destruct (lookup lockFile (disk w)) as [[content| |]|];
    try (eexists; reflexivity).
  destruct (JSON_parse_lock content); eexists; reflexivity.
Qed.

(** What one turn of the loop of [main] leaves behind. *)
Definition turnOutcome (st : locals) (new : list event) (o : outcome locals)
  : Prop :=
  match o with
  | Ret st' =>
      existsb failedPost new = false /\
      (hasVulnerabilities st' = true <->
       hasVulnerabilities st = true \/ maliciousIn new)
  | Throw _ =>
      existsb failedPost new = false \/
      exists pre batch r,
        new = pre ++ [Post batch r] /\ decode r = None /\
        existsb failedPost pre = false
  | Exit _ => False
  end.

Lemma not_malicious_exec l : forallb isExec l = true -> ~ maliciousIn l.
Proof.
  intros H [slot [Hin _]]. destruct (exec_only l H) as [_ [E _]].
  rewrite E in Hin. destruct Hin.
Qed.

Lemma processManifest_events packageJsonPath st w o w' :
  processManifest packageJsonPath st w = (o, w') ->
  exists new d,
    w' = mkWorld d (trace w ++ new) /\
    forallb isScanEvent new = true /\
    turnOutcome st new o.
Proof.
  unfold processManifest, bind.
  destruct (findOrGenerateLock_events packageJsonPath (tempLockFiles st) w)
    as [found [ne [d [-> Hne]]]].
  destruct (exec_only ne Hne) as [Hok [Hslots Hscan]].
  assert (Hskip : forall st',
             hasVulnerabilities st' = hasVulnerabilities st ->
             (Ret st', mkWorld d (trace w ++ ne)) = (o, w') ->
             exists new d0,
               w' = mkWorld d0 (trace w ++ new) /\
               forallb isScanEvent new = true /\ turnOutcome st new o).
  { intros st' Hst' H. injection H as <- <-. exists ne, d.
    split; [reflexivity|]. split; [exact Hscan|]. cbn. split; [exact Hok|].
    rewrite Hst'. split; [auto|].
    intros [H|H]; [exact H | destruct (@not_malicious_exec ne Hne H)]. }
  destruct (fst found) as [lockFile|]; [|apply Hskip; reflexivity].
  destruct (parseDependencies_pure lockFile (mkWorld d (trace w ++ ne)))
    as [parsed ->].
  destruct parsed as [dependencies|]; [|apply Hskip; reflexivity].
  destruct (JsMap.size dependencies =? 0); [apply Hskip; reflexivity|].
  unfold queryOSV.
  destruct (queryLoop (List.length (map toQuery dependencies))
              (map toQuery dependencies) 0 []
              (mkWorld d (trace w ++ ne))) as [o2 w2] eqn:Hq.
  apply queryLoop_events in Hq. destruct Hq as [np [-> [Hnp Hout]]].
  cbn [disk trace hasVulnerabilities] in *.
  destruct o2 as [rs|e|c]; [| |destruct Hout].
  - destruct Hout as [Hrs Hnf]. cbn [app] in Hrs.
    destruct (scanResults (JsMap.keys dependencies) dependencies 0 rs
                ([], hasVulnerabilities st)) as [[vulnerabilities has]|] eqn:Hs.
    + unfold ret. intros H. injection H as <- <-. exists (ne ++ np), d.
      split; [f_equal; symmetry; apply app_assoc|]. split.
      { rewrite forallb_app, Hscan. apply post_only, Hnp. }
      cbn [turnOutcome hasVulnerabilities]. split.
      { rewrite existsb_app, Hok, Hnf. reflexivity. }
      destruct (scanResults_findings _ _ _ _ _ Hs) as [_ Hhas].
      cbn [snd] in Hhas. rewrite Hhas, maliciousIn_app. subst rs.
      unfold maliciousIn at 2. split.
      * intros [H|H]; [left | right; right]; exact H.
      * intros [H|[H|H]]; [left; exact H | | right; exact H].
        destruct (@not_malicious_exec ne Hne H).
    + unfold throw. intros H. injection H as <- <-. exists (ne ++ np), d.
      split; [f_equal; symmetry; apply app_assoc|]. split.
      { rewrite forallb_app, Hscan. apply post_only, Hnp. }
      left. rewrite existsb_app, Hok, Hnf. reflexivity.
  - destruct Hout as [pre [batch [r [-> [Hr Hpre]]]]].
    intros H. injection H as <- <-. exists (ne ++ pre ++ [Post batch r]), d.
    split; [f_equal; symmetry; apply app_assoc|]. split.
    { rewrite forallb_app, Hscan. apply post_only, Hnp. }
    right. exists (ne ++ pre), batch, r. rewrite <- app_assoc.
    repeat split; try assumption. rewrite existsb_app, Hok, Hpre. reflexivity.
Qed.

Lemma not_maliciousIn_nil : ~ maliciousIn [].
Proof. intros [slot [[] _]]. Qed.

Lemma forEachManifest_events packageJsonFiles :
  forall st w o w',
    forEachManifest packageJsonFiles st w = (o, w') ->
    exists new d,
      w' = mkWorld d (trace w ++ new) /\
      forallb isScanEvent new = true /\
      turnOutcome st new o.
Proof.
  induction packageJsonFiles as [|f rest IH]; intros st w o w' H;
    cbn [forEachManifest] in H.
  - injection H as <- <-. exists [], (disk w).
    split; [apply world_eta|]. split; [reflexivity|]. cbn.
    split; [reflexivity|]. split; [auto|].
    intros [H|H]; [exact H | destruct (not_maliciousIn_nil H)].
  - unfold bind in H.
    destruct (processManifest f st w) as [o1 w1] eqn:H1.
    apply processManifest_events in H1.
    destruct H1 as [new1 [d1 [-> [Hs1 Ht1]]]].
    destruct o1 as [st1|e|c]; [| |destruct Ht1].
    + apply IH in H. destruct H as [new2 [d2 [-> [Hs2 Ht2]]]].
      cbn [disk trace] in *. exists (new1 ++ new2), d2.
      split; [f_equal; symmetry; apply app_assoc|].
      split; [rewrite forallb_app, Hs1, Hs2; reflexivity|].
      destruct Ht1 as [Hok1 Hhas1].
      destruct o as [st'|e|c]; cbn [turnOutcome] in *.
      * destruct Ht2 as [Hok2 Hhas2]. split.
        -- rewrite existsb_app, Hok1, Hok2. reflexivity.
        -- rewrite Hhas2, Hhas1, maliciousIn_app. tauto.
      * destruct Ht2 as [Hok2 | [pre [batch [r [-> [Hr Hpre]]]]]].
        -- left. rewrite existsb_app, Hok1, Hok2. reflexivity.
        -- right. exists (new1 ++ pre), batch, r.
           rewrite <- app_assoc. repeat split; try assumption.
           rewrite existsb_app, Hok1, Hpre. reflexivity.
      * exact Ht2.
    + injection H as <- <-. exists new1, d1. repeat split; assumption.
Qed.

Lemma cleanup_events temp :
  forall w,
    exists new d,
      cleanup temp w = (Ret tt, mkWorld d (trace w ++ new)) /\
      forallb isUnlinked new = true.
Proof.
  induction temp as [|lockFile rest IH]; intros w; cbn [cleanup].
  - exists [], (disk w). split; [unfold ret; f_equal; apply world_eta|].
    reflexivity.
  - unfold bind, tryCatch, unlinkSync, ret.
    destruct (lookup lockFile (disk w)) as [[content| |]|].
    + destruct (IH (mkWorld (remove lockFile (disk w))
                      (trace w ++ [Unlinked lockFile])))
        as [new [d [-> Hnew]]].
      cbn [trace]. exists (Unlinked lockFile :: new), d.
      split; [rewrite <- app_assoc; reflexivity | exact Hnew].
    + destruct (IH w) as [new [d [-> Hnew]]]. eauto.
    + destruct (IH w) as [new [d [-> Hnew]]]. eauto.
    + destruct (IH w) as [new [d [-> Hnew]]]. eauto.
Qed.

Lemma report_events findings :
  forall w,
    report findings w =
      (Ret tt, mkWorld (disk w) (trace w ++ map Reported findings)).
Proof.
  induction findings as [|f rest IH]; intros w; cbn [report].
  - unfold ret. f_equal. apply world_eta.
  - unfold bind, emit. rewrite IH. cbn [disk trace map].
    rewrite <- app_assoc. reflexivity.
Qed.

(** Events that carry no reply of the database. *)
Definition isAfterScan (e : event) : bool := isUnlinked e || isReported e.

Lemma after_scan l :
  forallb isAfterScan l = true ->
  existsb failedPost l = false /\ slotsIn l = [].
Proof.
  induction l as [|e l IH]; intros H; [auto|].
  cbn in H. apply andb_true_iff in H. destruct H as [He Hl].
  destruct (IH Hl) as [H1 H2].
  destruct e; try discriminate; cbn; auto.
Qed.

Lemma after_scan_unlinked l :
  forallb isUnlinked l = true -> forallb isAfterScan l = true.
Proof.
  induction l as [|e l IH]; intros H; [reflexivity|].
  cbn in H. apply andb_true_iff in H. destruct H as [He Hl].
  cbn. unfold isAfterScan at 1. rewrite He. apply IH, Hl.
Qed.

Lemma after_scan_reported findings :
  forallb isAfterScan (map Reported findings) = true.
Proof. induction findings; [reflexivity | exact IHfindings]. Qed.

Lemma malicious_after_scan l1 l2 :
  forallb isAfterScan l2 = true ->
  (maliciousIn (l1 ++ l2) <-> maliciousIn l1).
Proof.
  intros H. rewrite maliciousIn_app. split; [|auto].
  intros [H1|[slot [Hin _]]]; [exact H1|].
  destruct (after_scan l2 H) as [_ E]. rewrite E in Hin. destruct Hin.
Qed.

Definition isFatalError (e : event) : bool :=
  match e with FatalError => true | _ => false end.

Lemma no_fatal_scan l :
  forallb isScanEvent l = true -> existsb isFatalError l = false.
Proof.
  induction l as [|e l IH]; intros H; [reflexivity|].
  cbn in H. apply andb_true_iff in H. destruct H as [He Hl].
  destruct e; try discriminate; cbn; apply IH, Hl.
Qed.

Lemma no_fatal_after_scan l :
  forallb isAfterScan l = true -> existsb isFatalError l = false.
Proof.
  induction l as [|e l IH]; intros H; [reflexivity|].
  cbn in H. apply andb_true_iff in H. destruct H as [He Hl].
  destruct e; try discriminate; cbn; apply IH, Hl.
Qed.

Lemma no_reported l1 l2 :
  forallb isScanEvent l1 = true -> forallb isUnlinked l2 = true ->
  existsb isReported (l1 ++ l2) = false.
Proof.
  intros H1 H2. rewrite existsb_app.
  assert (E1 : existsb isReported l1 = false).
  { clear H2. induction l1 as [|e l IH]; [reflexivity|].
    cbn in H1. apply andb_true_iff in H1. destruct H1 as [He Hl].
    destruct e; try discriminate; cbn; apply IH, Hl. }
  assert (E2 : existsb isReported l2 = false).
  { clear H1 E1. induction l2 as [|e l IH]; [reflexivity|].
    cbn in H2. apply andb_true_iff in H2. destruct H2 as [He Hl].
    destruct e; try discriminate; cbn; apply IH, Hl. }
  rewrite E1, E2. reflexivity.
Qed.

(** How the body of [main] ends. *)
Definition bodyOutcome (new : list event) (o : outcome unit) : Prop :=
  match o with
  | Exit code =>
      existsb failedPost new = false /\
      ((code = 1%Z /\ maliciousIn new) \/
       (code = 0%Z /\ ~ maliciousIn new /\ existsb isReported new = false))
  | Throw _ =>
      existsb failedPost new = false \/
      exists pre batch r,
        new = pre ++ [Post batch r] /\ decode r = None /\
        existsb failedPost pre = false
  | Ret _ => False
  end.

Lemma mainBody_events w o w' :
  mainBody w = (o, w') ->
  exists new d,
    w' = mkWorld d (trace w ++ new) /\
    existsb isFatalError new = false /\
    bodyOutcome new o.
Proof.
  unfold mainBody, bind, discover.
  destruct (findPackageJsonFiles [] (disk w) []) as [files|].
  - destruct (List.length files =? 0).
    + unfold exit. intros H. injection H as <- <-. exists [], (disk w).
      split; [apply world_eta|]. split; [reflexivity|]. cbn.
      split; [reflexivity|]. right. split; [reflexivity|].
      split; [exact not_maliciousIn_nil | reflexivity].
    + destruct (forEachManifest files initialLocals w) as [o1 w1] eqn:H1.
      apply forEachManifest_events in H1.
      destruct H1 as [new1 [d1 [-> [Hs1 Ht1]]]].
      destruct o1 as [st|e|c]; [| |destruct Ht1].
      * destruct Ht1 as [Hok1 Hhas].
        destruct (cleanup_events (tempLockFiles st)
                    (mkWorld d1 (trace w ++ new1)))
          as [new2 [d2 [-> Hs2]]].
        cbn [disk trace] in *.
        pose proof (after_scan_unlinked _ Hs2) as Ha2.
        destruct (after_scan _ Ha2) as [Hok2 _].
        destruct (hasVulnerabilities st) eqn:Hv.
        -- rewrite report_events. unfold exit. cbn [disk trace].
           intros H. injection H as <- <-.
           exists (new1 ++ new2 ++ map Reported (allFindings st)), d2.
           split; [rewrite <- !app_assoc; reflexivity|].
           assert (Ha : forallb isAfterScan
                          (new2 ++ map Reported (allFindings st)) = true)
             by (rewrite forallb_app, Ha2; apply after_scan_reported).
           split.
           { rewrite existsb_app, (no_fatal_scan _ Hs1).
             apply no_fatal_after_scan, Ha. }
           cbn [bodyOutcome]. split.
           { rewrite existsb_app, Hok1. apply (after_scan _ Ha). }
           left. split; [reflexivity|].
           apply (malicious_after_scan _ _ Ha).
           destruct (proj1 Hhas eq_refl) as [T|Hm];
             [discriminate T | exact Hm].
        -- unfold exit. intros H. injection H as <- <-.
           exists (new1 ++ new2), d2.
           split; [rewrite <- !app_assoc; reflexivity|]. split.
           { rewrite existsb_app, (no_fatal_scan _ Hs1).
             apply no_fatal_after_scan, Ha2. }
           cbn [bodyOutcome]. split.
           { rewrite existsb_app, Hok1, Hok2. reflexivity. }
           right. split; [reflexivity|]. split.
           ++ rewrite (malicious_after_scan _ _ Ha2). intros Hm.
              assert (T : false = true) by (apply Hhas; right; exact Hm).
              discriminate T.
           ++ apply no_reported; assumption.
      * intros H. injection H as <- <-. exists new1, d1.
        split; [reflexivity|]. split; [apply no_fatal_scan, Hs1|].
        exact Ht1.
  - intros H. injection H as <- <-. exists [], (disk w).
    split; [apply world_eta|]. split; [reflexivity|]. left. reflexivity.
Qed.


Lemma existsb_false_In {A} (f : A -> bool) (l : list A) (a : A) :
  existsb f l = false -> In a l -> f a = false.
Proof.
  intros H Hin. destruct (f a) eqn:E; [|reflexivity].
  assert (T : existsb f l = true) by (apply existsb_exists; eauto).
  congruence.
Qed.

(** C4. If a request of the run meets a network error, or a reply that
    does not decode, the process exits with code 1: that request is the
    last thing the run does before it reports the fatal error, and every
    request before it was answered. *)
Theorem transport_failure_is_fatal (w : world) :
  exists new d,
    snd (main w) = mkWorld d (trace w ++ new) /\
    forall batch r,
      In (Post batch r) new -> decode r = None ->
      fst (main w) = 1%Z /\
      exists pre,
        new = pre ++ [Post batch r; FatalError] /\
        existsb failedPost pre = false.
Proof.
  unfold main. destruct (mainBody w) as [o w'] eqn:Hb.
  apply mainBody_events in Hb. destruct Hb as [new [d [-> [Hnf Hout]]]].
  assert (Hbad : forall l batch r,
             existsb failedPost l = false -> In (Post batch r) l ->
             decode r = None -> False).
  { intros l batch r Hl Hin Hr.
    pose proof (existsb_false_In _ _ _ Hl Hin) as T.
    cbn in T. rewrite Hr in T. discriminate T. }
  destruct o as [[]|e|code]; cbn [bodyOutcome fst snd disk trace] in *.
  - destruct Hout.
  - exists (new ++ [FatalError]), d.
    split; [rewrite app_assoc; reflexivity|].
    intros batch r Hin Hr. split; [reflexivity|].
    apply in_app_or in Hin. destruct Hin as [Hin|[T|[]]]; [|discriminate T].
    destruct Hout as [Hok | [pre [b [r' [-> [Hr' Hpre]]]]]].
    + destruct (Hbad _ _ _ Hok Hin Hr).
    + apply in_app_or in Hin. destruct Hin as [Hin|[E|[]]].
      * destruct (Hbad _ _ _ Hpre Hin Hr).
      * injection E as -> ->. exists pre. rewrite <- app_assoc.
        split; [reflexivity | exact Hpre].
  - exists new, d. split; [reflexivity|].
    intros batch r Hin Hr. destruct Hout as [Hok _].
    destruct (Hbad _ _ _ Hok Hin Hr).
Qed.

End Run.

(* ================================================================== *)
(** * Temporary lock files *)
(* ================================================================== *)

Section Temporary.

Context {X : Externals}.

Lemma dirname_pathJoin dir name : dirname (pathJoin dir name) = dir.
Proof. apply removelast_last. Qed.

Lemma basename_pathJoin dir name : basename (pathJoin dir name) = name.
Proof. apply last_last. Qed.

Lemma pathReplaceLockExt_pathJoin dir name :
  pathReplaceLockExt (pathJoin dir name) = pathJoin dir (replaceLockExt name).
Proof.
  unfold pathReplaceLockExt.
  rewrite dirname_pathJoin, basename_pathJoin.
  unfold pathJoin. destruct (dir ++ [name]) eqn:E; [|reflexivity].
  destruct dir; discriminate.
Qed.

(** The block of [main] that finds or generates the lock file schedules a
    file for deletion only if it is a yarn.lock that [generateLockFile]
    has just produced and no [yarn.json] lies beside it; a package-lock.json
    is never scheduled, since the path the twin test looks for is then the
    lock file itself. *)
Lemma only_yarn_lock_is_temporary packageJsonPath temp w found temp' w' :
  findOrGenerateLock packageJsonPath temp w = (Ret (found, temp'), w') ->
  temp' = temp \/
  (temp' = temp ++ [yarnLockOf packageJsonPath] /\
   found = Some (yarnLockOf packageJsonPath) /\
   hasLockFile (disk w) packageJsonPath = false /\
   exists_on (disk w') (yarnLockOf packageJsonPath) = true /\
   exists_on (disk w')
     (pathJoin (dirname packageJsonPath) "yarn.json") = false).
Proof.
  destruct (hasLockFile (disk w) packageJsonPath) eqn:Hlock.
  { rewrite (findOrGenerateLock_existing _ _ _ Hlock).
    intros H. injection H as _ <- _. left. reflexivity. }
  unfold findOrGenerateLock, bind, existsSync, ret.
  unfold hasLockFile, packageLockOf, yarnLockOf in Hlock.
  apply orb_false_iff in Hlock. destruct Hlock as [H1 H2].
  rewrite H1, H2.
  assert (Hlock : hasLockFile (disk w) packageJsonPath = false)
    by (unfold hasLockFile, packageLockOf, yarnLockOf; rewrite H1, H2;
        reflexivity).
  rewrite (generateLockFile_missing _ _ Hlock). cbv zeta.
  destruct (spawn NpmInstall (dirname packageJsonPath) (disk w))
    as [ok1 d1]. cbn [fst snd].
  destruct ok1.
  - destruct (exists_on d1 (packageLockOf packageJsonPath)) eqn:E.
    + unfold packageLockOf. rewrite pathReplaceLockExt_pathJoin.
      change (replaceLockExt "package-lock.json") with "package-lock.json".
      cbn [disk trace]. unfold packageLockOf in E. rewrite E. cbn [negb].
      intros H. injection H as _ <- _. left. reflexivity.
    + intros H. injection H as _ <- _. left. reflexivity.
  - destruct (spawn YarnInstall (dirname packageJsonPath) d1) as [ok2 d2].
    cbn [fst snd].
    destruct (ok2 && exists_on d2 (yarnLockOf packageJsonPath)) eqn:E.
    + apply andb_true_iff in E. destruct E as [_ E].
      unfold yarnLockOf. rewrite pathReplaceLockExt_pathJoin.
      change (replaceLockExt "yarn.lock") with "yarn.json".
      cbn [disk trace].
      destruct (exists_on d2 (pathJoin (dirname packageJsonPath) "yarn.json"))
        eqn:Etwin; cbn [negb]; intros H; injection H as <- <- <-.
      * left. reflexivity.
      * right. cbn [disk]. repeat split; assumption.
    + intros H. injection H as _ <- _. left. reflexivity.
Qed.

End Temporary.

(* ================================================================== *)
(** * Scenarios *)
(* ================================================================== *)

Module Scenario.

(** The disk with one more file in its root. *)
Definition addFile (name content : string) (d : node) : node :=
  match d with
  | Dir entries => Dir (entries ++ [(name, File content)])
  | other => other
  end.

Definition leftPad : lockData :=
  mkLockData None (Some [("", mkPkgInfo (Some "0.1.0"));
                         ("node_modules/left-pad", mkPkgInfo (Some "1.3.0"))]).

Definition noAdvisory : osvResponse := mkResponse (Some [mkResult None]).

(** npm writes a package-lock.json and exits normally, yarn is not
    installed, and the database knows of no advisory. *)
Definition npmWorks : Externals := {|
  spawn := fun c _ d =>
    match c with
    | NpmInstall => (true, addFile "package-lock.json" "lock" d)
    | YarnInstall => (false, d)
    end;
  transport := fun _ _ => Body "clean";
  JSON_parse_lock := fun _ => Some leftPad;
  JSON_parse_response := fun _ => Some noAdvisory;
  packageMatch := fun _ => None;
  versionMatch := fun _ => None
|}.

(** npm is not installed and yarn writes a yarn.lock that names a package
    and no version; a line of the lock file is a package header when it
    ends in a colon. *)
Definition yarnWorks : Externals := {|
  spawn := fun c _ d =>
    match c with
    | NpmInstall => (false, d)
    | YarnInstall => (true, addFile "yarn.lock" "left-pad@^1.3.0:" d)
    end;
  transport := fun _ _ => Body "clean";
  JSON_parse_lock := fun _ => None;
  JSON_parse_response := fun _ => Some noAdvisory;
  packageMatch := fun line =>
    if endsWith line ":" then Some "left-pad" else None;
  versionMatch := fun _ => None
|}.


(** A project with a manifest and no lock file. *)
Definition bareProject : world :=
  mkWorld (Dir [("package.json", File "manifest")]) [].

(** A project with a manifest and its package-lock.json. *)
Definition lockedProject : world :=
  mkWorld (Dir [("package.json", File "manifest");
                ("package-lock.json", File "lock")]) [].

(** The database cannot be reached. *)
Definition offline : Externals := {|
  spawn := fun _ _ d => (false, d);
  transport := fun _ _ => NetworkError;
  JSON_parse_lock := fun _ => Some leftPad;
  JSON_parse_response := fun _ => Some noAdvisory;
  packageMatch := fun _ => None;
  versionMatch := fun _ => None
|}.

(** The database answers with a body that is not JSON. *)
Definition garbled : Externals := {|
  spawn := fun _ _ d => (false, d);
  transport := fun _ _ => Body "<html>";
  JSON_parse_lock := fun _ => Some leftPad;
  JSON_parse_response := fun _ => None;
  packageMatch := fun _ => None;
  versionMatch := fun _ => None
|}.

(** The lock file lists colors-update 2.0.0, for which the database
    returns the advisory MAL-2024-1234. *)
Definition colorsUpdate : Externals := {|
  spawn := fun _ _ d => (false, d);
  transport := fun _ _ => Body "advisory";
  JSON_parse_lock := fun _ =>
    Some (mkLockData None
            (Some [("", mkPkgInfo (Some "1.0.0"));
                   ("node_modules/colors-update", mkPkgInfo (Some "2.0.0"))]));
  JSON_parse_response := fun _ =>
    Some (mkResponse
            (Some [mkResult
                     (Some [mkAdvisory (Some "MAL-2024-1234") None None])]));
  packageMatch := fun _ => None;
  versionMatch := fun _ => None
|}.

(** Neither npm nor yarn is installed. *)
Definition noTools : Externals := {|
  spawn := fun _ _ d => (false, d);
  transport := fun _ _ => Body "clean";
  JSON_parse_lock := fun _ => Some leftPad;
  JSON_parse_response := fun _ => Some noAdvisory;
  packageMatch := fun _ => None;
  versionMatch := fun _ => None
|}.

(** A network error ends the run with exit code 1. *)
Example offline_run :
  main (X := offline) lockedProject =
    (1%Z,
     mkWorld (disk lockedProject)
       [Post [mkQuery "left-pad" "npm" "1.3.0"] NetworkError; FatalError]).
Proof. reflexivity. Qed.

(** So does a reply that does not decode. *)
Example garbled_run :
  main (X := garbled) lockedProject =
    (1%Z,
     mkWorld (disk lockedProject)
       [Post [mkQuery "left-pad" "npm" "1.3.0"] (Body "<html>"); FatalError]).
Proof. reflexivity. Qed.

(** One malicious package: exit code 1 and one finding. *)
Example colorsUpdate_run :
  main (X := colorsUpdate) lockedProject =
    (1%Z,
     mkWorld (disk lockedProject)
       [Post [mkQuery "colors-update" "npm" "2.0.0"] (Body "advisory");
        Reported
          (mkFinding ["package.json"]
             (mkVulnerability (Some "colors-update") (Some "2.0.0")
                (Some "MAL-2024-1234") "Malicious package detected"))]).
Proof. reflexivity. Qed.

(** A manifest for which no lock file can be obtained is skipped, and the
    run ends with exit code 0. *)
Example noTools_run :
  main (X := noTools) bareProject =
    (0%Z,
     mkWorld (disk bareProject)
       [Exec NpmInstall [] false; Exec YarnInstall [] false]).
Proof. reflexivity. Qed.

(** A manifest whose package-lock.json does not decode is skipped as
    well: exit code 0, and nothing done. *)
Example undecodable_lock_run :
  main (X := yarnWorks) lockedProject = (0%Z, lockedProject).
Proof. reflexivity. Qed.

(** The database returns an advisory without id: the classifier throws,
    and the run ends with exit code 1. *)
Definition idlessAdvisory : Externals := {|
  spawn := fun _ _ d => (false, d);
  transport := fun _ _ => Body "advisory";
  JSON_parse_lock := fun _ => Some leftPad;
  JSON_parse_response := fun _ =>
    Some (mkResponse
            (Some [mkResult
                     (Some [mkAdvisory None None (Some "Denial of service")])]));
  packageMatch := fun _ => None;
  versionMatch := fun _ => None
|}.

Example idlessAdvisory_run :
  main (X := idlessAdvisory) lockedProject =
    (1%Z,
     mkWorld (disk lockedProject)
       [Post [mkQuery "left-pad" "npm" "1.3.0"] (Body "advisory");
        FatalError]).
Proof. reflexivity. Qed.

(** No manifest: exit code 0 and nothing done. *)
Example empty_run :
  main (X := noTools) (mkWorld (Dir [("README.md", File "")]) []) =
    (0%Z, mkWorld (Dir [("README.md", File "")]) []).
Proof. reflexivity. Qed.

End Scenario.

(** C1, where the code departs from it.  In a project without lock file,
    the run has npm generate a package-lock.json, uses it, and ends without
    deleting it: the file the run itself created is still on disk and
    nothing was unlinked.  In the same project with yarn in place of npm,
    the generated yarn.lock is deleted at the end of the run. *)
Theorem generated_package_lock_survives :
  hasLockFile (disk Scenario.bareProject) ["package.json"] = false /\
  main (X := Scenario.npmWorks) Scenario.bareProject =
    (0%Z,
     mkWorld (Dir [("package.json", File "manifest");
                   ("package-lock.json", File "lock")])
       [Exec NpmInstall [] true;
        Post [mkQuery "left-pad" "npm" "1.3.0"] (Body "clean")]) /\
  main (X := Scenario.yarnWorks) Scenario.bareProject =
    (0%Z,
     mkWorld (Dir [("package.json", File "manifest")])
       [Exec NpmInstall [] false; Exec YarnInstall [] true;
        Unlinked ["yarn.lock"]]).
Proof. repeat split. Qed.




Lemma resolver_idempotent_witness :
  hasLockFile (disk Scenario.lockedProject) ["package.json"] = true /\
  (times 3 (generateLockFile (X := Scenario.npmWorks) ["package.json"])
     Scenario.lockedProject =
     (repeat (Ret (Some ["package-lock.json"])) 3, Scenario.lockedProject) /\
   times 3 (findOrGenerateLock (X := Scenario.npmWorks) ["package.json"] [])
     Scenario.lockedProject =
     (repeat (Ret (Some ["package-lock.json"], [])) 3,
      Scenario.lockedProject) /\
   exists_on (disk Scenario.lockedProject) ["package-lock.json"] = true).
Proof.
  split; [reflexivity|].
  apply (resolver_idempotent (X := Scenario.npmWorks)
           ["package.json"] [] Scenario.lockedProject 3).
  reflexivity.
Defined.

Module Monorepo.

(** A repository with a root manifest, a package below [packages], an
    installed dependency and a hidden directory. *)
Definition entries : list (string * node) :=
  [("package.json", File "root");
   ("node_modules",
    Dir [("left-pad", Dir [("package.json", File "dependency")])]);
   (".git", Dir [("package.json", File "hidden")]);
   ("packages",
    Dir [("web", Dir [("package.json", File "web");
                      ("index.js", File "code")])])].

End Monorepo.

Lemma findPackageJsonFiles_spec_witness :
  readable (Dir Monorepo.entries) = true /\
  (findPackageJsonFiles [] (Dir Monorepo.entries) [] =
     Some [["package.json"]; ["packages"; "web"; "package.json"]] /\
   (forall p,
       In p (manifestsUnder [] (Dir Monorepo.entries)) <->
       fileAt (Dir Monorepo.entries) p /\ basename p = "package.json" /\
       Forall (fun name => skipped name = false) (dirname p))).
Proof.
  split; [reflexivity|].
  apply (findPackageJsonFiles_spec Monorepo.entries).
  reflexivity.
Defined.

Module VersionlessLock.

(** A lock file in the format of lockfile version 2, which has both
    objects.  In the [dependencies] tree the top-level node fsevents has
    no version and nests a node that has one; in [packages] neither the
    root entry nor the entry of foo has a version. *)
Definition data : lockData :=
  mkLockData
    (Some [("fsevents",
            DepInfo None
              (Some [("nan", DepInfo (Some "2.14.0") None)]))])
    (Some [("", mkPkgInfo None);
           ("node_modules/foo", mkPkgInfo None)]).

Definition decoder : Externals := {|
  spawn := fun _ _ d => (false, d);
  transport := fun _ _ => NetworkError;
  JSON_parse_lock := fun _ => Some data;
  JSON_parse_response := fun _ => None;
  packageMatch := fun _ => None;
  versionMatch := fun _ => None
|}.

End VersionlessLock.

Module NestedLock.

(** A lock file in the format of lockfile version 3 of a project without
    version: the root entry has none, and neither has the entry of b,
    which is installed below a. *)
Definition data : lockData :=
  mkLockData None
    (Some [("", mkPkgInfo None);
           ("node_modules/a/node_modules/b", mkPkgInfo None)]).

Definition decoder : Externals := {|
  spawn := fun _ _ d => (false, d);
  transport := fun _ _ => NetworkError;
  JSON_parse_lock := fun _ => Some data;
  JSON_parse_response := fun _ => None;
  packageMatch := fun _ => None;
  versionMatch := fun _ => None
|}.

End NestedLock.




(** On that lock file the parser records the two nodes without version
    under "unknown", the nested node under its version, and skips the root
    entry. *)
Example versionless_lock_parsed :
  parsePackageLock (X := VersionlessLock.decoder) ["package-lock.json"]
    Scenario.lockedProject =
    (Ret [("fsevents", "unknown"); ("nan", "2.14.0"); ("foo", "unknown")],
     Scenario.lockedProject).
Proof. reflexivity. Qed.

(** The last write wins: a node without version whose name is borne by a
    node recorded later ends up under the version of the latter. *)
Example versionless_node_overwritten :
  collectDeps
    (mkLockData
       (Some [("foo", DepInfo None None)])
       (Some [("node_modules/foo", mkPkgInfo (Some "1.0.0"))]))
  = [("foo", "1.0.0")].
Proof. reflexivity. Qed.

Module Echo.

Fixpoint dots (n : nat) : string :=
  match n with
  | 0 => EmptyString
  | S n' => String "."%char (dots n')
  end.

(** A database that answers every request with one empty result per
    query: the body has one character per query, and decoding a body
    yields one result per character. *)
Definition server : Externals := {|
  spawn := fun _ _ d => (false, d);
  transport := fun _ batch => Body (dots (List.length batch));
  JSON_parse_lock := fun _ => None;
  JSON_parse_response := fun body =>
    Some (mkResponse (Some (repeat (mkResult None) (String.length body))));
  packageMatch := fun _ => None;
  versionMatch := fun _ => None
|}.

Lemma dots_length n : String.length (dots n) = n.
Proof. induction n as [|n IH]; [reflexivity | simpl; rewrite IH; reflexivity]. Qed.

Lemma server_positional : positional (X := server).
Proof.
  intros t batch. eexists. split; [reflexivity|].
  cbn. rewrite repeat_length. apply dots_length.
Qed.

Definition dependencies : JsMap.t :=
  [("left-pad", "1.3.0"); ("colors", "1.4.0")].

Definition emptyWorld : world := mkWorld (Dir []) [].

End Echo.

Lemma queryOSV_positional_witness :
  positional (X := Echo.server) /\
  exists batches replies,
    queryOSV (X := Echo.server) Echo.dependencies Echo.emptyWorld =
      (Ret (List.concat (map (slotsOf (X := Echo.server)) replies)),
       mkWorld (disk Echo.emptyWorld)
         (trace Echo.emptyWorld ++ posts batches replies)) /\
    List.length batches = batchCount (JsMap.size Echo.dependencies) /\
    List.concat batches = map toQuery Echo.dependencies /\
    List.length (List.concat (map (slotsOf (X := Echo.server)) replies)) =
      JsMap.size Echo.dependencies.
Proof.
  split; [exact Echo.server_positional|].
  destruct (queryOSV_positional (X := Echo.server) Echo.dependencies
              Echo.emptyWorld Echo.server_positional)
    as [batches [replies [H1 [H2 [_ [H3 [H4 _]]]]]]].
  exists batches, replies. repeat split; assumption.
Defined.

(* ================================================================== *)
(** * Further properties: the walk *)
(* ================================================================== *)

Lemma findPackageJsonFiles_unreadable (n : node) :
  forall dir files,
    isDirectory n = true ->
    readable n = false ->
    findPackageJsonFiles dir n files = None.
Proof.
  induction n as [content| |entries IH] using node_induction;
    intros dir files Hd Hr; try discriminate; [reflexivity|].
  simpl in Hr. simpl. clear Hd.
  revert files. induction entries as [|[name entry] es IHes]; intros files.
  - discriminate Hr.
  - inversion IH as [|? ? IHentry IHrest]; subst. simpl in IHentry.
    simpl in Hr. apply andb_false_iff in Hr.
    destruct (skipped name) eqn:Hs.
    + destruct Hr as [Hr|Hr]; [discriminate Hr|]. apply IHes; assumption.
    + simpl in Hr. destruct (isDirectory entry) eqn:He.
      * destruct (readable entry) eqn:Hre.
        -- rewrite (findPackageJsonFiles_manifestsUnder entry _ _ He Hre).
           destruct Hr as [Hr|Hr]; [discriminate Hr|]. apply IHes; assumption.
        -- rewrite (IHentry _ _ eq_refl eq_refl). reflexivity.
      * assert (Hre : readable entry = true)
          by (destruct entry; [reflexivity | discriminate | discriminate]).
        rewrite Hre in Hr. destruct Hr as [Hr|Hr]; [discriminate Hr|].
        destruct (String.eqb name "package.json"); apply IHes; assumption.
Qed.

(** X1. The walk of a directory throws exactly when one of the
    directories it enters cannot be read; a directory that cannot be read
    does no harm when it is skipped.  When the walk throws nothing is
    returned, whatever was found before; otherwise the manifests found are
    appended, in order, to the array passed in. *)
Theorem findPackageJsonFiles_outcome
  (dir : path) (entries : list (string * node)) (files : list path) :
  findPackageJsonFiles dir (Dir entries) files =
    if readable (Dir entries)
    then Some (files ++ manifestsUnder dir (Dir entries))
    else None.
Proof.
  destruct (readable (Dir entries)) eqn:Hr.
  - apply (findPackageJsonFiles_manifestsUnder (Dir entries) _ _ eq_refl Hr).
  - apply (findPackageJsonFiles_unreadable (Dir entries) _ _ eq_refl Hr).
Qed.

(* ================================================================== *)
(** * Further properties: the lock resolver *)
(* ================================================================== *)

Section ResolverFacts.

Context {X : Externals}.

Lemma lock_paths_differ packageJsonPath :
  packageLockOf packageJsonPath <> yarnLockOf packageJsonPath.
Proof.
  unfold packageLockOf, yarnLockOf, pathJoin. intros H.
  apply app_inj_tail in H. destruct H as [_ H]. discriminate H.
Qed.

(** X2. [generateLockFile] never throws, whatever the package managers
    do: it returns after running no command, npm alone, or npm then yarn.
    A path it returns is one of the two lock files beside the manifest and
    exists on disk when it returns.  It returns the package-lock.json only
    if that file was there already or npm exited normally; after a failed
    npm run a package-lock.json is never returned, even if npm wrote
    one. *)
Theorem generateLockFile_returns (packageJsonPath : path) (w : world) :
  exists result new d,
    generateLockFile packageJsonPath w =
      (Ret result, mkWorld d (trace w ++ new)) /\
    (new = [] /\ d = disk w \/
     new = [Exec NpmInstall (dirname packageJsonPath) true] \/
     exists ok,
       new = [Exec NpmInstall (dirname packageJsonPath) false;
              Exec YarnInstall (dirname packageJsonPath) ok]) /\
    (forall p, result = Some p ->
       (p = packageLockOf packageJsonPath \/ p = yarnLockOf packageJsonPath) /\
       exists_on d p = true) /\
    (result = Some (packageLockOf packageJsonPath) ->
     new = [] \/ new = [Exec NpmInstall (dirname packageJsonPath) true]).
Proof.
  destruct (hasLockFile (disk w) packageJsonPath) eqn:H.
  - rewrite (generateLockFile_existing _ _ H).
    exists (Some (existingLock (disk w) packageJsonPath)), [], (disk w).
    split; [f_equal; apply world_eta|]. split; [left; auto|]. split.
    + intros p Hp. injection Hp as <-. unfold existingLock.
      unfold hasLockFile in H.
      destruct (exists_on (disk w) (packageLockOf packageJsonPath)) eqn:E;
        [split; [left; reflexivity | exact E]
        | split; [right; reflexivity | exact H]].
    + intros _. left. reflexivity.
  - rewrite (generateLockFile_missing _ _ H). cbv zeta.
    destruct (spawn NpmInstall (dirname packageJsonPath) (disk w))
      as [ok1 d1]. cbn [fst snd].
    destruct ok1.
    + do 3 eexists. split; [reflexivity|]. split; [right; left; reflexivity|].
      split.
      * intros p Hp.
        destruct (exists_on d1 (packageLockOf packageJsonPath)) eqn:E;
          [|discriminate]. injection Hp as <-. split; [left; reflexivity | exact E].
      * intros _. right. reflexivity.
    + destruct (spawn YarnInstall (dirname packageJsonPath) d1) as [ok2 d2].
      cbn [fst snd].
      do 3 eexists. split; [reflexivity|].
      split; [right; right; exists ok2; reflexivity|]. split.
      * intros p Hp.
        destruct (ok2 && exists_on d2 (yarnLockOf packageJsonPath)) eqn:E;
          [|discriminate]. injection Hp as <-.
        apply andb_true_iff in E. destruct E as [_ E].
        split; [right; reflexivity | exact E].
      * intros Hp. exfalso.
        destruct (ok2 && exists_on d2 (yarnLockOf packageJsonPath));
          [|discriminate]. injection Hp as Hp.
        exact (lock_paths_differ packageJsonPath (eq_sym Hp)).
Qed.

End ResolverFacts.

(* ================================================================== *)
(** * Further properties: the dependency map of a package-lock.json *)
(* ================================================================== *)

(** The names of a list, each at the place of its first occurrence. *)
Definition addKey (acc : list string) (k : string) : list string :=
  if existsb (String.eqb k) acc then acc else acc ++ [k].

Definition firstOccurrences (names : list string) : list string :=
  fold_left addKey names [].

Lemma existsb_eqb_In (k : string) (l : list string) :
  existsb (String.eqb k) l = true <-> In k l.
Proof.
  rewrite existsb_exists. split.
  - intros [x [Hin E]]. apply String.eqb_eq in E. subst x. exact Hin.
  - intros Hin. exists k. split; [exact Hin | apply String.eqb_refl].
Qed.

Lemma keys_set (k v : string) (m : JsMap.t) :
  JsMap.keys (JsMap.set k v m) = addKey (JsMap.keys m) k.
Proof.
  unfold addKey. induction m as [|[a b] m IH]; [reflexivity|].
  cbn [JsMap.set JsMap.keys map fst existsb].
  rewrite (String.eqb_sym k a).
  destruct (String.eqb a k) eqn:E; cbn [orb JsMap.keys map fst].
  - apply String.eqb_eq in E. subst a. reflexivity.
  - fold (JsMap.keys m). fold (JsMap.keys (JsMap.set k v m)). rewrite IH.
    destruct (existsb (String.eqb k) (JsMap.keys m)); reflexivity.
Qed.

Lemma addKey_NoDup (acc : list string) (k : string) :
  NoDup acc -> NoDup (addKey acc k).
Proof.
  intros H. unfold addKey.
  destruct (existsb (String.eqb k) acc) eqn:E; [exact H|].
  apply NoDup_app; [exact H | constructor; [intros [] | constructor] |].
  intros a Ha [<-|[]]. apply existsb_eqb_In in Ha. congruence.
Qed.

Lemma keys_record (visits : list (string * option string)) :
  forall m,
    JsMap.keys (fold_left record visits m) =
    fold_left addKey (map fst visits) (JsMap.keys m).
Proof.
  induction visits as [|[n v] rest IH]; intros m; [reflexivity|].
  cbn [fold_left map fst]. rewrite IH. unfold record. cbn [fst snd].
  rewrite keys_set. reflexivity.
Qed.

Lemma fold_addKey_NoDup (names : list string) :
  forall acc, NoDup acc -> NoDup (fold_left addKey names acc).
Proof.
  induction names as [|k rest IH]; intros acc H; [exact H|].
  cbn [fold_left]. apply IH, addKey_NoDup, H.
Qed.

Lemma collectDeps_NoDup (data : lockData) :
  NoDup (JsMap.keys (collectDeps data)).
Proof.
  rewrite collectDeps_visits, keys_record.
  apply fold_addKey_NoDup. constructor.
Qed.

(** X3. The keys of the map [parsePackageLock] builds are the names of
    the nodes it records, each once, in the order in which the names first
    occur: a name recorded again keeps its place.  This is the order in
    which [queryOSV] sends the queries. *)
Theorem collectDeps_keys (data : lockData) :
  JsMap.keys (collectDeps data) =
    firstOccurrences (map fst (visitOrder data)) /\
  NoDup (JsMap.keys (collectDeps data)).
Proof.
  rewrite collectDeps_visits, keys_record. split; [reflexivity|].
  apply fold_addKey_NoDup. constructor.
Qed.

(** X4. The last write wins: the map [parsePackageLock] builds holds [v]
    for a name exactly when the last node recorded under that name has the
    version [v], or has no version (or an empty one) and [v] is
    "unknown".  A name that no recorded node bears is not in the map. *)
Theorem collectDeps_last_write (data : lockData) (name v : string) :
  JsMap.get name (collectDeps data) = Some v <->
  exists before ver after,
    visitOrder data = before ++ (name, ver) :: after /\
    ~ In name (map fst after) /\ v = orElse ver "unknown".
Proof.
  rewrite collectDeps_visits. split.
  - intros H. apply get_record_last in H.
    destruct H as [[_ H]|H]; [discriminate H | exact H].
  - intros [before [ver [after [-> [Hnot ->]]]]].
    rewrite fold_left_app. cbn [fold_left].
    rewrite get_record_other by exact Hnot.
    unfold record. cbn [fst snd]. rewrite get_set, String.eqb_refl.
    reflexivity.
Qed.

(** X5. A name is a key of the map [parsePackageLock] builds exactly when
    it is the name of a node of the [dependencies] tree, at any depth, or
    the name left of a retained key of [packages].  A retained key is the
    name itself or the name after [node_modules/]; the name is not empty
    and does not contain [node_modules], so that the root entry and the
    entries nested below another package's [node_modules] are never
    recorded. *)
Theorem collectDeps_keys_origin (data : lockData) (name : string) :
  (In name (JsMap.keys (collectDeps data)) <->
   (exists l info, lock_dependencies data = Some l /\ nodeIn l name info) \/
   (exists packages key info,
       lock_packages data = Some packages /\ In (key, info) packages /\
       retained key = true /\ stripNodeModules key = name)) /\
  (forall key,
      retained key = true ->
      stripNodeModules key <> EmptyString /\
      includes (stripNodeModules key) "node_modules" = false /\
      (key = stripNodeModules key \/
       key = String.append "node_modules/" (stripNodeModules key))) /\
  retained EmptyString = false /\
  (forall outer inner,
      retained (String.append "node_modules/"
                  (String.append outer
                     (String.append "/node_modules/" inner))) = false).
Proof.
  split; [|split; [|split]].
  - split.
    + intros H. apply keys_get in H.
      destruct (JsMap.get name (collectDeps data)) as [v|] eqn:E;
        [|congruence]. clear H.
      rewrite collectDeps_visits in E. apply get_record_last in E.
      destruct E as [[_ E] | [before [ver [after [Hv _]]]]];
        [discriminate E|].
      assert (Hin : In (name, ver) (visitOrder data))
        by (rewrite Hv; apply in_or_app; right; left; reflexivity).
      unfold visitOrder in Hin. apply in_app_or in Hin.
      destruct Hin as [Hin|Hin].
      * left. destruct (lock_dependencies data) as [l|]; [|destruct Hin].
        apply nestedVisits_sound in Hin.
        destruct Hin as [sub [node [Hsub [Hnode _]]]].
        cbn [dep_dependencies] in Hsub. injection Hsub as <-.
        exists l, node. split; [reflexivity | exact Hnode].
      * right. destruct (lock_packages data) as [packages|]; [|destruct Hin].
        unfold packageVisits in Hin. apply in_flat_map in Hin.
        destruct Hin as [[key info] [Hin H]]. cbn [fst snd] in H.
        destruct (retained key) eqn:Hr; [|destruct H].
        destruct H as [E|[]]. injection E as E _.
        exists packages, key, info. repeat split; assumption.
    + intros H. apply keys_get.
      assert (Hin : exists ver, In (name, ver) (visitOrder data)).
      { destruct H as [[l [info [Hl Hn]]] | [p [key [info [Hp [Hin [Hr <-]]]]]]].
        - eexists. apply (proj1 (visitOrder_complete data) _ _ _ Hl Hn).
        - eexists. apply (proj2 (visitOrder_complete data) _ _ _ Hp Hin Hr). }
      destruct Hin as [ver Hin]. rewrite collectDeps_visits.
      apply in_split in Hin. destruct Hin as [before [after ->]].
      rewrite fold_left_app. cbn [fold_left]. apply get_record_kept.
      unfold record. cbn [fst snd]. rewrite get_set, String.eqb_refl.
      discriminate.
  - intros key Hr. unfold retained in Hr.
    apply andb_true_iff in Hr. destruct Hr as [_ Hr].
    apply andb_true_iff in Hr. destruct Hr as [Hname Hclean].
    split; [intros E; rewrite E in Hname; discriminate Hname|].
    split; [apply negb_true_iff; exact Hclean|].
    apply stripNodeModules_cases.
  - reflexivity.
  - intros outer inner. unfold retained.
    assert (S : stripNodeModules
                  (String.append "node_modules/"
                     (String.append outer
                        (String.append "/node_modules/" inner)))
                = String.append outer (String.append "/node_modules/" inner))
      by reflexivity.
    rewrite S.
    assert (E : includes
                  (String.append outer (String.append "/node_modules/" inner))
                  "node_modules" = true).
    { apply includes_spec.
      exists (String.append outer "/"), (String.append "/" inner).
      clear. induction outer as [|c outer IH]; [reflexivity|].
      simpl in *. f_equal. exact IH. }
    rewrite E. cbn [negb]. rewrite andb_false_r, andb_false_r. reflexivity.
Qed.

(* ================================================================== *)
(** * Further properties: the scan of the results *)
(* ================================================================== *)

(** Some advisory of the slots has no id. *)
Definition idless (slots : list osvResult) : Prop :=
  exists slot vs vuln,
    In slot slots /\ vulns slot = Some vs /\ In vuln vs /\ vuln_id vuln = None.

(** The ids of the advisories of the slots that are classified malicious,
    in order. *)
Definition maliciousIds (slots : list osvResult) : list (option string) :=
  flat_map
    (fun slot =>
       match vulns slot with
       | Some vs =>
           flat_map
             (fun vuln =>
                match isMalicious vuln with
                | Some true => [vuln_id vuln]
                | _ => []
                end) vs
       | None => []
       end) slots.

Lemma isMalicious_None (vuln : advisory) :
  isMalicious vuln = None <-> vuln_id vuln = None.
Proof.
  unfold isMalicious. destruct (vuln_id vuln); split; congruence.
Qed.

Lemma scanVulns_None packageName dependencies vs :
  forall st,
    scanVulns packageName dependencies vs st = None <->
    exists vuln, In vuln vs /\ vuln_id vuln = None.
Proof.
  induction vs as [|vuln rest IH]; intros st; cbn [scanVulns].
  - split; [discriminate | intros [v [[] _]]].
  - destruct (isMalicious vuln) as [[|]|] eqn:E.
    + rewrite IH. split.
      * intros [v [Hin Hv]]. exists v. split; [right; exact Hin | exact Hv].
      * intros [v [[<-|Hin] Hv]].
        -- apply isMalicious_None in Hv. congruence.
        -- exists v. split; assumption.
    + rewrite IH. split.
      * intros [v [Hin Hv]]. exists v. split; [right; exact Hin | exact Hv].
      * intros [v [[<-|Hin] Hv]].
        -- apply isMalicious_None in Hv. congruence.
        -- exists v. split; assumption.
    + split; [|reflexivity]. intros _. exists vuln.
      split; [left; reflexivity | apply isMalicious_None; exact E].
Qed.

Lemma idless_cons slot slots :
  idless (slot :: slots) <->
  (exists vs vuln, vulns slot = Some vs /\ In vuln vs /\ vuln_id vuln = None)
  \/ idless slots.
Proof.
  unfold idless. split.
  - intros [s [vs [v [[<-|Hin] H]]]].
    + left. exists vs, v. exact H.
    + right. exists s, vs, v. split; assumption.
  - intros [[vs [v H]] | [s [vs [v [Hin H]]]]].
    + exists slot, vs, v. split; [left; reflexivity | exact H].
    + exists s, vs, v. split; [right; exact Hin | exact H].
Qed.

Lemma idless_app l1 l2 : idless (l1 ++ l2) <-> idless l1 \/ idless l2.
Proof.
  unfold idless. split.
  - intros [s [vs [v [Hin H]]]]. apply in_app_or in Hin.
    destruct Hin; [left | right]; exists s, vs, v; split; assumption.
  - intros [[s [vs [v [Hin H]]]] | [s [vs [v [Hin H]]]]]; exists s, vs, v;
      (split; [apply in_or_app; auto | exact H]).
Qed.

Lemma scanResults_None packagesArray dependencies (rs : list osvResult) :
  forall i st,
    scanResults packagesArray dependencies i rs st = None <-> idless rs.
Proof.
  induction rs as [|r rest IH]; intros i st; cbn [scanResults].
  - split; [discriminate | intros [s [_ [_ [[] _]]]]].
  - rewrite idless_cons. destruct r as [[vs|]]; cbn [vulns].
    + destruct (0 <? List.length vs) eqn:E.
      * destruct (scanVulns (nth_error packagesArray i) dependencies vs st)
          as [st1|] eqn:E1.
        -- rewrite IH. split; [auto|]. intros [[vs' [v [Hvs Hv]]]|H]; [|exact H].
           injection Hvs as <-.
           assert (T : scanVulns (nth_error packagesArray i) dependencies
                         vs st = None)
             by (apply scanVulns_None; exists v; exact Hv).
           congruence.
        -- split; [|reflexivity]. intros _. left.
           apply scanVulns_None in E1. destruct E1 as [v Hv].
           exists vs, v. split; [reflexivity | exact Hv].
      * destruct vs; [|discriminate]. rewrite IH. split; [auto|].
        intros [[vs' [v [Hvs [Hin _]]]]|H]; [|exact H].
        injection Hvs as <-. destruct Hin.
    + rewrite IH. split; [auto|].
      intros [[vs' [v [Hvs _]]]|H]; [discriminate | exact H].
Qed.

(** X6. The scan of the results throws exactly when some advisory of some
    slot has no id, wherever it stands: advisories before it, malicious or
    not, do not prevent the failure, and the findings collected so far are
    lost with it. *)
Theorem scanResults_throws packagesArray dependencies (rs : list osvResult) :
  forall i st,
    scanResults packagesArray dependencies i rs st = None <-> idless rs.
Proof. exact (scanResults_None packagesArray dependencies rs). Qed.

Lemma slotFindings_ids packageName dependencies slot :
  map v_id (slotFindings packageName dependencies slot) = maliciousIds [slot].
Proof.
  unfold maliciousIds, slotFindings. cbn [flat_map]. rewrite app_nil_r.
  destruct (vulns slot) as [vs|]; [|reflexivity].
  induction vs as [|vuln rest IH]; [reflexivity|].
  cbn [flat_map]. rewrite map_app, IH.
  destruct (isMalicious vuln) as [[|]|]; reflexivity.
Qed.

Lemma maliciousIds_app l1 l2 :
  maliciousIds (l1 ++ l2) = maliciousIds l1 ++ maliciousIds l2.
Proof. apply flat_map_app. Qed.

Lemma findings_ids packagesArray dependencies rs :
  forall indices,
    List.length indices = List.length rs ->
    map v_id
      (flat_map
         (fun ir => slotFindings (nth_error packagesArray (fst ir))
                      dependencies (snd ir))
         (combine indices rs)) = maliciousIds rs.
Proof.
  induction rs as [|r rest IH]; intros indices Hlen.
  - destruct indices; reflexivity.
  - destruct indices as [|i indices]; [discriminate|].
    cbn [combine flat_map fst snd]. rewrite map_app, slotFindings_ids.
    rewrite IH by (injection Hlen as Hlen; exact Hlen).
    change (r :: rest) with ([r] ++ rest). rewrite maliciousIds_app.
    reflexivity.
Qed.

Lemma get_nth_NoDup (deps : JsMap.t) :
  NoDup (JsMap.keys deps) ->
  forall i name version,
    nth_error deps i = Some (name, version) ->
    JsMap.get name deps = Some version.
Proof.
  induction deps as [|[k v] rest IH]; intros Hnd i name version Hi.
  - destruct i; discriminate.
  - cbn [JsMap.keys map fst] in Hnd. inversion Hnd as [|? ? Hnot Hrest]; subst.
    destruct i as [|i]; cbn [nth_error] in Hi.
    + injection Hi as -> ->. cbn [JsMap.get]. rewrite String.eqb_refl.
      reflexivity.
    + cbn [JsMap.get]. destruct (String.eqb k name) eqn:E.
      * apply String.eqb_eq in E. subst k. exfalso. apply Hnot.
        apply nth_error_In in Hi.
        change name with (fst (name, version)). apply in_map. exact Hi.
      * apply (IH Hrest i). exact Hi.
Qed.

Lemma nth_error_indexed {A} (rs : list A) :
  forall start i r,
    nth_error rs i = Some r ->
    nth_error (combine (seq start (List.length rs)) rs) i
      = Some (start + i, r).
Proof.
  induction rs as [|a rest IH]; intros start i r H.
  - destruct i; discriminate H.
  - cbn [List.length seq combine]. destruct i as [|i]; cbn [nth_error] in *.
    + injection H as <-. rewrite Nat.add_0_r. reflexivity.
    + rewrite (IH (S start) i r H). rewrite Nat.add_succ_r. reflexivity.
Qed.

(** X7. In a map whose keys are unique, as the parsers build them, the
    scan attributes every result slot to the entry of the map that stands
    at the index of the slot.  The vulnerabilities collected are those of
    slot 0, then those of slot 1, and so on; those of slot [i] are one per
    advisory of that slot classified malicious, in order, and each carries
    the name and the version of entry [i] of the map, or neither when the
    map has no entry [i] because the database returned more slots than
    there are packages.  A finding never carries the name or the version
    of an entry at another index. *)
Theorem scanResults_attribution (dependencies : JsMap.t)
  (rs : list osvResult) (st st' : list vulnerability * bool) :
  NoDup (JsMap.keys dependencies) ->
  scanResults (JsMap.keys dependencies) dependencies 0 rs st = Some st' ->
  exists perSlot : list (list vulnerability),
    fst st' = fst st ++ List.concat perSlot /\
    List.length perSlot = List.length rs /\
    forall i r,
      nth_error rs i = Some r ->
      exists found,
        nth_error perSlot i = Some found /\
        map v_id found = maliciousIds [r] /\
        forall v, In v found ->
          v_package v = option_map fst (nth_error dependencies i) /\
          v_version v = option_map snd (nth_error dependencies i).
Proof.
  intros Hnd Hs. apply scanResults_findings in Hs. destruct Hs as [Hf _].
  exists (map (fun ir => slotFindings
                           (nth_error (JsMap.keys dependencies) (fst ir))
                           dependencies (snd ir))
            (combine (seq 0 (List.length rs)) rs)).
  split; [rewrite <- flat_map_concat_map; exact Hf|].
  split; [rewrite length_map, length_combine, length_seq; apply Nat.min_id|].
  intros i r Hi.
  exists (slotFindings (nth_error (JsMap.keys dependencies) i) dependencies r).
  split.
  { rewrite nth_error_map, (nth_error_indexed rs 0 i Hi). reflexivity. }
  split; [apply slotFindings_ids|].
  intros v Hv. unfold slotFindings in Hv.
  destruct (vulns r) as [vs|]; [|destruct Hv].
  apply in_flat_map in Hv. destruct Hv as [vuln [_ Hv]].
  destruct (isMalicious vuln) as [[|]|];
    [|exfalso; exact Hv|exfalso; exact Hv].
  destruct Hv as [<-|[]]. cbn [v_package v_version].
  unfold JsMap.keys. rewrite nth_error_map.
  destruct (nth_error dependencies i) as [[name version]|] eqn:E.
  - cbn [option_map fst snd versionOf]. split; [reflexivity|].
    apply (@get_nth_NoDup dependencies Hnd i). exact E.
  - split; reflexivity.
Qed.

(* ================================================================== *)
(** * Further properties: one manifest *)
(* ================================================================== *)

Section ManifestFacts.

Context {X : Externals}.

Lemma set_NoDup (k v : string) (m : JsMap.t) :
  NoDup (JsMap.keys m) -> NoDup (JsMap.keys (JsMap.set k v m)).
Proof. intros H. rewrite keys_set. apply addKey_NoDup, H. Qed.

Lemma scanYarnLines_NoDup (lines : list string) :
  forall currentPackage deps,
    NoDup (JsMap.keys deps) ->
    NoDup (JsMap.keys (scanYarnLines lines currentPackage deps)).
Proof.
  induction lines as [|line rest IH]; intros cur deps H; cbn [scanYarnLines];
    [exact H|].
  destruct (packageMatch line); [apply IH, H|].
  destruct cur as [current|]; [|apply IH, H].
  destruct (truthy current && includes line "version"); [|apply IH, H].
  destruct (versionMatch line); [|apply IH, H].
  apply IH, set_NoDup, H.
Qed.

(** The lock file at [lockFile] cannot be parsed: nothing can be read
    there, or it is a package-lock.json that does not decode. *)
Definition unparsable (d : node) (lockFile : path) : Prop :=
  (forall content, lookup lockFile d <> Some (File content)) \/
  (pathEndsWith lockFile "package-lock.json" = true /\
   exists content,
     lookup lockFile d = Some (File content) /\
     JSON_parse_lock content = None).

Lemma parseDependencies_detail lockFile w :
  exists parsed,
    parseDependencies lockFile w = (Ret parsed, w) /\
    (forall deps, parsed = Some deps -> NoDup (JsMap.keys deps)) /\
    (parsed = None <-> unparsable (disk w) lockFile).
Proof.
  unfold parseDependencies, parsePackageLock, parseYarnLock, unparsable.
  unfold tryCatch, bind, readFileSync, ret, throw.
  destruct (pathEndsWith lockFile "package-lock.json") eqn:He;
    destruct (lookup lockFile (disk w)) as [[content| |]|] eqn:Hl;
    try (eexists; split; [reflexivity|]; split; [discriminate|];
         split; [|reflexivity]; intros _; left; discriminate).
  - destruct (JSON_parse_lock content) as [data|] eqn:Hj.
    + eexists. split; [reflexivity|]. split.
      * intros deps E. injection E as <-. apply collectDeps_NoDup.
      * split; [discriminate|].
        intros [H|[_ [c [Hc Hn]]]]; [destruct (H content eq_refl)|].
        injection Hc as <-. congruence.
    + eexists. split; [reflexivity|]. split; [discriminate|].
      split; [|reflexivity]. intros _. right. split; [reflexivity|].
      exists content. split; [reflexivity | exact Hj].
  - eexists. split; [reflexivity|]. split.
    + intros deps E. injection E as <-.
      apply scanYarnLines_NoDup. constructor.
    + split; [discriminate|].
      intros [H|[T _]]; [destruct (H content eq_refl) | discriminate T].
Qed.

Lemma findOrGenerateLock_detail packageJsonPath temp w :
  exists found temp' ne d,
    findOrGenerateLock packageJsonPath temp w =
      (Ret (found, temp'), mkWorld d (trace w ++ ne)) /\
    (forall e, In e ne ->
       exists c ok, e = Exec c (dirname packageJsonPath) ok) /\
    (hasLockFile (disk w) packageJsonPath = true ->
     ne = [] /\ d = disk w /\ temp' = temp /\
     found = Some (existingLock (disk w) packageJsonPath)) /\
    (temp' = temp \/
     temp' = temp ++ [yarnLockOf packageJsonPath] /\
     In (Exec YarnInstall (dirname packageJsonPath) true) ne) /\
    (forall p, found = Some p -> exists_on d p = true).
Proof.
  destruct (hasLockFile (disk w) packageJsonPath) eqn:Hlock.
  { rewrite (findOrGenerateLock_existing _ _ _ Hlock).
    exists (Some (existingLock (disk w) packageJsonPath)), temp, [], (disk w).
    split; [f_equal; apply world_eta|]. split; [intros e []|].
    split; [auto|]. split; [left; reflexivity|].
    intros p Hp. injection Hp as <-. unfold existingLock.
    unfold hasLockFile in Hlock.
    destruct (exists_on (disk w) (packageLockOf packageJsonPath)) eqn:E;
      [exact E | exact Hlock]. }
  unfold findOrGenerateLock, bind, existsSync, ret.
  pose proof Hlock as Hlock'.
  unfold hasLockFile, packageLockOf, yarnLockOf in Hlock'.
  apply orb_false_iff in Hlock'. destruct Hlock' as [H1 H2].
  rewrite H1, H2.
  rewrite (generateLockFile_missing _ _ Hlock). cbv zeta.
  destruct (spawn NpmInstall (dirname packageJsonPath) (disk w))
    as [ok1 d1]. cbn [fst snd].
  assert (Hnpm : forall e ok,
             In e [Exec NpmInstall (dirname packageJsonPath) ok] ->
             exists c ok', e = Exec c (dirname packageJsonPath) ok')
    by (intros e ok [<-|[]]; eauto).
  destruct ok1.
  - destruct (exists_on d1 (packageLockOf packageJsonPath)) eqn:E.
    + unfold packageLockOf. rewrite pathReplaceLockExt_pathJoin.
      change (replaceLockExt "package-lock.json") with "package-lock.json".
      cbn [disk trace]. unfold packageLockOf in E. rewrite E. cbn [negb].
      do 4 eexists. split; [reflexivity|]. split; [intros e0; apply Hnpm|].
      split; [discriminate|]. split; [left; reflexivity|].
      intros p Hp. injection Hp as <-. exact E.
    + do 4 eexists. split; [reflexivity|]. split; [intros e0; apply Hnpm|].
      split; [discriminate|]. split; [left; reflexivity|]. discriminate.
  - destruct (spawn YarnInstall (dirname packageJsonPath) d1) as [ok2 d2].
    cbn [fst snd].
    assert (Hboth : forall e,
               In e [Exec NpmInstall (dirname packageJsonPath) false;
                     Exec YarnInstall (dirname packageJsonPath) ok2] ->
               exists c ok', e = Exec c (dirname packageJsonPath) ok')
      by (intros e [<-|[<-|[]]]; eauto).
    destruct ok2; cbn [andb].
    + destruct (exists_on d2 (yarnLockOf packageJsonPath)) eqn:E.
      * unfold yarnLockOf. rewrite pathReplaceLockExt_pathJoin.
        change (replaceLockExt "yarn.lock") with "yarn.json".
        cbn [disk trace]. unfold yarnLockOf in E.
        destruct (exists_on d2 (pathJoin (dirname packageJsonPath) "yarn.json"));
          cbn [negb].
        -- do 4 eexists. split; [reflexivity|]. split; [apply Hboth|].
           split; [discriminate|]. split; [left; reflexivity|].
           intros p Hp. injection Hp as <-. exact E.
        -- do 4 eexists. split; [reflexivity|]. split; [apply Hboth|].
           split; [discriminate|]. split.
           ++ right. split; [reflexivity|]. right. left. reflexivity.
           ++ intros p Hp. injection Hp as <-. exact E.
      * do 4 eexists. split; [reflexivity|]. split; [apply Hboth|].
        split; [discriminate|]. split; [left; reflexivity|]. discriminate.
    + do 4 eexists. split; [reflexivity|]. split; [apply Hboth|].
      split; [discriminate|]. split; [left; reflexivity|]. discriminate.
Qed.

(** What one turn of the loop of [main] does, step by step: [ne] are the
    commands run to obtain a lock file, [np] the requests sent. *)
Definition turnDetail (packageJsonPath : path) (st : locals)
  (temp' : list path) (np : list event) (o : outcome locals) : Prop :=
  match o with
  | Ret st' =>
      tempLockFiles st' = temp' /\
      existsb failedPost np = false /\
      exists deps vulnerabilities,
        NoDup (JsMap.keys deps) /\
        scanResults (JsMap.keys deps) deps 0 (slotsIn np)
          ([], hasVulnerabilities st)
          = Some (vulnerabilities, hasVulnerabilities st') /\
        allFindings st' =
          allFindings st ++ map (mkFinding packageJsonPath) vulnerabilities
  | Throw _ =>
      (exists pre batch r,
          np = pre ++ [Post batch r] /\ decode r = None /\
          existsb failedPost pre = false) \/
      (existsb failedPost np = false /\ idless (slotsIn np))
  | Exit _ => False
  end.

Lemma processManifest_detail packageJsonPath st w o w' :
  processManifest packageJsonPath st w = (o, w') ->
  exists found temp' ne d np,
    findOrGenerateLock packageJsonPath (tempLockFiles st) w =
      (Ret (found, temp'), mkWorld d (trace w ++ ne)) /\
    w' = mkWorld d (trace w ++ ne ++ np) /\
    forallb isPost np = true /\
    ((found = None \/
      exists lockFile, found = Some lockFile /\
                       unparsable d lockFile) -> np = [] /\ o = Ret (mkLocals (hasVulnerabilities st) (allFindings st) temp')) /\
    turnDetail packageJsonPath st temp' np o.
Proof.
  unfold processManifest, bind.
  destruct (findOrGenerateLock_detail packageJsonPath (tempLockFiles st) w)
    as [found [temp' [ne [d [Hfind _]]]]].
  rewrite Hfind. cbn [fst snd].
  assert (Hskip :
    (Ret (mkLocals (hasVulnerabilities st) (allFindings st) temp'),
     mkWorld d (trace w ++ ne)) = (o, w') ->
    exists found0 temp0 ne0 d0 np,
      (Ret (found, temp'), mkWorld d (trace w ++ ne)) =
        (Ret (found0, temp0), mkWorld d0 (trace w ++ ne0)) /\
      w' = mkWorld d0 (trace w ++ ne0 ++ np) /\
      forallb isPost np = true /\
      ((found0 = None \/
        exists lockFile, found0 = Some lockFile /\ unparsable d0 lockFile) ->
       np = [] /\
       o = Ret (mkLocals (hasVulnerabilities st) (allFindings st) temp0)) /\
      turnDetail packageJsonPath st temp0 np o).
  { intros H. injection H as <- <-. exists found, temp', ne, d, [].
    split; [reflexivity|]. split; [rewrite app_nil_r; reflexivity|].
    split; [reflexivity|]. split; [auto|].
    cbn [turnDetail tempLockFiles hasVulnerabilities allFindings].
    split; [reflexivity|]. split; [reflexivity|].
    exists JsMap.empty, []. split; [constructor|].
    split; [reflexivity|]. cbn. rewrite app_nil_r. reflexivity. }
  destruct found as [lockFile|]; [|exact Hskip].
  destruct (parseDependencies_detail lockFile (mkWorld d (trace w ++ ne)))
    as [parsed [-> [Hnd Hnone]]].
  destruct parsed as [dependencies|]; [|exact Hskip].
  assert (Hparsable : ~ unparsable d lockFile)
    by (intros H; apply Hnone in H; discriminate H).
  destruct (JsMap.size dependencies =? 0) eqn:Hsize.
  { intros H. destruct (Hskip H)
      as [f0 [t0 [n0 [d0 [np [E [Hw [Hp [_ Ht]]]]]]]]].
    injection E as <- <- <- E. apply app_inv_head in E. subst n0.
    exists (Some lockFile), temp', ne, d, np.
    split; [reflexivity|]. split; [exact Hw|]. split; [exact Hp|].
    split; [|exact Ht].
    intros [T|[l [E Hu]]]; [discriminate T|]. injection E as <-.
    contradiction. }
  unfold queryOSV.
  destruct (queryLoop (List.length (map toQuery dependencies))
              (map toQuery dependencies) 0 []
              (mkWorld d (trace w ++ ne))) as [o2 w2] eqn:Hq.
  apply queryLoop_events in Hq. destruct Hq as [np [-> [Hnp Hout]]].
  cbn [disk trace hasVulnerabilities allFindings tempLockFiles] in *.
  assert (Hno : (Some lockFile = None \/
                 exists l, Some lockFile = Some l /\ unparsable d l) ->
                False).
  { intros [T|[l [E Hu]]]; [discriminate T|]. injection E as <-.
    contradiction. }
  destruct o2 as [rs|e|c]; [| |destruct Hout].
  - destruct Hout as [Hrs Hnf]. cbn [app] in Hrs. subst rs.
    destruct (scanResults (JsMap.keys dependencies) dependencies 0
                (slotsIn np) ([], hasVulnerabilities st))
      as [[vulnerabilities has]|] eqn:Hs.
    + unfold ret. intros H. injection H as <- <-.
      exists (Some lockFile), temp', ne, d, np.
      split; [reflexivity|]. split; [rewrite app_assoc; reflexivity|].
      split; [exact Hnp|]. split; [intros H; destruct (Hno H)|].
      cbn [turnDetail tempLockFiles hasVulnerabilities allFindings].
      split; [reflexivity|]. split; [exact Hnf|].
      exists dependencies, vulnerabilities.
      split; [apply Hnd; reflexivity|]. split; [exact Hs | reflexivity].
    + unfold throw. intros H. injection H as <- <-.
      exists (Some lockFile), temp', ne, d, np.
      split; [reflexivity|]. split; [rewrite app_assoc; reflexivity|].
      split; [exact Hnp|]. split; [intros H; destruct (Hno H)|].
      right. split; [exact Hnf|]. apply scanResults_None in Hs. exact Hs.
  - intros H. injection H as <- <-.
    exists (Some lockFile), temp', ne, d, np.
    split; [reflexivity|]. split; [rewrite app_assoc; reflexivity|].
    split; [exact Hnp|]. split; [intros H; destruct (Hno H)|].
    left. exact Hout.
Qed.

End ManifestFacts.

(* ================================================================== *)
(** * Further properties: a whole run *)
(* ================================================================== *)

Lemma flat_map_nonempty {A B} (f : A -> list B) (l : list A) :
  flat_map f l <> [] <-> exists x, In x l /\ f x <> [].
Proof.
  induction l as [|a l IH]; cbn [flat_map].
  - split; [congruence | intros [x [[] _]]].
  - split.
    + intros H. destruct (f a) eqn:E.
      * cbn [app] in H. apply IH in H. destruct H as [x [Hin Hx]].
        exists x. split; [right; exact Hin | exact Hx].
      * exists a. split; [left; reflexivity | congruence].
    + intros [x [[<-|Hin] Hx]] H; apply app_eq_nil in H; destruct H as [H1 H2].
      * exact (Hx H1).
      * apply IH in H2; [exact H2|]. exists x. split; assumption.
Qed.

Lemma maliciousIds_nonempty (rs : list osvResult) :
  maliciousIds rs <> [] <-> exists r, In r rs /\ slotMalicious r.
Proof.
  unfold maliciousIds. rewrite flat_map_nonempty. split.
  - intros [r [Hin H]]. exists r. split; [exact Hin|].
    apply (slotFindings_malicious None JsMap.empty).
    intros E. apply H.
    pose proof (slotFindings_ids None JsMap.empty r) as Hids.
    rewrite E in Hids. unfold maliciousIds in Hids. cbn [flat_map map] in Hids.
    rewrite app_nil_r in Hids. symmetry. exact Hids.
  - intros [r [Hin H]]. exists r. split; [exact Hin|].
    apply (slotFindings_malicious None JsMap.empty) in H.
    intros E. apply H.
    pose proof (slotFindings_ids None JsMap.empty r) as Hids.
    unfold maliciousIds in Hids. cbn [flat_map] in Hids.
    rewrite app_nil_r, E in Hids.
    destruct (slotFindings None JsMap.empty r); [reflexivity | discriminate].
Qed.

(** The findings the final report prints, in order. *)
Definition reported (t : list event) : list finding :=
  flat_map (fun e => match e with Reported f => [f] | _ => [] end) t.

Lemma reported_app t1 t2 : reported (t1 ++ t2) = reported t1 ++ reported t2.
Proof. apply flat_map_app. Qed.

Lemma reported_map (findings : list finding) :
  reported (map Reported findings) = findings.
Proof.
  induction findings as [|f rest IH]; [reflexivity|].
  cbn. f_equal. exact IH.
Qed.

Section RunFacts.

Context {X : Externals}.

Lemma cleanup_detail temp :
  forall w,
    exists new d,
      cleanup temp w = (Ret tt, mkWorld d (trace w ++ new)) /\
      (forall e, In e new -> exists p, e = Unlinked p /\ In p temp) /\
      (temp = [] -> new = [] /\ d = disk w).
Proof.
  induction temp as [|lockFile rest IH]; intros w; cbn [cleanup].
  - exists [], (disk w). split; [unfold ret; f_equal; apply world_eta|].
    split; [intros e []|auto].
  - assert (Hrest : forall w1 pre,
               trace w1 = trace w ++ pre ->
               (forall e, In e pre -> exists p, e = Unlinked p /\
                                                In p (lockFile :: rest)) ->
               exists new d,
                 cleanup rest w1 = (Ret tt, mkWorld d (trace w ++ new)) /\
                 (forall e, In e new -> exists p, e = Unlinked p /\
                                                  In p (lockFile :: rest)) /\
                 (lockFile :: rest = [] -> new = [] /\ d = disk w)).
    { intros w1 pre Htr Hpre. destruct (IH w1) as [new [d [-> [Hnew _]]]].
      exists (pre ++ new), d. split; [rewrite Htr, app_assoc; reflexivity|].
      split; [|discriminate].
      intros e He. apply in_app_or in He. destruct He as [He|He].
      - apply Hpre, He.
      - destruct (Hnew e He) as [p [-> Hp]]. exists p.
        split; [reflexivity | right; exact Hp]. }
    unfold bind, tryCatch, unlinkSync, ret.
    destruct (lookup lockFile (disk w)) as [[content| |]|].
    + apply (Hrest _ [Unlinked lockFile]); [reflexivity|].
      intros e [<-|[]]. exists lockFile. split; [reflexivity | left; reflexivity].
    + apply (Hrest w []); [symmetry; apply app_nil_r | intros e []].
    + apply (Hrest w []); [symmetry; apply app_nil_r | intros e []].
    + apply (Hrest w []); [symmetry; apply app_nil_r | intros e []].
Qed.

(** [main] in terms of its loop. *)
Lemma main_cases (w : world) :
  match findPackageJsonFiles [] (disk w) [] with
  | None => main w = (1%Z, mkWorld (disk w) (trace w ++ [FatalError]))
  | Some files =>
      match forEachManifest files initialLocals w with
      | (Ret st, w1) =>
          exists unl d,
            main w =
              ((if hasVulnerabilities st then 1 else 0)%Z,
               mkWorld d
                 (trace w1 ++ unl ++
                  (if hasVulnerabilities st
                   then map Reported (allFindings st) else []))) /\
            (forall e, In e unl ->
               exists p, e = Unlinked p /\ In p (tempLockFiles st)) /\
            (tempLockFiles st = [] -> unl = [] /\ d = disk w1)
      | (Throw _, w1) =>
          main w = (1%Z, mkWorld (disk w1) (trace w1 ++ [FatalError]))
      | (Exit _, _) => False
      end
  end.
Proof.
  unfold main, mainBody, bind, discover.
  destruct (findPackageJsonFiles [] (disk w) []) as [files|]; [|reflexivity].
  destruct files as [|f files].
  - cbn [forEachManifest List.length Nat.eqb]. unfold ret, exit.
    exists [], (disk w). cbn [hasVulnerabilities initialLocals tempLockFiles].
    split; [f_equal; rewrite app_nil_r; destruct w; reflexivity|].
    split; [intros e []|auto].
  - cbn [List.length Nat.eqb].
    destruct (forEachManifest (f :: files) initialLocals w) as [o w1] eqn:Hloop.
    destruct o as [st|e|c]; [|reflexivity|].
    + destruct (cleanup_detail (tempLockFiles st) w1)
        as [unl [d [-> [Hunl Hnil]]]].
      exists unl, d. split; [|split; assumption].
      destruct (hasVulnerabilities st).
      * rewrite report_events. unfold exit. cbn [disk trace].
        rewrite <- app_assoc. reflexivity.
      * unfold exit. rewrite app_nil_r. reflexivity.
    + apply forEachManifest_events in Hloop.
      destruct Hloop as [new [d [_ [_ H]]]]. exact H.
Qed.

Lemma forEachManifest_rule (files : list path)
  (P : locals -> world -> Prop) (Q : world -> Prop) :
  (forall m st w st1 w1,
      In m files -> P st w ->
      processManifest m st w = (Ret st1, w1) -> P st1 w1) ->
  (forall m st w e w1,
      In m files -> P st w ->
      processManifest m st w = (Throw e, w1) -> Q w1) ->
  forall st w o w',
    P st w ->
    forEachManifest files st w = (o, w') ->
    match o with
    | Ret st' => P st' w'
    | Throw _ => Q w'
    | Exit _ => False
    end.
Proof.
  intros Hret Hthrow.
  assert (G : forall rest, incl rest files ->
              forall st w o w', P st w ->
                forEachManifest rest st w = (o, w') ->
                match o with
                | Ret st' => P st' w'
                | Throw _ => Q w'
                | Exit _ => False
                end).
  { induction rest as [|m rest IH]; intros Hincl st w o w' HP H;
      cbn [forEachManifest] in H.
    - injection H as <- <-. exact HP.
    - unfold bind in H.
      destruct (processManifest m st w) as [o1 w1] eqn:H1.
      assert (Hm : In m files) by (apply Hincl; left; reflexivity).
      destruct o1 as [st1|e|c].
      + apply (IH (fun x Hx => Hincl x (or_intror Hx)) st1 w1); [|exact H].
        exact (Hret _ _ _ _ _ Hm HP H1).
      + injection H as <- <-. exact (Hthrow _ _ _ _ _ Hm HP H1).
      + apply processManifest_events in H1.
        destruct H1 as [new [d [_ [_ F]]]]. destruct F. }
  apply G, incl_refl.
Qed.

End RunFacts.

Section RunInvariant.

Context {X : Externals}.

Variable w0 : world.
Variable files : list path.

(** Every manifest of the walk has a lock file beside it when the run
    starts. *)
Definition allLocked : Prop :=
  forall m, In m files -> hasLockFile (disk w0) m = true.

(** What holds between two turns of the loop of [main], [new] being the
    events since the start of the run. *)
Record invariant (st : locals) (w : world) (new : list event) : Prop := {
  inv_trace : trace w = trace w0 ++ new;
  inv_scan : forallb isScanEvent new = true;
  inv_answered : existsb failedPost new = false;
  inv_ids : ~ idless (slotsIn new);
  inv_cwd : forall c cwd ok,
      In (Exec c cwd ok) new -> exists m, In m files /\ cwd = dirname m;
  inv_temp : forall p,
      In p (tempLockFiles st) ->
      exists m, In m files /\ p = yarnLockOf m /\
                In (Exec YarnInstall (dirname m) true) new;
  inv_findings :
      map (fun f => v_id (f_vuln f)) (allFindings st)
      = maliciousIds (slotsIn new);
  inv_files : forall f, In f (allFindings st) -> In (f_file f) files;
  inv_flag :
      hasVulnerabilities st = true <-> maliciousIds (slotsIn new) <> [];
  inv_locked :
      allLocked ->
      disk w = disk w0 /\ forallb isPost new = true /\ tempLockFiles st = []
}.

(** What holds when a turn of the loop has thrown. *)
Record thrown (w : world) (new : list event) : Prop := {
  thr_trace : trace w = trace w0 ++ new;
  thr_scan : forallb isScanEvent new = true;
  thr_cause : existsb failedPost new = true \/ idless (slotsIn new);
  thr_cwd : forall c cwd ok,
      In (Exec c cwd ok) new -> exists m, In m files /\ cwd = dirname m;
  thr_locked :
      allLocked -> disk w = disk w0 /\ forallb isPost new = true
}.

Lemma execs_only (ne : list event) (dir : path) :
  (forall e, In e ne -> exists c ok, e = Exec c dir ok) ->
  forallb isExec ne = true.
Proof.
  intros H. apply forallb_forall. intros e He.
  destruct (H e He) as [c [ok ->]]. reflexivity.
Qed.

Lemma posts_no_exec (np : list event) c cwd ok :
  forallb isPost np = true -> ~ In (Exec c cwd ok) np.
Proof.
  intros H Hin. rewrite forallb_forall in H. specialize (H _ Hin).
  discriminate H.
Qed.

Lemma existsb_failedPost_true (new : list event) batch r :
  In (Post batch r) new -> decode r = None -> existsb failedPost new = true.
Proof.
  intros Hin Hr. apply existsb_exists. exists (Post batch r).
  split; [exact Hin|]. cbn. rewrite Hr. reflexivity.
Qed.

(** The facts about one turn that both step lemmas need. *)
Lemma turn_facts m st w new o w1 :
  In m files ->
  invariant st w new ->
  processManifest m st w = (o, w1) ->
  exists temp' ne np,
    trace w1 = trace w0 ++ new ++ ne ++ np /\
    forallb isExec ne = true /\ forallb isPost np = true /\
    (forall c cwd ok,
        In (Exec c cwd ok) (new ++ ne ++ np) ->
        exists m', In m' files /\ cwd = dirname m') /\
    (temp' = tempLockFiles st \/
     temp' = tempLockFiles st ++ [yarnLockOf m] /\
     In (Exec YarnInstall (dirname m) true) ne) /\
    (allLocked -> disk w1 = disk w0 /\ ne = [] /\ temp' = []) /\
    slotsIn (new ++ ne ++ np) = slotsIn new ++ slotsIn np /\
    existsb failedPost (new ++ ne ++ np) = existsb failedPost np /\
    turnDetail m st temp' np o.
Proof.
  intros Hm HP H1. apply processManifest_detail in H1.
  destruct H1 as [found [temp' [ne [d [np [Hfind [-> [Hposts [_ Hturn]]]]]]]]].
  destruct (findOrGenerateLock_detail m (tempLockFiles st) w)
    as [found2 [temp2 [ne2 [d2 [Hfind2 [Hexec [Hexisting [Htemp _]]]]]]]].
  rewrite Hfind in Hfind2. injection Hfind2 as <- <- <- Hne.
  apply app_inv_head in Hne. subst ne2.
  pose proof (@execs_only _ _ Hexec) as Hne.
  destruct (exec_only _ Hne) as [Hok [Hslots _]].
  exists temp', ne, np. cbn [disk trace].
  split; [rewrite (inv_trace HP), <- app_assoc; reflexivity|].
  split; [exact Hne|]. split; [exact Hposts|]. split.
  { intros c cwd ok Hin. apply in_app_or in Hin. destruct Hin as [Hin|Hin].
    - exact (inv_cwd HP _ _ _ Hin).
    - apply in_app_or in Hin. destruct Hin as [Hin|Hin].
      + destruct (Hexec _ Hin) as [c' [ok' E]]. injection E as _ -> _.
        exists m. split; [exact Hm | reflexivity].
      + destruct (@posts_no_exec np c cwd ok Hposts Hin). }
  split; [exact Htemp|]. split.
  { intros Hlocked. destruct (inv_locked HP Hlocked) as [Hd [_ Ht]].
    assert (Hl : hasLockFile (disk w) m = true)
      by (rewrite Hd; apply Hlocked, Hm).
    destruct (Hexisting Hl) as [-> [-> [-> _]]].
    repeat split; assumption. }
  split.
  { rewrite !slotsIn_app, Hslots. reflexivity. }
  split.
  { rewrite !existsb_app, (inv_answered HP), Hok. reflexivity. }
  exact Hturn.
Qed.

Lemma turn_ret m st w new st1 w1 :
  In m files ->
  invariant st w new ->
  processManifest m st w = (Ret st1, w1) ->
  exists new1, invariant st1 w1 new1.
Proof.
  intros Hm HP H1.
  destruct (@turn_facts _ _ _ _ _ _ Hm HP H1)
    as [temp' [ne [np [Htr [Hne [Hnp [Hcwd [Htemp [Hlock [Hsl [Hfail Hturn]]]]]]]]]]].
  cbn [turnDetail] in Hturn.
  destruct Hturn as [Ht1 [Hnf [deps [vulnerabilities [Hnd [Hscan Hall]]]]]].
  pose proof (scanResults_findings _ _ _ _ _ Hscan) as [Hf Hflag].
  cbn [fst snd app] in Hf, Hflag.
  assert (Hids : map v_id vulnerabilities = maliciousIds (slotsIn np)).
  { rewrite Hf. apply findings_ids. apply length_seq. }
  assert (Hnoid : ~ idless (slotsIn np)).
  { intros Hid. apply (scanResults_None (JsMap.keys deps) deps _ 0
                         ([], hasVulnerabilities st)) in Hid.
    congruence. }
  exists (new ++ ne ++ np). constructor.
  - exact Htr.
  - rewrite !forallb_app, (inv_scan HP).
    destruct (exec_only _ Hne) as [_ [_ ->]]. apply post_only, Hnp.
  - rewrite Hfail. exact Hnf.
  - rewrite Hsl, idless_app. intros [H|H]; [exact (inv_ids HP H) | exact (Hnoid H)].
  - exact Hcwd.
  - intros p Hp. rewrite Ht1 in Hp.
    destruct Htemp as [->|[-> Hyarn]].
    + destruct (inv_temp HP _ Hp) as [m' [Hm' [-> Hin]]].
      exists m'. repeat split; try assumption. apply in_or_app. left. exact Hin.
    + apply in_app_or in Hp. destruct Hp as [Hp|[<-|[]]].
      * destruct (inv_temp HP _ Hp) as [m' [Hm' [-> Hin]]].
        exists m'. repeat split; try assumption. apply in_or_app. left. exact Hin.
      * exists m. repeat split; try assumption.
        apply in_or_app. right. apply in_or_app. left. exact Hyarn.
  - rewrite Hall, map_app, map_map.
    rewrite (map_ext (fun x => v_id (f_vuln (mkFinding m x))) v_id)
      by reflexivity.
    rewrite (inv_findings HP), Hids, Hsl, maliciousIds_app. reflexivity.
  - intros f Hf'. rewrite Hall in Hf'. apply in_app_or in Hf'.
    destruct Hf' as [Hf'|Hf']; [exact (inv_files HP _ Hf')|].
    apply in_map_iff in Hf'. destruct Hf' as [v [<- _]]. exact Hm.
  - rewrite Hflag, Hsl, maliciousIds_app, (inv_flag HP).
    rewrite <- (maliciousIds_nonempty (slotsIn np)). split.
    + intros [H|H] E; apply app_eq_nil in E; destruct E as [E1 E2];
        [exact (H E1) | exact (H E2)].
    + intros H. destruct (maliciousIds (slotsIn new)) eqn:E1.
      * right. exact H.
      * left. discriminate.
  - intros Hlocked. destruct (Hlock Hlocked) as [Hd [-> Ht]].
    destruct (inv_locked HP Hlocked) as [_ [Hp _]].
    split; [exact Hd|]. split; [|rewrite Ht1; exact Ht].
    cbn [app]. rewrite forallb_app, Hp, Hnp. reflexivity.
Qed.

Lemma turn_throw m st w new e w1 :
  In m files ->
  invariant st w new ->
  processManifest m st w = (Throw e, w1) ->
  exists new1, thrown w1 new1.
Proof.
  intros Hm HP H1.
  destruct (@turn_facts _ _ _ _ _ _ Hm HP H1)
    as [temp' [ne [np [Htr [Hne [Hnp [Hcwd [Htemp [Hlock [Hsl [Hfail Hturn]]]]]]]]]]].
  cbn [turnDetail] in Hturn.
  exists (new ++ ne ++ np). constructor.
  - exact Htr.
  - rewrite !forallb_app, (inv_scan HP).
    destruct (exec_only _ Hne) as [_ [_ ->]]. apply post_only, Hnp.
  - destruct Hturn as [[pre [batch [r [-> [Hr _]]]]] | [_ Hid]].
    + left. rewrite Hfail.
      apply (@existsb_failedPost_true _ batch r); [|exact Hr].
      apply in_or_app. right. left. reflexivity.
    + right. rewrite Hsl, idless_app. right. exact Hid.
  - exact Hcwd.
  - intros Hlocked. destruct (Hlock Hlocked) as [Hd [-> _]].
    destruct (inv_locked HP Hlocked) as [_ [Hp _]].
    split; [exact Hd|]. cbn [app]. rewrite forallb_app, Hp, Hnp. reflexivity.
Qed.

Lemma invariant_start : invariant initialLocals w0 [].
Proof.
  constructor; cbn.
  - symmetry. apply app_nil_r.
  - reflexivity.
  - reflexivity.
  - intros [s [_ [_ [[] _]]]].
  - intros c cwd ok [].
  - intros p [].
  - reflexivity.
  - intros f [].
  - split; [discriminate | congruence].
  - auto.
Qed.

Lemma forEachManifest_invariant o w' :
  forEachManifest files initialLocals w0 = (o, w') ->
  match o with
  | Ret st => exists new, invariant st w' new
  | Throw _ => exists new, thrown w' new
  | Exit _ => False
  end.
Proof.
  apply (forEachManifest_rule files
           (fun st w => exists new, invariant st w new)
           (fun w => exists new, thrown w new)).
  - intros m st w st1 w1 Hm [new HP] H. exact (@turn_ret _ _ _ _ _ _ Hm HP H).
  - intros m st w e w1 Hm [new HP] H. exact (@turn_throw _ _ _ _ _ _ Hm HP H).
  - exists []. exact invariant_start.
Qed.

End RunInvariant.

Section RunTheorems.

Context {X : Externals}.

(** The three ways a run can go: the walk fails, a turn of the loop
    throws, or the loop completes and the run cleans up and reports. *)
Inductive runShape (w : world) (new : list event) (d : node) : Prop :=
| shape_unreadable :
    findPackageJsonFiles [] (disk w) [] = None ->
    new = [FatalError] -> d = disk w -> fst (main w) = 1%Z ->
    runShape w new d
| shape_thrown files scan :
    findPackageJsonFiles [] (disk w) [] = Some files ->
    thrown w files (mkWorld d (trace w ++ scan)) scan ->
    new = scan ++ [FatalError] -> fst (main w) = 1%Z ->
    runShape w new d
| shape_completed files st scan unl d1 :
    findPackageJsonFiles [] (disk w) [] = Some files ->
    invariant w files st (mkWorld d1 (trace w ++ scan)) scan ->
    new = scan ++ unl ++
          (if hasVulnerabilities st then map Reported (allFindings st)
           else []) ->
    (forall e, In e unl -> exists p, e = Unlinked p /\ In p (tempLockFiles st)) ->
    (tempLockFiles st = [] -> unl = [] /\ d = d1) ->
    fst (main w) = (if hasVulnerabilities st then 1 else 0)%Z ->
    runShape w new d.

Lemma main_shape (w : world) :
  exists new d,
    snd (main w) = mkWorld d (trace w ++ new) /\ runShape w new d.
Proof.
  pose proof (main_cases w) as Hm.
  destruct (findPackageJsonFiles [] (disk w) []) as [files|] eqn:Hwalk.
  - destruct (forEachManifest files initialLocals w) as [o w1] eqn:Hloop.
    pose proof (@forEachManifest_invariant _ _ _ _ _ Hloop) as Hinv.
    destruct o as [st|e|c]; [| |destruct Hm].
    + destruct Hinv as [scan Hinv].
      destruct Hm as [unl [d [Hmain [Hunl Hnil]]]].
      exists (scan ++ unl ++
              (if hasVulnerabilities st then map Reported (allFindings st)
               else [])), d.
      rewrite Hmain. cbn [fst snd]. split.
      * rewrite (inv_trace Hinv), <- app_assoc. reflexivity.
      * apply (shape_completed (files := files) (st := st) (scan := scan)
                 (unl := unl) (d1 := disk w1)); try assumption;
          try reflexivity.
        -- destruct w1 as [d1 t1]. cbn [disk trace] in *.
           rewrite <- (inv_trace Hinv). exact Hinv.
        -- rewrite Hmain. reflexivity.
    + destruct Hinv as [scan Hthr]. exists (scan ++ [FatalError]), (disk w1).
      rewrite Hm. cbn [fst snd]. split.
      * rewrite (thr_trace Hthr), <- app_assoc. reflexivity.
      * apply (shape_thrown (files := files) (scan := scan));
          try assumption; try reflexivity.
        -- destruct w1 as [d1 t1]. cbn [disk trace] in *.
           rewrite <- (thr_trace Hthr). exact Hthr.
        -- rewrite Hm. reflexivity.
  - exists [FatalError], (disk w). rewrite Hm. cbn [fst snd].
    split; [reflexivity|].
    apply shape_unreadable;
      [exact Hwalk | reflexivity | reflexivity | rewrite Hm; reflexivity].
Qed.

Lemma unlinked_only (unl : list event) (temp : list path) :
  (forall e, In e unl -> exists p, e = Unlinked p /\ In p temp) ->
  forallb isUnlinked unl = true.
Proof.
  intros H. apply forallb_forall. intros e He.
  destruct (H e He) as [p [-> _]]. reflexivity.
Qed.

Lemma scan_not_reported (scan : list event) :
  forallb isScanEvent scan = true -> reported scan = [].
Proof.
  induction scan as [|e l IH]; intros H; [reflexivity|].
  cbn in H. apply andb_true_iff in H. destruct H as [He Hl].
  destruct e; try discriminate; cbn; apply IH, Hl.
Qed.

Lemma unlinked_not_reported (unl : list event) :
  forallb isUnlinked unl = true -> reported unl = [].
Proof.
  induction unl as [|e l IH]; intros H; [reflexivity|].
  cbn in H. apply andb_true_iff in H. destruct H as [He Hl].
  destruct e; try discriminate; cbn; apply IH, Hl.
Qed.

Lemma tail_facts st (unl : list event) :
  forallb isUnlinked unl = true ->
  let tail := unl ++ (if hasVulnerabilities st
                      then map Reported (allFindings st) else []) in
  forallb isAfterScan tail = true /\
  reported tail =
    (if hasVulnerabilities st then allFindings st else []).
Proof.
  intros Hunl. cbv zeta. split.
  - rewrite forallb_app, (@after_scan_unlinked _ Hunl).
    destruct (hasVulnerabilities st);
      [apply after_scan_reported | reflexivity].
  - rewrite reported_app, (@unlinked_not_reported _ Hunl).
    destruct (hasVulnerabilities st); [apply reported_map | reflexivity].
Qed.





(** X8. A run ends in a fatal error exactly when the walk of the project
    tree fails, or a request meets a network error or a reply that does not
    decode, or the database returns an advisory without id.  Nothing else is
    fatal: a lock file that cannot be generated, read or decoded, and an
    empty dependency map, never are. *)
Theorem run_fatal_causes (w : world) :
  exists new d,
    snd (main w) = mkWorld d (trace w ++ new) /\
    (In FatalError new <->
     findPackageJsonFiles [] (disk w) [] = None \/
     existsb failedPost new = true \/
     idless (slotsIn new)).
Proof.
  destruct (main_shape w) as [new [d [Hw Hshape]]].
  exists new, d. split; [exact Hw|].
  destruct Hshape
    as [Hwalk -> _ _
       | files scan Hwalk Hthr -> _
       | files st scan unl d1 Hwalk Hinv -> Hunl _ _].
  - split; [auto | intros _; left; reflexivity].
  - split; [|intros _; apply in_or_app; right; left; reflexivity].
    intros _. right. destruct (thr_cause Hthr) as [H|H].
    + left. rewrite existsb_app, H. reflexivity.
    + right. rewrite slotsIn_app, idless_app. left. exact H.
  - pose proof (@unlinked_only _ _ Hunl) as Hu.
    destruct (@tail_facts st _ Hu) as [Htail _]. cbv zeta in Htail.
    destruct (@after_scan _ _ Htail) as [Hok Hslots].
    split.
    + intros Hin. exfalso. apply in_app_or in Hin. destruct Hin as [Hin|Hin].
      * pose proof (@existsb_false_In _ _ _ _ (@no_fatal_scan _ (inv_scan Hinv)) Hin)
          as T. discriminate T.
      * pose proof (@existsb_false_In _ _ _ _ (@no_fatal_after_scan _ Htail) Hin)
          as T. discriminate T.
    + intros [H|[H|H]]; exfalso.
      * congruence.
      * rewrite existsb_app, (inv_answered Hinv), Hok in H. discriminate H.
      * rewrite slotsIn_app, Hslots, app_nil_r in H. exact (inv_ids Hinv H).
Qed.

(** X9. A run that ends in a fatal error reports no finding.  A run that
    does not reports one finding per advisory that it received and
    classified malicious, in the order of arrival, each under the path of a
    manifest of the walk; it exits with code 1 exactly when it reports a
    finding. *)
Theorem run_report (w : world) :
  exists new d,
    snd (main w) = mkWorld d (trace w ++ new) /\
    (In FatalError new -> reported new = []) /\
    (~ In FatalError new ->
     map (fun f => v_id (f_vuln f)) (reported new)
       = maliciousIds (slotsIn new) /\
     (fst (main w) = 1%Z <-> reported new <> []) /\
     forall f, In f (reported new) ->
       exists files,
         findPackageJsonFiles [] (disk w) [] = Some files /\
         In (f_file f) files).
Proof.
  destruct (main_shape w) as [new [d [Hw Hshape]]].
  exists new, d. split; [exact Hw|].
  destruct Hshape
    as [Hwalk -> _ _
       | files scan Hwalk Hthr -> _
       | files st scan unl d1 Hwalk Hinv -> Hunl _ Hcode].
  - split; [reflexivity|]. intros H. exfalso. apply H. left. reflexivity.
  - split.
    + intros _. rewrite reported_app, (@scan_not_reported _ (thr_scan Hthr)).
      reflexivity.
    + intros H. exfalso. apply H. apply in_or_app. right. left. reflexivity.
  - pose proof (@unlinked_only _ _ Hunl) as Hu.
    destruct (@tail_facts st _ Hu) as [Htail Hrep]. cbv zeta in Htail, Hrep.
    destruct (@after_scan _ _ Htail) as [_ Hslots].
    assert (Hr : reported
                   (scan ++ unl ++
                    (if hasVulnerabilities st
                     then map Reported (allFindings st) else []))
                 = (if hasVulnerabilities st then allFindings st else []))
      by (rewrite reported_app, (@scan_not_reported _ (inv_scan Hinv)), Hrep;
          reflexivity).
    rewrite Hr, slotsIn_app, Hslots, app_nil_r, Hcode.
    split.
    { intros Hin. exfalso. apply in_app_or in Hin. destruct Hin as [Hin|Hin].
      - pose proof (@existsb_false_In _ _ _ _ (@no_fatal_scan _ (inv_scan Hinv)) Hin)
          as T. discriminate T.
      - pose proof (@existsb_false_In _ _ _ _ (@no_fatal_after_scan _ Htail) Hin)
          as T. discriminate T. }
    intros _. pose proof (inv_findings Hinv) as Hids.
    pose proof (inv_flag Hinv) as Hflag.
    destruct (hasVulnerabilities st).
    + split; [exact Hids|]. split.
      * split; [|reflexivity]. intros _ E. rewrite E in Hids. cbn in Hids.
        apply (proj1 Hflag eq_refl). symmetry. exact Hids.
      * intros f Hf. exists files. split; [exact Hwalk|].
        exact (inv_files Hinv _ Hf).
    + split.
      * destruct (maliciousIds (slotsIn scan)) eqn:E; [reflexivity|].
        assert (T : false = true) by (apply Hflag; discriminate).
        discriminate T.
      * split; [split; [discriminate | congruence] | intros f []].
Qed.

(** X10. A run touches the disk only where it should.  A package manager
    is run only in the directory of a manifest of the walk.  A file is
    unlinked only at the very end of a run without fatal error, and only if
    it is the yarn.lock beside a manifest of the walk for which yarn was
    run, with success, during this run. *)
Theorem run_side_effects (w : world) :
  exists new d,
    snd (main w) = mkWorld d (trace w ++ new) /\
    (forall c cwd ok,
        In (Exec c cwd ok) new ->
        exists files m,
          findPackageJsonFiles [] (disk w) [] = Some files /\
          In m files /\ cwd = dirname m) /\
    (forall p,
        In (Unlinked p) new ->
        ~ In FatalError new /\
        exists files m,
          findPackageJsonFiles [] (disk w) [] = Some files /\
          In m files /\ p = yarnLockOf m /\
          In (Exec YarnInstall (dirname m) true) new).
Proof.
  destruct (main_shape w) as [new [d [Hw Hshape]]].
  exists new, d. split; [exact Hw|].
  assert (Hscan_no_unlink : forall scan p,
             forallb isScanEvent scan = true -> ~ In (Unlinked p) scan).
  { intros scan p Hs Hin. rewrite forallb_forall in Hs.
    specialize (Hs _ Hin). discriminate Hs. }
  destruct Hshape
    as [Hwalk -> _ _
       | files scan Hwalk Hthr -> _
       | files st scan unl d1 Hwalk Hinv -> Hunl _ _].
  - split.
    + intros c cwd ok [T|[]]. discriminate T.
    + intros p [T|[]]. discriminate T.
  - split.
    + intros c cwd ok Hin. apply in_app_or in Hin.
      destruct Hin as [Hin|[T|[]]]; [|discriminate T].
      destruct (thr_cwd Hthr _ _ _ Hin) as [m [Hm ->]].
      exists files, m. repeat split; assumption.
    + intros p Hin. exfalso. apply in_app_or in Hin.
      destruct Hin as [Hin|[T|[]]]; [|discriminate T].
      exact (Hscan_no_unlink _ _ (thr_scan Hthr) Hin).
  - pose proof (@unlinked_only _ _ Hunl) as Hu.
    destruct (@tail_facts st _ Hu) as [Htail _]. cbv zeta in Htail.
    split.
    + intros c cwd ok Hin. apply in_app_or in Hin. destruct Hin as [Hin|Hin].
      * destruct (inv_cwd Hinv _ _ _ Hin) as [m [Hm ->]].
        exists files, m. repeat split; assumption.
      * exfalso. rewrite forallb_forall in Htail. specialize (Htail _ Hin).
        discriminate Htail.
    + intros p Hin. split.
      * intros Hf. apply in_app_or in Hf. destruct Hf as [Hf|Hf].
        -- pose proof (@existsb_false_In _ _ _ _
                         (@no_fatal_scan _ (inv_scan Hinv)) Hf) as T.
           discriminate T.
        -- pose proof (@existsb_false_In _ _ _ _
                         (@no_fatal_after_scan _ Htail) Hf) as T.
           discriminate T.
      * apply in_app_or in Hin. destruct Hin as [Hin|Hin];
          [destruct (Hscan_no_unlink _ _ (inv_scan Hinv) Hin)|].
        apply in_app_or in Hin. destruct Hin as [Hin|Hin].
        -- destruct (Hunl _ Hin) as [p' [E Hp]]. injection E as <-.
           destruct (inv_temp Hinv _ Hp) as [m [Hm [-> Hexec]]].
           exists files, m. repeat split; try assumption.
           apply in_or_app. left. exact Hexec.
        -- exfalso. destruct (hasVulnerabilities st); [|destruct Hin].
           apply in_map_iff in Hin. destruct Hin as [f [T _]]. discriminate T.
Qed.

(** X11. A run over a project in which every manifest of the walk has a
    lock file beside it leaves the disk as it found it: it runs no command
    and unlinks nothing; all it does is send requests and report. *)
Theorem run_read_only (w : world) (files : list path) :
  findPackageJsonFiles [] (disk w) [] = Some files ->
  (forall m, In m files -> hasLockFile (disk w) m = true) ->
  exists new,
    snd (main w) = mkWorld (disk w) (trace w ++ new) /\
    forall e, In e new -> isExec e = false /\ isUnlinked e = false.
Proof.
  intros Hfiles Hlocked.
  destruct (main_shape w) as [new [d [Hw Hshape]]].
  assert (Hposts : forall l e,
             forallb isPost l = true -> In e l ->
             isExec e = false /\ isUnlinked e = false).
  { intros l e Hl Hin. rewrite forallb_forall in Hl. specialize (Hl _ Hin).
    destruct e; try discriminate; auto. }
  destruct Hshape
    as [Hwalk -> _ _
       | files' scan Hwalk Hthr -> _
       | files' st scan unl d1 Hwalk Hinv -> Hunl Hnil _].
  - congruence.
  - rewrite Hfiles in Hwalk. injection Hwalk as <-.
    destruct (thr_locked Hthr Hlocked) as [Hd Hp]. cbn [disk] in Hd.
    subst d. exists (scan ++ [FatalError]). split; [exact Hw|].
    intros e Hin. apply in_app_or in Hin.
    destruct Hin as [Hin|[<-|[]]]; [exact (Hposts _ _ Hp Hin) | auto].
  - rewrite Hfiles in Hwalk. injection Hwalk as <-.
    destruct (inv_locked Hinv Hlocked) as [Hd [Hp Ht]]. cbn [disk] in Hd.
    destruct (Hnil Ht) as [-> ->]. subst d1.
    eexists. split; [exact Hw|].
    intros e Hin. apply in_app_or in Hin. cbn [app] in Hin.
    destruct Hin as [Hin|Hin]; [exact (Hposts _ _ Hp Hin)|].
    destruct (hasVulnerabilities st); [|destruct Hin].
    apply in_map_iff in Hin. destruct Hin as [f [<- _]]. auto.
Qed.

(** X12. A manifest whose existing lock file cannot be parsed is skipped
    without any effect: when nothing can be read at the lock file's path,
    or the package-lock.json does not decode, the turn of the loop leaves
    the variables of [main] and the world as they were, and no request is
    sent. *)
Theorem unparsable_lock_skipped (packageJsonPath : path) (st : locals) (w : world) :
  hasLockFile (disk w) packageJsonPath = true ->
  unparsable (disk w) (existingLock (disk w) packageJsonPath) ->
  processManifest packageJsonPath st w = (Ret st, w).
Proof.
  intros Hlock Hbad.
  destruct (processManifest packageJsonPath st w) as [o w'] eqn:H.
  apply processManifest_detail in H.
  destruct H as [found [temp' [ne [d [np [Hfind [-> [_ [Hskip _]]]]]]]]].
  rewrite (findOrGenerateLock_existing _ _ _ Hlock) in Hfind.
  injection Hfind as <- <- Hw.
  assert (Hd : d = disk w) by (rewrite Hw; reflexivity).
  assert (Hne : ne = []).
  { assert (T : trace w = trace w ++ ne) by (rewrite Hw at 1; reflexivity).
    rewrite <- (app_nil_r (trace w)) in T at 1.
    apply app_inv_head in T. symmetry. exact T. }
  subst d ne.
  destruct Hskip as [-> ->].
  { right. eexists. split; [reflexivity | exact Hbad]. }
  f_equal; [destruct st; reflexivity|].
  cbn [app]. rewrite app_nil_r. destruct w; reflexivity.
Qed.

End RunTheorems.

(* ================================================================== *)
(** * Further properties: the requests of queryOSV *)
(* ================================================================== *)

Section Requests.

Context {X : Externals}.

(** How the loop of [queryOSV] ends, given the replies it received. *)
Definition queryOutcome (acc : list osvResult) (batches : list (list query))
  (replies : list reply) (o : outcome (list osvResult)) : Prop :=
  match o with
  | Ret rs =>
      List.length replies = List.length batches /\
      rs = acc ++ List.concat (map slotsOf replies) /\
      Forall (fun r => decode r <> None) replies
  | Throw _ =>
      exists answered r,
        replies = answered ++ [r] /\ decode r = None /\
        Forall (fun r' => decode r' <> None) answered
  | Exit _ => False
  end.

Lemma queryLoop_requests (queries : list query) :
  forall fuel i acc w,
    exists replies,
      snd (queryLoop fuel queries i acc w) =
        mkWorld (disk w)
          (trace w ++ posts (batchesFrom fuel queries i) replies) /\
      List.length replies <= List.length (batchesFrom fuel queries i) /\
      queryOutcome acc (batchesFrom fuel queries i) replies
        (fst (queryLoop fuel queries i acc w)).
Proof.
  induction fuel as [|fuel IH]; intros i acc w; cbn [queryLoop batchesFrom].
  - exists []. destruct (i <? List.length queries); cbn;
      rewrite !app_nil_r; destruct w; repeat split; constructor.
  - destruct (i <? List.length queries).
    + set (batch := slice i (i + batchSize) queries).
      destruct (post_run batch w) as [o1 [Hp Ho]]. cbv zeta in Hp, Ho.
      set (r := transport (trace w) batch) in *.
      unfold bind. rewrite Hp.
      destruct (decode r) as [parsed|] eqn:Hd.
      * subst o1.
        destruct (IH (i + batchSize) (acc ++ resultsOf parsed)
                    (mkWorld (disk w) (trace w ++ [Post batch r])))
          as [replies [Hw [Hlen Hout]]].
        exists (r :: replies). cbn [disk trace] in Hw.
        split; [|split].
        -- rewrite Hw. unfold posts. cbn [combine map fst snd].
           rewrite <- app_assoc. reflexivity.
        -- cbn [List.length]. lia.
        -- destruct (fst (queryLoop fuel queries (i + batchSize)
                            (acc ++ resultsOf parsed)
                            (mkWorld (disk w) (trace w ++ [Post batch r]))))
             as [rs|e|c]; cbn [queryOutcome] in *.
           ++ destruct Hout as [Hl [-> Hall]]. split; [cbn; congruence|].
              split.
              ** cbn [map List.concat]. unfold slotsOf at 2. rewrite Hd.
                 rewrite <- app_assoc. reflexivity.
              ** constructor; [congruence | exact Hall].
           ++ destruct Hout as [answered [r' [-> [Hr' Hall]]]].
              exists (r :: answered), r'. repeat split; try assumption.
              constructor; [congruence | exact Hall].
           ++ exact Hout.
      * destruct Ho as [e ->]. exists [r]. cbn [fst snd].
        split; [|split].
        -- unfold posts. destruct (batchesFrom fuel queries (i + batchSize));
             reflexivity.
        -- cbn [List.length]. lia.
        -- exists [], r. repeat split; [exact Hd | constructor].
    + exists []. cbn. rewrite !app_nil_r. destruct w.
      repeat split; constructor.
Qed.

(** X13. Whatever the database answers, [queryOSV] leaves the disk alone
    and sends its requests in a fixed order: the batches are the queries
    of the map cut, in order, into pieces of at most 1000, none empty, each
    query bearing the ecosystem "npm"; the requests sent are the first of
    these batches, one after the other, never more than [N / 1000] rounded
    up.  It returns the replies put end to end once every batch has been
    answered, and throws at the first reply that is a network error or does
    not decode, without sending the batches that remain. *)
Theorem queryOSV_requests (dependencies : JsMap.t) (w : world) :
  exists batches replies,
    snd (queryOSV dependencies w) =
      mkWorld (disk w) (trace w ++ posts batches replies) /\
    List.concat batches = map toQuery dependencies /\
    List.length batches = batchCount (JsMap.size dependencies) /\
    (forall batch, In batch batches ->
       0 < List.length batch <= batchSize /\
       forall q, In q batch -> q_ecosystem q = "npm") /\
    List.length replies <= List.length batches /\
    queryOutcome [] batches replies (fst (queryOSV dependencies w)).
Proof.
  unfold queryOSV, JsMap.size.
  set (queries := map toQuery dependencies).
  assert (Hlen : List.length queries = List.length dependencies)
    by apply length_map.
  destruct (queryLoop_requests queries (List.length queries) 0 [] w)
    as [replies [Hw [Hle Hout]]].
  set (batches := batchesFrom (List.length queries) queries 0) in *.
  assert (Hbound : List.length queries <= 0 + List.length queries * batchSize)
    by (unfold batchSize; lia).
  assert (Hcat : List.concat batches = queries)
    by (apply (batchesFrom_concat queries _ 0 Hbound)).
  exists batches, replies.
  split; [exact Hw|]. split; [exact Hcat|]. split.
  { unfold batches. rewrite batchesFrom_length by exact Hbound.
    rewrite Nat.sub_0_r, Hlen. reflexivity. }
  split; [|split; assumption].
  intros batch Hin. split.
  - destruct (In_nth_error _ _ Hin) as [j Hj].
    destruct (batchesFrom_nth queries _ 0 j Hj) as [-> [Hlt _]].
    rewrite slice_batch, length_firstn, length_skipn. unfold batchSize in *.
    lia.
  - intros q Hq.
    assert (Hq' : In q queries).
    { rewrite <- Hcat. apply in_concat. exists batch. split; assumption. }
    unfold queries in Hq'. apply in_map_iff in Hq'.
    destruct Hq' as [entry [<- _]]. reflexivity.
Qed.

End Requests.

(* ================================================================== *)
(** * Further properties: the yarn.lock parser *)
(* ================================================================== *)

Section Yarn.

Context {X : Externals}.

(** A line that is not a package header. *)
Definition notHeader (line : string) : Prop := packageMatch line = None.

(** A line that is neither a package header nor a version line. *)
Definition plainLine (line : string) : Prop :=
  packageMatch line = None /\
  (includes line "version" = false \/ versionMatch line = None).

Lemma scanYarnLines_app_plain (body : list string) :
  Forall plainLine body ->
  forall rest currentPackage deps,
    scanYarnLines (body ++ rest) currentPackage deps =
    scanYarnLines rest currentPackage deps.
Proof.
  induction 1 as [|line body [Hh Hv] _ IH]; intros rest cur deps;
    [reflexivity|].
  cbn [app scanYarnLines]. rewrite Hh.
  destruct cur as [current|]; [|apply IH].
  destruct (truthy current && includes line "version") eqn:E; [|apply IH].
  apply andb_true_iff in E. destruct E as [_ E].
  destruct Hv as [Hv|Hv]; [congruence|]. rewrite Hv. apply IH.
Qed.

Lemma scanYarnLines_app_idle (body : list string) :
  Forall notHeader body ->
  forall rest deps,
    scanYarnLines (body ++ rest) None deps = scanYarnLines rest None deps.
Proof.
  induction 1 as [|line body Hh _ IH]; intros rest deps; [reflexivity|].
  cbn [app scanYarnLines]. unfold notHeader in Hh. rewrite Hh. apply IH.
Qed.

(** X14. An entry of a yarn.lock is read as a block.  After a header line
    that names a package, the lines that are neither headers nor version
    lines are passed over; the first version line records the package with
    its version; the other lines of the block, up to the next header, are
    ignored.  What was pending before the header is forgotten. *)
Theorem scanYarnLines_entry
  (header vline name v : string) (before after rest : list string)
  (currentPackage : option string) (deps : JsMap.t) :
  packageMatch header = Some name ->
  name <> EmptyString ->
  Forall plainLine before ->
  packageMatch vline = None ->
  includes vline "version" = true ->
  versionMatch vline = Some v ->
  Forall notHeader after ->
  scanYarnLines (header :: before ++ vline :: after ++ rest)
    currentPackage deps =
  scanYarnLines rest None (JsMap.set name v deps).
Proof.
  intros Hh Hname Hbefore Hvh Hvi Hvm Hafter.
  cbn [scanYarnLines]. rewrite Hh.
  rewrite (scanYarnLines_app_plain Hbefore).
  cbn [scanYarnLines]. rewrite Hvh.
  assert (Ht : truthy name = true) by (destruct name; [congruence | reflexivity]).
  rewrite Ht, Hvi. cbn [andb]. rewrite Hvm.
  apply (scanYarnLines_app_idle Hafter).
Qed.

(** X15. A header line whose block has no version line records nothing:
    when the next header comes, the package that was pending is dropped.
    Lines that stand before the first header are ignored. *)
Theorem scanYarnLines_dropped
  (header next name : string) (body preamble rest : list string)
  (currentPackage : option string) (deps : JsMap.t) :
  packageMatch header = Some name ->
  Forall plainLine body ->
  packageMatch next <> None ->
  Forall notHeader preamble ->
  scanYarnLines (header :: body ++ next :: rest) currentPackage deps =
    scanYarnLines (next :: rest) None deps /\
  scanYarnLines (preamble ++ rest) None deps = scanYarnLines rest None deps.
Proof.
  intros Hh Hbody Hnext Hpre. split.
  - cbn [scanYarnLines]. rewrite Hh.
    rewrite (scanYarnLines_app_plain Hbody).
    cbn [scanYarnLines]. destruct (packageMatch next); [reflexivity|].
    congruence.
  - apply (scanYarnLines_app_idle Hpre).
Qed.

End Yarn.

Section YarnSound.

Context {X : Externals}.

(** A line from which the parser takes the version [v]. *)
Definition versionLine (line v : string) : Prop :=
  packageMatch line = None /\
  includes line "version" = true /\
  versionMatch line = Some v.

Lemma scanYarnLines_sound (lines : list string) :
  forall currentPackage deps name v,
    JsMap.get name (scanYarnLines lines currentPackage deps) = Some v ->
    JsMap.get name deps = Some v \/
    (exists body vline rest,
        lines = body ++ vline :: rest /\ currentPackage = Some name /\
        Forall notHeader body /\ versionLine vline v) \/
    (exists pre header body vline rest,
        lines = pre ++ header :: body ++ vline :: rest /\
        packageMatch header = Some name /\
        Forall notHeader body /\ versionLine vline v).
Proof.
  induction lines as [|line rest IH]; intros cur deps name v H;
    cbn [scanYarnLines] in H; [left; exact H|].
  assert (Hshift :
    forall cur' deps',
      packageMatch line = None ->
      (JsMap.get name deps' = Some v ->
       JsMap.get name deps = Some v \/
       (cur = Some name /\ versionLine line v)) ->
      (cur' = Some name -> cur = Some name) ->
      JsMap.get name (scanYarnLines rest cur' deps') = Some v ->
      JsMap.get name deps = Some v \/
      (exists body vline rest0,
          line :: rest = body ++ vline :: rest0 /\ cur = Some name /\
          Forall notHeader body /\ versionLine vline v) \/
      (exists pre header body vline rest0,
          line :: rest = pre ++ header :: body ++ vline :: rest0 /\
          packageMatch header = Some name /\
          Forall notHeader body /\ versionLine vline v)).
  { intros cur' deps' Hnh Hdeps Hcur H'. apply IH in H'.
    destruct H' as [H'|[[body [vline [rest0 [-> [Hc [Hb Hv]]]]]]
                       |[pre [header [body [vline [rest0 [-> [Hh [Hb Hv]]]]]]]]]].
    - destruct (Hdeps H') as [Hd|[Hc Hv]]; [left; exact Hd|].
      right. left. exists [], line, rest.
      split; [reflexivity|]. split; [exact Hc|].
      split; [constructor | exact Hv].
    - right. left. exists (line :: body), vline, rest0.
      split; [reflexivity|]. split; [apply Hcur, Hc|].
      split; [constructor; assumption | exact Hv].
    - right. right. exists (line :: pre), header, body, vline, rest0.
      split; [reflexivity|]. split; [exact Hh|]. split; assumption. }
  destruct (packageMatch line) as [n|] eqn:Hp.
  - apply IH in H.
    destruct H as [H|[[body [vline [rest0 [-> [Hc [Hb Hv]]]]]]
                     |[pre [header [body [vline [rest0 [-> [Hh [Hb Hv]]]]]]]]]].
    + left. exact H.
    + injection Hc as ->. right. right.
      exists [], line, body, vline, rest0.
      split; [reflexivity|]. split; [exact Hp|]. split; assumption.
    + right. right. exists (line :: pre), header, body, vline, rest0.
      split; [reflexivity|]. split; [exact Hh|]. split; assumption.
  - destruct cur as [current|].
    + destruct (truthy current && includes line "version") eqn:E.
      * destruct (versionMatch line) as [v0|] eqn:Hv.
        -- apply (Hshift None (JsMap.set current v0 deps) eq_refl);
             [|discriminate|exact H].
           intros Hg. rewrite get_set in Hg.
           destruct (String.eqb current name) eqn:En; [|left; exact Hg].
           apply String.eqb_eq in En. subst current. injection Hg as <-.
           right. split; [reflexivity|].
           apply andb_true_iff in E. destruct E as [_ E].
           split; [exact Hp|]. split; assumption.
        -- apply (Hshift (Some current) deps eq_refl); auto.
      * apply (Hshift (Some current) deps eq_refl); auto.
    + apply (Hshift None deps eq_refl); auto.
Qed.

(** X16. The yarn.lock parser invents nothing.  When the lock file can be
    read, [parseYarnLock] returns without touching the world, and every
    entry of the map it returns pairs a name taken from a header line of the
    file with a version taken from a version line that stands after that
    header, with no other header in between.  The keys of the map are
    unique. *)
Theorem parseYarnLock_sound (lockPath : path) (w : world) (content : string) :
  lookup lockPath (disk w) = Some (File content) ->
  exists deps,
    parseYarnLock lockPath w = (Ret deps, w) /\
    NoDup (JsMap.keys deps) /\
    forall name v,
      JsMap.get name deps = Some v ->
      exists pre header body vline rest,
        splitLines content = pre ++ header :: body ++ vline :: rest /\
        packageMatch header = Some name /\
        Forall notHeader body /\ versionLine vline v.
Proof.
  intros Hfile. unfold parseYarnLock, bind, readFileSync, ret.
  rewrite Hfile. eexists. split; [reflexivity|]. split.
  - apply scanYarnLines_NoDup. constructor.
  - intros name v H. apply scanYarnLines_sound in H.
    destruct H as [H|[[body [vline [rest [_ [T _]]]]]|H]];
      [discriminate H | discriminate T | exact H].
Qed.

End YarnSound.

(* ================================================================== *)
(** * Further scenarios *)
(* ================================================================== *)

Module Toy.

(** A yarn.lock of one entry, read with matchers that take every line
    ending in a colon for the header of left-pad and every line starting
    with two spaces and the word version for its version line. *)
Definition yarn : Externals := {|
  spawn := fun _ _ d => (false, d);
  transport := fun _ _ => Body "clean";
  JSON_parse_lock := fun _ => None;
  JSON_parse_response := fun _ => Some Scenario.noAdvisory;
  packageMatch := fun line =>
    if endsWith line ":" then Some "left-pad" else None;
  versionMatch := fun line =>
    if startsWith line "  version " then Some "1.3.0" else None
|}.

Definition header : string := "left-pad@^1.3.0:".
Definition versionLine : string := "  version 1.3.0".
Definition resolvedLine : string := "  resolved https://registry.example/left-pad".
Definition comment : string := "# yarn lockfile v1".

Definition lockContent : string :=
  String.append header (String "010"%char versionLine).

Definition yarnProject : world :=
  mkWorld (Dir [("package.json", File "manifest");
                ("yarn.lock", File lockContent)]) [].

(** Three slots for a map of two packages: the first is empty, the second
    and the third hold a malicious advisory each. *)
Definition secondFinding : list osvResult :=
  [mkResult None;
   mkResult (Some [mkAdvisory (Some "MAL-2024-1234") None None]);
   mkResult (Some [mkAdvisory (Some "MAL-2024-5678") None None])].

End Toy.

Lemma scanResults_attribution_witness :
  NoDup (JsMap.keys Echo.dependencies) /\
  scanResults (JsMap.keys Echo.dependencies) Echo.dependencies 0
    Toy.secondFinding ([], false) =
    Some ([mkVulnerability (Some "colors") (Some "1.4.0")
             (Some "MAL-2024-1234") "Malicious package detected";
           mkVulnerability None None
             (Some "MAL-2024-5678") "Malicious package detected"], true) /\
  exists perSlot : list (list vulnerability),
    fst ([mkVulnerability (Some "colors") (Some "1.4.0")
            (Some "MAL-2024-1234") "Malicious package detected";
          mkVulnerability None None
            (Some "MAL-2024-5678") "Malicious package detected"], true)
      = fst (@nil vulnerability, false) ++ List.concat perSlot /\
    List.length perSlot = List.length Toy.secondFinding /\
    forall i r,
      nth_error Toy.secondFinding i = Some r ->
      exists found,
        nth_error perSlot i = Some found /\
        map v_id found = maliciousIds [r] /\
        forall v, In v found ->
          v_package v = option_map fst (nth_error Echo.dependencies i) /\
          v_version v = option_map snd (nth_error Echo.dependencies i).
Proof.
  assert (Hnd : NoDup (JsMap.keys Echo.dependencies)).
  { repeat constructor; cbn; intros H; repeat destruct H as [H|H];
      try discriminate H; exact H. }
  split; [exact Hnd|]. split; [reflexivity|].
  apply (@scanResults_attribution Echo.dependencies Toy.secondFinding
           ([], false) _ Hnd).
  reflexivity.
Defined.

Lemma run_read_only_witness :
  findPackageJsonFiles [] (disk Scenario.lockedProject) []
    = Some [["package.json"]] /\
  (forall m, In m [["package.json"]] ->
             hasLockFile (disk Scenario.lockedProject) m = true) /\
  exists new,
    snd (main (X := Scenario.colorsUpdate) Scenario.lockedProject) =
      mkWorld (disk Scenario.lockedProject)
        (trace Scenario.lockedProject ++ new) /\
    forall e, In e new -> isExec e = false /\ isUnlinked e = false.
Proof.
  assert (Hl : forall m, In m [["package.json"]] ->
                         hasLockFile (disk Scenario.lockedProject) m = true)
    by (intros m [<-|[]]; reflexivity).
  split; [reflexivity|]. split; [exact Hl|].
  apply (@run_read_only Scenario.colorsUpdate Scenario.lockedProject
           [["package.json"]] eq_refl Hl).
Defined.

Lemma unparsable_lock_skipped_witness :
  hasLockFile (disk Scenario.lockedProject) ["package.json"] = true /\
  unparsable (X := Scenario.yarnWorks) (disk Scenario.lockedProject)
    (existingLock (disk Scenario.lockedProject) ["package.json"]) /\
  processManifest (X := Scenario.yarnWorks) ["package.json"] initialLocals
    Scenario.lockedProject = (Ret initialLocals, Scenario.lockedProject).
Proof.
  assert (Hu : unparsable (X := Scenario.yarnWorks)
                 (disk Scenario.lockedProject)
                 (existingLock (disk Scenario.lockedProject) ["package.json"])).
  { right. split; [reflexivity|]. exists "lock". split; reflexivity. }
  split; [reflexivity|]. split; [exact Hu|].
  apply (@unparsable_lock_skipped Scenario.yarnWorks ["package.json"]
           initialLocals Scenario.lockedProject eq_refl Hu).
Defined.

Lemma scanYarnLines_entry_witness :
  packageMatch (Externals := Toy.yarn) Toy.header = Some "left-pad" /\
  "left-pad" <> EmptyString /\
  Forall (plainLine (X := Toy.yarn)) [] /\
  packageMatch (Externals := Toy.yarn) Toy.versionLine = None /\
  includes Toy.versionLine "version" = true /\
  versionMatch (Externals := Toy.yarn) Toy.versionLine = Some "1.3.0" /\
  Forall (notHeader (X := Toy.yarn)) [Toy.resolvedLine] /\
  scanYarnLines (X := Toy.yarn)
    (Toy.header :: [] ++ Toy.versionLine :: [Toy.resolvedLine] ++ [])
    None JsMap.empty =
  scanYarnLines (X := Toy.yarn) [] None
    (JsMap.set "left-pad" "1.3.0" JsMap.empty).
Proof.
  assert (Hname : "left-pad" <> EmptyString) by discriminate.
  assert (Hafter : Forall (notHeader (X := Toy.yarn)) [Toy.resolvedLine])
    by (repeat constructor).
  split; [reflexivity|]. split; [exact Hname|]. split; [constructor|].
  split; [reflexivity|]. split; [reflexivity|]. split; [reflexivity|].
  split; [exact Hafter|].
  apply (@scanYarnLines_entry Toy.yarn Toy.header Toy.versionLine
           "left-pad" "1.3.0" [] [Toy.resolvedLine] [] None JsMap.empty
           eq_refl Hname (Forall_nil _) eq_refl eq_refl eq_refl Hafter).
Defined.

Lemma scanYarnLines_dropped_witness :
  packageMatch (Externals := Toy.yarn) Toy.header = Some "left-pad" /\
  Forall (plainLine (X := Toy.yarn)) [Toy.resolvedLine] /\
  packageMatch (Externals := Toy.yarn) Toy.header <> None /\
  Forall (notHeader (X := Toy.yarn)) [Toy.comment] /\
  scanYarnLines (X := Toy.yarn)
    (Toy.header :: [Toy.resolvedLine] ++ Toy.header :: [Toy.versionLine])
    None JsMap.empty =
    scanYarnLines (X := Toy.yarn) (Toy.header :: [Toy.versionLine])
      None JsMap.empty /\
  scanYarnLines (X := Toy.yarn) ([Toy.comment] ++ [Toy.versionLine])
    None JsMap.empty =
    scanYarnLines (X := Toy.yarn) [Toy.versionLine] None JsMap.empty.
Proof.
  assert (Hbody : Forall (plainLine (X := Toy.yarn)) [Toy.resolvedLine])
    by (repeat constructor; left; reflexivity).
  assert (Hnext : packageMatch (Externals := Toy.yarn) Toy.header <> None)
    by discriminate.
  assert (Hpre : Forall (notHeader (X := Toy.yarn)) [Toy.comment])
    by (repeat constructor).
  split; [reflexivity|]. split; [exact Hbody|]. split; [exact Hnext|].
  split; [exact Hpre|].
  apply (@scanYarnLines_dropped Toy.yarn Toy.header Toy.header "left-pad"
           [Toy.resolvedLine] [Toy.comment] [Toy.versionLine] None
           JsMap.empty eq_refl Hbody Hnext Hpre).
Defined.

Lemma parseYarnLock_sound_witness :
  lookup ["yarn.lock"] (disk Toy.yarnProject) = Some (File Toy.lockContent) /\
  exists deps,
    parseYarnLock (X := Toy.yarn) ["yarn.lock"] Toy.yarnProject
      = (Ret deps, Toy.yarnProject) /\
    NoDup (JsMap.keys deps) /\
    forall name v,
      JsMap.get name deps = Some v ->
      exists pre header body vline rest,
        splitLines Toy.lockContent = pre ++ header :: body ++ vline :: rest /\
        packageMatch (Externals := Toy.yarn) header = Some name /\
        Forall (notHeader (X := Toy.yarn)) body /\
        versionLine (X := Toy.yarn) vline v.
Proof.
  split; [reflexivity|].
  apply (@parseYarnLock_sound Toy.yarn ["yarn.lock"] Toy.yarnProject
           Toy.lockContent eq_refl).
Defined.

(** The toy yarn.lock yields the one entry it holds. *)
Example toy_yarn_lock :
  parseYarnLock (X := Toy.yarn) ["yarn.lock"] Toy.yarnProject =
    (Ret [("left-pad", "1.3.0")], Toy.yarnProject).
Proof. reflexivity. Qed.
